(** * Tagged Binary Format (TBF): a shallow embedding of the encoder and decoder

    The development follows the C++ sources:
    - [include/tbf/Endianness.hpp]  (module [Endianness])
    - [include/tbf/DataType.hpp]    (module [DataType])
    - [include/tbf/DataTag.hpp]     (module [Tag])
    - [include/tbf/Writer.hpp], [src/Writer.cpp]  (module [Wr])
    - [include/tbf/Reader.hpp], [src/Reader.cpp]  (module [Rd])

    Bytes are [Init.Byte.byte]; buffers and borrowed memory are [list byte];
    pointers into the borrowed memory are offsets in [Z]; fixed-width integers
    are [Z] with the wrap-around written out.  A [float]/[double] is carried
    as its IEEE-754 bit pattern: the library only ever [bit_cast]s and
    [memcpy]s floating-point values, it never computes with them. *)

From Stdlib Require Import ZArith Lia List String Ascii.
From coqutil Require Import Byte Word.LittleEndianList.
From stdpp Require Import gmap list.

Local Open Scope Z_scope.

(* ===================================================================== *)
(** ** Bytes *)
(* ===================================================================== *)

#[global] Instance byte_eq_dec : EqDecision byte :=
  fun x y =>
    match Z.eq_dec (byte.unsigned x) (byte.unsigned y) with
    | left e => left (byte.unsigned_inj x y e)
    | right n => right (fun e : x = y => n (f_equal byte.unsigned e))
    end.

#[global] Instance byte_countable : Countable byte :=
  inj_countable' byte.unsigned byte.of_Z byte.of_Z_unsigned.

(** The bytes of a string literal (its characters' codes). *)
Fixpoint bytes_of_string (s : string) : list byte :=
  match s with
  | EmptyString => []
  | String c s' => byte.of_Z (Z.of_N (N_of_ascii c)) :: bytes_of_string s'
  end.

(** Length of a byte sequence as an integer ([size_t]). *)
Definition zlen (l : list byte) : Z := Z.of_nat (length l).

(** [uintN_t] truncation. *)
Definition wrap8 (z : Z) : Z := z mod 2 ^ 8.
Definition wrap16 (z : Z) : Z := z mod 2 ^ 16.
Definition wrap32 (z : Z) : Z := z mod 2 ^ 32.
Definition wrap64 (z : Z) : Z := z mod 2 ^ 64.

(** The value of an [n]-byte two's-complement bit pattern read as signed. *)
Definition to_signed (n : nat) (bits : Z) : Z :=
  let m := 2 ^ (8 * Z.of_nat n) in
  let u := bits mod m in
  if u <? m / 2 then u else u - m.

(* ===================================================================== *)
(** ** Endianness.hpp *)
(* ===================================================================== *)

Module Endianness.

(** [std::endian]. *)
Inductive endian := little | big.

#[global] Instance endian_eq_dec : EqDecision endian.
Proof. solve_decision. Defined.

(** [constexpr std::endian TBF_ENDIANESS = std::endian::little;] *)
Definition TBF_ENDIANESS : endian := little.

(** [std::byteswap] on an [n]-byte unsigned value: the bytes reversed. *)
Definition byteswap (n : nat) (v : Z) : Z := le_combine (rev (le_split n v)).

(** The object representation of an [n]-byte integer on a host
    ([memcpy] out of a variable) and its inverse ([memcpy] into one). *)
Definition to_native (native : endian) (n : nat) (v : Z) : list byte :=
  match native with
  | little => le_split n v
  | big => rev (le_split n v)
  end.

Definition of_native (native : endian) (bs : list byte) : Z :=
  match native with
  | little => le_combine bs
  | big => le_combine (rev bs)
  end.

(** [template <typename Type> void AdjustEndianess(Type& value)],
    [n = sizeof(Type)]. *)
Definition AdjustEndianess (native : endian) (n : nat) (value : Z) : Z :=
  if decide (native <> TBF_ENDIANESS) then
    match n with
    | 2%nat => byteswap 2 value
    | 4%nat => byteswap 4 value
    | 8%nat => byteswap 8 value
    | _ => value
    end
  else value.

(** One array element swapped in place: [int_data[i] = byteswap(int_data[i])]
    on the element's bytes in memory. *)
Definition swap_element (native : endian) (size : nat) (bs : list byte) : list byte :=
  to_native native size (byteswap size (of_native native bs)).

(** The [for] loop of [AdjustArrayEndianess]: the first [count] elements of
    [size] bytes each are swapped, the rest of memory is left alone. *)
Fixpoint swap_elements (native : endian) (size : nat) (count : nat)
    (bs : list byte) : list byte :=
  match count with
  | O => bs
  | S c =>
      swap_element native size (firstn size bs)
        ++ swap_elements native size c (skipn size bs)
  end.

(** [template <uint32_t size> void AdjustArrayEndianess(void* data, size_t count)]
    applied to the bytes that start at [data].  A write past the end of
    the modelled memory (undefined behaviour in C++) is dropped: the result
    has the length of the input. *)
Definition AdjustArrayEndianess (native : endian) (size : nat) (count : Z)
    (bs : list byte) : list byte :=
  if decide (native <> TBF_ENDIANESS) then
    match size with
    | 2%nat | 4%nat | 8%nat =>
        firstn (length bs) (swap_elements native size (Z.to_nat count) bs)
    | _ => bs
    end
  else bs.

End Endianness.
Export Endianness.

(* ===================================================================== *)
(** ** DataType.hpp *)
(* ===================================================================== *)

Module DataType.

(** [enum class DataType : uint8_t]: a type code is a byte value. *)
Definition DataType := Z.

(** [using FieldSize = uint32_t;] and [sizeof(FieldSize)]. *)
Definition sizeof_FieldSize : nat := 4.

Definition CLASSIFICATION_MASK : Z := 0xF0.
Definition BASE_TYPE_MASK : Z := 0x0F.

Definition Raw : DataType := 0x00.
Definition Array : DataType := 0xA0.
Definition Vector2 : DataType := 0x20.
Definition Vector3 : DataType := 0x30.
Definition Vector4 : DataType := 0x40.

Definition SignedInteger : DataType := 0.
Definition UnsignedInteger : DataType := 4.
Definition FloatingPointAndBool : DataType := 8.
Definition NonPrimitive : DataType := 12.

Definition Int8 : DataType := Z.lor (Z.lor Raw SignedInteger) 0.
Definition Int16 : DataType := Z.lor (Z.lor Raw SignedInteger) 1.
Definition Int32 : DataType := Z.lor (Z.lor Raw SignedInteger) 2.
Definition Int64 : DataType := Z.lor (Z.lor Raw SignedInteger) 3.

Definition UInt8 : DataType := Z.lor (Z.lor Raw UnsignedInteger) 0.
Definition UInt16 : DataType := Z.lor (Z.lor Raw UnsignedInteger) 1.
Definition UInt32 : DataType := Z.lor (Z.lor Raw UnsignedInteger) 2.
Definition UInt64 : DataType := Z.lor (Z.lor Raw UnsignedInteger) 3.

Definition Boolean : DataType := Z.lor (Z.lor Raw FloatingPointAndBool) 0.
Definition Float16 : DataType := Z.lor (Z.lor Raw FloatingPointAndBool) 1.
Definition Float32 : DataType := Z.lor (Z.lor Raw FloatingPointAndBool) 2.
Definition Float64 : DataType := Z.lor (Z.lor Raw FloatingPointAndBool) 3.

Definition UUID : DataType := Z.lor (Z.lor Raw NonPrimitive) 0.
Definition String : DataType := Z.lor (Z.lor Raw NonPrimitive) 1.
Definition Binary : DataType := Z.lor (Z.lor Raw NonPrimitive) 2.
Definition Object : DataType := Z.lor (Z.lor Raw NonPrimitive) 3.

Definition StringArray : DataType := Z.lor Array String.
Definition BinaryArray : DataType := Z.lor Array Binary.
Definition ObjectArray : DataType := Z.lor Array Object.

Definition Invalid : DataType := 0xFF.

Definition TypeClassification (type : DataType) : DataType :=
  Z.land type CLASSIFICATION_MASK.

Definition BaseDataType (type : DataType) : DataType :=
  Z.land type BASE_TYPE_MASK.

Definition IsPrimitiveType (type : DataType) : bool :=
  TypeClassification type =? Raw.

Definition IsVectorType (type : DataType) : bool :=
  let classification := TypeClassification type in
  (Vector2 <=? classification) && (classification <=? Vector4).

Definition IsArrayType (type : DataType) : bool :=
  TypeClassification type =? Array.

Definition IsDynamicArrayType (type : DataType) : bool :=
  (type =? StringArray) || (type =? BinaryArray) || (type =? ObjectArray).

Definition IsFixedSizeArrayType (type : DataType) : bool :=
  IsArrayType type && negb (IsDynamicArrayType type).

Definition PrimitiveToArrayType (primitive : DataType) : DataType :=
  Z.lor primitive Array.

Definition IsPrimitive (type : DataType) : bool :=
  negb (Z.land type 12 =? 12).

Definition IsValidDataType (type : DataType) : bool :=
  let c := TypeClassification type in
  if c =? Raw then true
  else if c =? Array then true
  else if (c =? Vector2) || (c =? Vector3) || (c =? Vector4) then IsPrimitive type
  else false.

Definition DataTypeSize (type : DataType) : Z :=
  if (type =? Int8) || (type =? UInt8) || (type =? Boolean) then 1
  else if (type =? Int16) || (type =? UInt16) || (type =? Float16) then 2
  else if (type =? Int32) || (type =? UInt32) || (type =? Float32) then 4
  else if (type =? Int64) || (type =? UInt64) || (type =? Float64) then 8
  else if type =? UUID then 16
  else 0.

Definition VectorTypeDimension (type : DataType) : Z :=
  let c := TypeClassification type in
  if c =? Vector2 then 2
  else if c =? Vector3 then 3
  else if c =? Vector4 then 4
  else 0.

(** [template <typename Type> consteval DataType IntegerType()]:
    [is_signed] is [std::is_signed<Type>::value], [size] is [sizeof(Type)];
    the [switch] has no case for other sizes. *)
Definition IntegerType (is_signed : bool) (size : Z) : option DataType :=
  if is_signed then
    if size =? 1 then Some Int8
    else if size =? 2 then Some Int16
    else if size =? 4 then Some Int32
    else if size =? 8 then Some Int64
    else None
  else
    if size =? 1 then Some UInt8
    else if size =? 2 then Some UInt16
    else if size =? 4 then Some UInt32
    else if size =? 8 then Some UInt64
    else None.

End DataType.
Export DataType.

(* ===================================================================== *)
(** ** DataTag.hpp *)
(* ===================================================================== *)

Module Tag.

Definition MAX_TAG_NAME_LENGTH : Z := 0xFF.

(** Character literals. *)
Definition ch (c : ascii) : Z := Z.of_N (N_of_ascii c).

(** [IsValidTagChar(char c)] on the character's code. *)
Definition IsValidTagChar (c : Z) : bool :=
  ((ch "a" <=? c) && (c <=? ch "z"))
  || ((ch "A" <=? c) && (c <=? ch "Z"))
  || ((ch "0" <=? c) && (c <=? ch "9"))
  || (c =? ch "_").

(** [IsTagNameValid(std::string_view name)]. *)
Definition IsTagNameValid (name : list byte) : bool :=
  if (length name =? 0)%nat || (MAX_TAG_NAME_LENGTH <? zlen name) then false
  else forallb (fun b => IsValidTagChar (byte.unsigned b)) name.

(** The body of the [for] loop of [TagNameHash]: the [uint8_t mapped] of
    one character. *)
Definition mapped_char (c : Z) : Z :=
  if (ch "a" <=? c) && (c <=? ch "z") then wrap8 (c - ch "a" + 1)
  else if (ch "A" <=? c) && (c <=? ch "Z") then wrap8 (c - ch "A" + 1)
  else if (ch "0" <=? c) && (c <=? ch "9") then wrap8 (c - ch "0" + 27)
  else if c =? ch "_" then 37
  else 0.

(** The loop of [TagNameHash] from a given [hash]: for each character,
    [hash ^= mapped; hash *= 16777619u;] on a [uint32_t]. *)
Fixpoint TagNameHash_loop (hash : Z) (str : list byte) : Z :=
  match str with
  | [] => hash
  | c :: rest =>
      let mapped := mapped_char (byte.unsigned c) in
      let hash := Z.lxor hash mapped in
      let hash := wrap32 (hash * 16777619) in
      TagNameHash_loop hash rest
  end.

(** [consteval uint32_t TagNameHash(std::string_view str)]. *)
Definition TagNameHash (str : list byte) : Z :=
  TagNameHash_loop 2166136261 str.

(** [class DataTag]: [Id id; std::string_view name;]. *)
Record DataTag := mkDataTag { id : Z; name : list byte }.

Definition INVALID_ID : Z := 0.

(** [DataTag::Validate()], which throws (a compile-time failure of the
    [consteval] constructor) on an invalid name or a zero id. *)
Definition Validate (t : DataTag) : bool :=
  IsTagNameValid (name t) && negb (id t =? INVALID_ID).

(** [consteval DataTag(const char* name)]:
    [id(static_cast<Id>(TagNameHash(name))), name(name)], then [Validate()]. *)
Definition DataTag_of_literal (nm : list byte) : option DataTag :=
  let t := mkDataTag (wrap16 (TagNameHash nm)) nm in
  if Validate t then Some t else None.

(** [consteval DataTag(Id id, const char* name)]. *)
Definition DataTag_of_id_name (i : Z) (nm : list byte) : option DataTag :=
  let t := mkDataTag i nm in
  if Validate t then Some t else None.

(** [explicit DataTag(Id id)] and [explicit DataTag(std::string_view name)]. *)
Definition DataTag_of_id (i : Z) : DataTag := mkDataTag i [].
Definition DataTag_of_name (nm : list byte) : DataTag := mkDataTag INVALID_ID nm.

Definition GetId (t : DataTag) : Z := id t.
Definition GetName (t : DataTag) : list byte := name t.
Definition HasId (t : DataTag) : bool := negb (id t =? INVALID_ID).

(** [bool DataTag::operator==(const DataTag& other) const]. *)
Definition DataTag_eqb (a other : DataTag) : bool :=
  if HasId a && HasId other then id a =? id other
  else bool_decide (name a = name other).

(** [bool DataTag::operator!=(const DataTag& other) const]. *)
Definition DataTag_neqb (a other : DataTag) : bool := negb (DataTag_eqb a other).

(** The tag id of a name: the [id] that the literal constructor stores. *)
Definition tag_id (nm : list byte) : Z := wrap16 (TagNameHash nm).

(** *** The hash schedule as the format document words it

    "Initial: hash = 2166136261. For each character c: map to value
    (a-z: 1-26, A-Z: 1-26, 0-9: 27-36, _: 37), hash ^= mapped_value,
    hash *= 16777619. Final: tag_id = hash & 0xFFFF". *)

Definition lowercase : list byte := bytes_of_string "abcdefghijklmnopqrstuvwxyz".
Definition uppercase : list byte := bytes_of_string "ABCDEFGHIJKLMNOPQRSTUVWXYZ".
Definition digits : list byte := bytes_of_string "0123456789".
Definition underscore : byte := byte.of_Z (ch "_").

(** Position of [c] in an alphabet, counted from [base]. *)
Fixpoint index_from (base : Z) (c : byte) (alphabet : list byte) : option Z :=
  match alphabet with
  | [] => None
  | a :: rest => if decide (a = c) then Some base else index_from (base + 1) c rest
  end.

Definition spec_mapped (c : byte) : Z :=
  match index_from 1 c lowercase with
  | Some v => v
  | None =>
      match index_from 1 c uppercase with
      | Some v => v
      | None =>
          match index_from 27 c digits with
          | Some v => v
          | None => if decide (c = underscore) then 37 else 0
          end
      end
  end.

Definition spec_fnv1a (str : list byte) : Z :=
  fold_left (fun hash c => (Z.lxor hash (spec_mapped c) * 16777619) mod 2 ^ 32)
    str 2166136261.

Definition spec_tag_id (str : list byte) : Z := Z.land (spec_fnv1a str) 0xFFFF.

(** ASCII upper-casing of a name. *)
Definition to_upper (c : byte) : byte :=
  let v := byte.unsigned c in
  if (ch "a" <=? v) && (v <=? ch "z") then byte.of_Z (v - 32) else c.

End Tag.
Export Tag.

(* ===================================================================== *)
(** ** Writer.hpp / Writer.cpp *)
(* ===================================================================== *)

Module Wr.
Section Host.

(** [std::endian::native] of the build. *)
Variable native : endian.

(** [class ObjectWriter]: [BufferOffset m_obj_size_pos; bool m_is_finished;]
    ([Writer& m_writer] is the writer state threaded through every call). *)
Record ObjectWriter := mkObjectWriter {
  m_obj_size_pos : Z;
  m_is_finished : bool
}.

(** [class ArrayWriter]: [BufferOffset m_array_size_pos; bool m_is_finished;]
    ([ObjectWriter& m_obj] only serves to reach the same writer). *)
Record ArrayWriter := mkArrayWriter {
  m_array_size_pos : Z;
  m_array_is_finished : bool
}.

(** [class Writer]: the growable buffer, the mode flag and the root scope.
    The capacity and [m_buffer_grow_size] only steer allocation
    ([ReserveBuffer]) and never the bytes, so they are not part of the state. *)
Record Writer := mkWriter {
  m_buffer : list byte;
  m_name_based : bool;
  m_root_object : ObjectWriter
}.

Definition set_buffer (w : Writer) (b : list byte) : Writer :=
  mkWriter b (m_name_based w) (m_root_object w).

Definition Data (w : Writer) : list byte := m_buffer w.
Definition Size (w : Writer) : Z := zlen (m_buffer w).

(** [std::memcpy(buffer.data() + offset, src, |src|)] inside a buffer.
    Every offset the writer uses comes from [ReserveDataSizeField], so the
    bytes overwritten exist; a copy that would pass the end (undefined
    behaviour in C++) is not exercised. *)
Definition memcpy_at (offset : Z) (src : list byte) (buf : list byte) : list byte :=
  firstn (Z.to_nat offset) buf ++ src
    ++ skipn (Z.to_nat offset + length src) buf.

(** [BufferOffset Writer::WriteData(const void* data, size_t size)]:
    [size] bytes starting at [data] are appended. *)
Definition WriteData_raw (data : list byte) (size : Z) (w : Writer) : Z * Writer :=
  let offset := zlen (m_buffer w) in
  (offset, set_buffer w (m_buffer w ++ firstn (Z.to_nat size) data)).

(** [template <typename Type, bool swap_endianess> void Writer::WriteData(Type value)],
    [n = sizeof(Type)]. *)
Definition WriteData (n : nat) (swap_endianess : bool) (value : Z) (w : Writer) : Writer :=
  if (1 <? n)%nat then
    let value := if swap_endianess then AdjustEndianess native n value else value in
    set_buffer w (m_buffer w ++ to_native native n value)
  else
    set_buffer w (m_buffer w ++ [byte.of_Z value]).

(** [void Writer::WriteFieldHeader(const DataTag& tag, DataType type)]. *)
Definition WriteFieldHeader (tag : DataTag) (type : DataType) (w : Writer) : Writer :=
  let w := WriteData 1 true type w in
  if m_name_based w then
    let w := WriteData 1 true (wrap8 (zlen (GetName tag))) w in
    set_buffer w (m_buffer w ++ GetName tag)
  else
    WriteData 2 true (GetId tag) w.

(** [BufferOffset Writer::ReserveDataSizeField()]. *)
Definition ReserveDataSizeField (w : Writer) : Z * Writer :=
  let offset := zlen (m_buffer w) in
  (offset, set_buffer w (m_buffer w ++ repeat Byte.x00 sizeof_FieldSize)).

(** [void Writer::WriteDataSizeField(BufferOffset offset)]. *)
Definition WriteDataSizeField (offset : Z) (w : Writer) : Writer :=
  let size := wrap32 (zlen (m_buffer w) - offset - Z.of_nat sizeof_FieldSize) in
  let size := AdjustEndianess native 4 size in
  set_buffer w (memcpy_at offset (to_native native 4 size) (m_buffer w)).

(** [void Writer::WriteString(const std::string_view& str)]. *)
Definition WriteString (str : list byte) (w : Writer) : Writer :=
  let length := wrap16 (zlen str) in
  let w := WriteData 2 true length w in
  snd (WriteData_raw str length w).

(** [void Writer::WriteBinary(const void* data, FieldSize size)]. *)
Definition WriteBinary (data : list byte) (size : Z) (w : Writer) : Writer :=
  let w := WriteData 4 true size w in
  snd (WriteData_raw data size w).

(** *** ObjectWriter *)

(** [ObjectWriter::ObjectWriter(Writer& writer)]. *)
Definition ObjectWriter_new (w : Writer) : ObjectWriter * Writer :=
  let '(pos, w) := ReserveDataSizeField w in
  (mkObjectWriter pos false, w).

Definition IsFinished (o : ObjectWriter) : bool := m_is_finished o.

(** [void ObjectWriter::Finish()]. *)
Definition ObjectWriter_Finish (o : ObjectWriter) (w : Writer) : ObjectWriter * Writer :=
  if negb (IsFinished o) then
    (mkObjectWriter (m_obj_size_pos o) true, WriteDataSizeField (m_obj_size_pos o) w)
  else (o, w).

(** [class ObjectWriter] declares no destructor: the implicit one runs no
    code, so destroying a handle leaves the writer as it is. *)
Definition ObjectWriter_destroy (o : ObjectWriter) (w : Writer) : Writer := w.

(** [Writer::Writer(bool name_based, uint32_t buff_grow_size)]: the member
    [m_root_object], built on this writer, reserves the root size slot. *)
Definition Writer_new (name_based : bool) : Writer :=
  mkWriter (repeat Byte.x00 sizeof_FieldSize) name_based (mkObjectWriter 0 false).

(** [void Writer::Finish() { m_root_object.Finish(); }]. *)
Definition Writer_Finish (w : Writer) : Writer :=
  let '(o, w') := ObjectWriter_Finish (m_root_object w) w in
  mkWriter (m_buffer w') (m_name_based w') o.

(** *** Field methods (of any [ObjectWriter] on this writer) *)

Definition FieldInt8 (tag : DataTag) (value : Z) (w : Writer) : Writer :=
  WriteData 1 true value (WriteFieldHeader tag Int8 w).
Definition FieldInt16 (tag : DataTag) (value : Z) (w : Writer) : Writer :=
  WriteData 2 true value (WriteFieldHeader tag Int16 w).
Definition FieldInt32 (tag : DataTag) (value : Z) (w : Writer) : Writer :=
  WriteData 4 true value (WriteFieldHeader tag Int32 w).
Definition FieldInt64 (tag : DataTag) (value : Z) (w : Writer) : Writer :=
  WriteData 8 true value (WriteFieldHeader tag Int64 w).

Definition FieldUInt8 (tag : DataTag) (value : Z) (w : Writer) : Writer :=
  WriteData 1 true value (WriteFieldHeader tag UInt8 w).
Definition FieldUInt16 (tag : DataTag) (value : Z) (w : Writer) : Writer :=
  WriteData 2 true value (WriteFieldHeader tag UInt16 w).
Definition FieldUInt32 (tag : DataTag) (value : Z) (w : Writer) : Writer :=
  WriteData 4 true value (WriteFieldHeader tag UInt32 w).
Definition FieldUInt64 (tag : DataTag) (value : Z) (w : Writer) : Writer :=
  WriteData 8 true value (WriteFieldHeader tag UInt64 w).

(** [FieldBoolean]: [WriteData<bool>] pushes [static_cast<uint8_t>(value)]. *)
Definition FieldBoolean (tag : DataTag) (value : bool) (w : Writer) : Writer :=
  WriteData 1 true (if value then 1 else 0) (WriteFieldHeader tag Boolean w).

(** The floating-point fields pass [swap_endianess = false]; [value] is
    the bit pattern ([std::bit_cast<uintN_t>(value)]). *)
Definition FieldFloat16 (tag : DataTag) (value : Z) (w : Writer) : Writer :=
  WriteData 2 false value (WriteFieldHeader tag Float16 w).
Definition FieldFloat32 (tag : DataTag) (value : Z) (w : Writer) : Writer :=
  WriteData 4 false value (WriteFieldHeader tag Float32 w).
Definition FieldFloat64 (tag : DataTag) (value : Z) (w : Writer) : Writer :=
  WriteData 8 false value (WriteFieldHeader tag Float64 w).

Definition FieldString (tag : DataTag) (value : list byte) (w : Writer) : Writer :=
  WriteString value (WriteFieldHeader tag String w).

(** [FieldBinary(tag, data, size_t size)]: [size] converts to [FieldSize]. *)
Definition FieldBinary (tag : DataTag) (data : list byte) (size : Z) (w : Writer) : Writer :=
  WriteBinary data (wrap32 size) (WriteFieldHeader tag Binary w).

Definition FieldObject (tag : DataTag) (w : Writer) : ObjectWriter * Writer :=
  ObjectWriter_new (WriteFieldHeader tag Object w).

(** *** Array field methods *)

(** The caller's array: [length] elements of [n] bytes as they lie in the
    caller's memory. *)
Definition array_bytes (n : nat) (data : list Z) : list byte :=
  concat (map (to_native native n) data).

(** [template <typename Type> void ObjectWriter::FieldArray(tag, array_type,
    data, length)], [n = sizeof(Type)]; the in-place swap starts at the
    returned [offset] and runs over [length] elements. *)
Definition FieldArray (n : nat) (tag : DataTag) (array_type : DataType)
    (data : list Z) (length : Z) (w : Writer) : Writer :=
  let w := WriteFieldHeader tag array_type w in
  let size := wrap32 (length * Z.of_nat n) in
  let w := WriteData 4 true size w in
  let '(offset, w) := WriteData_raw (array_bytes n data) size w in
  set_buffer w
    (firstn (Z.to_nat offset) (m_buffer w)
       ++ AdjustArrayEndianess native n length (skipn (Z.to_nat offset) (m_buffer w))).

Definition FieldArrayInt8 tag data length := FieldArray 1 tag (Z.lor Array Int8) data length.
Definition FieldArrayInt16 tag data length := FieldArray 2 tag (Z.lor Array Int16) data length.
Definition FieldArrayInt32 tag data length := FieldArray 4 tag (Z.lor Array Int32) data length.
Definition FieldArrayInt64 tag data length := FieldArray 8 tag (Z.lor Array Int64) data length.
Definition FieldArrayUInt8 tag data length := FieldArray 1 tag (Z.lor Array UInt8) data length.
Definition FieldArrayUInt16 tag data length := FieldArray 2 tag (Z.lor Array UInt16) data length.
Definition FieldArrayUInt32 tag data length := FieldArray 4 tag (Z.lor Array UInt32) data length.
Definition FieldArrayUInt64 tag data length := FieldArray 8 tag (Z.lor Array UInt64) data length.
Definition FieldArrayBoolean tag data length := FieldArray 1 tag (Z.lor Array Boolean) data length.
Definition FieldArrayFloat16 tag data length := FieldArray 2 tag (Z.lor Array Float16) data length.
Definition FieldArrayFloat32 tag data length := FieldArray 4 tag (Z.lor Array Float32) data length.
Definition FieldArrayFloat64 tag data length := FieldArray 8 tag (Z.lor Array Float64) data length.

(** *** ArrayWriter and its three subclasses *)

(** [ArrayWriter::ArrayWriter(ObjectWriter& obj)]. *)
Definition ArrayWriter_new (w : Writer) : ArrayWriter * Writer :=
  let '(pos, w) := ReserveDataSizeField w in
  (mkArrayWriter pos false, w).

(** [void ArrayWriter::Finish()]. *)
Definition ArrayWriter_Finish (a : ArrayWriter) (w : Writer) : ArrayWriter * Writer :=
  if negb (m_array_is_finished a) then
    (mkArrayWriter (m_array_size_pos a) true, WriteDataSizeField (m_array_size_pos a) w)
  else (a, w).

(** [virtual ~ArrayWriter() { Finish(); }]. *)
Definition ArrayWriter_destroy (a : ArrayWriter) (w : Writer) : Writer :=
  snd (ArrayWriter_Finish a w).

(** [StringArrayWriter ObjectWriter::FieldStringArray(const DataTag& tag)]. *)
Definition FieldStringArray (tag : DataTag) (w : Writer) : ArrayWriter * Writer :=
  ArrayWriter_new (WriteFieldHeader tag StringArray w).

Definition FieldBinaryArray (tag : DataTag) (w : Writer) : ArrayWriter * Writer :=
  ArrayWriter_new (WriteFieldHeader tag BinaryArray w).

Definition FieldObjectArray (tag : DataTag) (w : Writer) : ArrayWriter * Writer :=
  ArrayWriter_new (WriteFieldHeader tag ObjectArray w).

Definition StringArrayWriter_AddElement (element : list byte) (w : Writer) : Writer :=
  WriteString element w.

Definition BinaryArrayWriter_AddElement (element : list byte) (size : Z) (w : Writer) : Writer :=
  WriteBinary element size w.

Definition ObjectArrayWriter_CreateElement (w : Writer) : ObjectWriter * Writer :=
  ObjectWriter_new w.

(** [void ObjectWriter::FieldStringArray(tag, const std::string_view* data, length)]. *)
Definition FieldStringArray_all (tag : DataTag) (data : list (list byte)) (w : Writer) : Writer :=
  let w := WriteFieldHeader tag StringArray w in
  let '(offset, w) := ReserveDataSizeField w in
  let w := fold_left (fun w s => WriteString s w) data w in
  WriteDataSizeField offset w.

(** [void ObjectWriter::FieldBinaryArray(tag, data, sizes, length)]. *)
Definition FieldBinaryArray_all (tag : DataTag) (data : list (list byte * Z)) (w : Writer) : Writer :=
  let w := WriteFieldHeader tag BinaryArray w in
  let '(offset, w) := ReserveDataSizeField w in
  let w := fold_left (fun w e => WriteBinary (fst e) (snd e) w) data w in
  WriteDataSizeField offset w.

(** *** Programs of the caller

    A caller drives the encoder with a sequence of field operations in
    which every scope that is opened is finished before its parent is used
    again (the LIFO discipline).  [Field] is the syntax of such programs,
    [write_fields] runs one against the operations above. *)

#[warnings="-register-all"]
Inductive Field :=
| FInt8 (tag : DataTag) (v : Z) | FInt16 (tag : DataTag) (v : Z)
| FInt32 (tag : DataTag) (v : Z) | FInt64 (tag : DataTag) (v : Z)
| FUInt8 (tag : DataTag) (v : Z) | FUInt16 (tag : DataTag) (v : Z)
| FUInt32 (tag : DataTag) (v : Z) | FUInt64 (tag : DataTag) (v : Z)
| FBoolean (tag : DataTag) (v : bool)
| FFloat16 (tag : DataTag) (bits : Z) | FFloat32 (tag : DataTag) (bits : Z)
| FFloat64 (tag : DataTag) (bits : Z)
| FString (tag : DataTag) (s : list byte)
| FBinary (tag : DataTag) (data : list byte)
| FArray (n : nat) (tag : DataTag) (array_type : DataType) (data : list Z)
| FObject (tag : DataTag) (body : list Field)
| FStringArray (tag : DataTag) (elements : list (list byte))
| FBinaryArray (tag : DataTag) (elements : list (list byte))
| FObjectArray (tag : DataTag) (elements : list (list Field)).

(** [o = ObjectWriter(w); body; o.Finish();] *)
Definition in_object (body : Writer -> Writer) (w : Writer) : Writer :=
  let '(o, w) := ObjectWriter_new w in
  let w := body w in
  snd (ObjectWriter_Finish o w).

(** [a = ArrayWriter(obj); body; a.Finish();] *)
Definition in_array (body : Writer -> Writer) (w : Writer) : Writer :=
  let '(a, w) := ArrayWriter_new w in
  let w := body w in
  snd (ArrayWriter_Finish a w).

Fixpoint write_field (f : Field) (w : Writer) {struct f} : Writer :=
  match f with
  | FInt8 tag v => FieldInt8 tag v w
  | FInt16 tag v => FieldInt16 tag v w
  | FInt32 tag v => FieldInt32 tag v w
  | FInt64 tag v => FieldInt64 tag v w
  | FUInt8 tag v => FieldUInt8 tag v w
  | FUInt16 tag v => FieldUInt16 tag v w
  | FUInt32 tag v => FieldUInt32 tag v w
  | FUInt64 tag v => FieldUInt64 tag v w
  | FBoolean tag v => FieldBoolean tag v w
  | FFloat16 tag v => FieldFloat16 tag v w
  | FFloat32 tag v => FieldFloat32 tag v w
  | FFloat64 tag v => FieldFloat64 tag v w
  | FString tag s => FieldString tag s w
  | FBinary tag data => FieldBinary tag data (zlen data) w
  | FArray n tag array_type data =>
      FieldArray n tag array_type data (wrap32 (Z.of_nat (length data))) w
  | FObject tag body =>
      in_object (fun w => fold_left (fun w f => write_field f w) body w)
        (WriteFieldHeader tag Object w)
  | FStringArray tag elements =>
      in_array (fun w => fold_left (fun w s => StringArrayWriter_AddElement s w) elements w)
        (WriteFieldHeader tag StringArray w)
  | FBinaryArray tag elements =>
      in_array
        (fun w => fold_left
                    (fun w e => BinaryArrayWriter_AddElement e (wrap32 (zlen e)) w)
                    elements w)
        (WriteFieldHeader tag BinaryArray w)
  | FObjectArray tag elements =>
      in_array
        (fun w => fold_left
                    (fun w e =>
                       in_object (fun w => fold_left (fun w f => write_field f w) e w) w)
                    elements w)
        (WriteFieldHeader tag ObjectArray w)
  end.

Definition write_fields (fs : list Field) (w : Writer) : Writer :=
  fold_left (fun w f => write_field f w) fs w.

(** A scope of the encoder with what the caller writes in it before
    closing it. *)
Inductive Scope :=
| ObjectScope (body : list Field)
| StringArrayScope (elements : list (list byte))
| BinaryArrayScope (elements : list (list byte))
| ObjectArrayScope (elements : list (list Field)).

(** Open the scope (its constructor reserves the size slot), write its
    content, [Finish()] it: the offset of the slot and the writer. *)
Definition write_scope (sc : Scope) (w : Writer) : Z * Writer :=
  match sc with
  | ObjectScope body =>
      let '(o, w) := ObjectWriter_new w in
      let w := write_fields body w in
      (m_obj_size_pos o, snd (ObjectWriter_Finish o w))
  | StringArrayScope elements =>
      let '(a, w) := ArrayWriter_new w in
      let w := fold_left (fun w s => StringArrayWriter_AddElement s w) elements w in
      (m_array_size_pos a, snd (ArrayWriter_Finish a w))
  | BinaryArrayScope elements =>
      let '(a, w) := ArrayWriter_new w in
      let w :=
        fold_left (fun w e => BinaryArrayWriter_AddElement e (wrap32 (zlen e)) w)
          elements w in
      (m_array_size_pos a, snd (ArrayWriter_Finish a w))
  | ObjectArrayScope elements =>
      let '(a, w) := ArrayWriter_new w in
      let w := fold_left (fun w e => in_object (write_fields e) w) elements w in
      (m_array_size_pos a, snd (ArrayWriter_Finish a w))
  end.

(** A complete document: construct the writer, run the program on the
    root object, [Finish], and take [Data()]. *)
Definition encode (name_based : bool) (fs : list Field) : list byte :=
  Data (Writer_Finish (write_fields fs (Writer_new name_based))).

End Host.
End Wr.

(* ===================================================================== *)
(** ** Reader.hpp / Reader.cpp *)
(* ===================================================================== *)

Module Rd.
Section Host.

(** [std::endian::native] of the build. *)
Variable native : endian.

(** The borrowed memory is a byte list and a pointer is an offset into
    it.  [load mem p n] is what [memcpy(dst, p, n)] reads.  Reading past
    the end of the modelled memory (undefined behaviour in C++) yields the
    bytes that are there. *)
Definition load (mem : list byte) (p : Z) (n : Z) : list byte :=
  firstn (Z.to_nat n) (skipn (Z.to_nat p) mem).

(** [union CacheValue]: eight bytes shared by a pointer and the inline
    primitives (a pointer takes 8 bytes).  The model keeps which member was
    written last; [union_bytes] gives the bytes of the union, which is what
    a read through another member sees.  [.value = {.ptr = nullptr}]
    is [v_ptr 0]. *)
Inductive CacheValue :=
| v_ptr (p : Z)
| v_int (n : nat) (bits : Z).

Definition union_bytes (v : CacheValue) : list byte :=
  match v with
  | v_ptr p => to_native native 8 p
  | v_int n bits => to_native native n bits ++ repeat Byte.x00 (8 - n)
  end.

(** Reading the [ptr] member. *)
Definition get_ptr (v : CacheValue) : Z :=
  match v with
  | v_ptr p => p
  | v_int _ _ => of_native native (union_bytes v)
  end.

(** [struct CacheEntry { DataType type; CacheValue value; }]. *)
Record CacheEntry := mkCacheEntry { type : DataType; value : CacheValue }.

(** [class ObjectReader].  [m_buffer] is [None] for the null pointer.  The
    two caches share a union in C++; [m_name_based] says which one is live. *)
Record ObjectReader := mkObjectReader {
  m_buffer : option Z;
  m_size : Z;
  m_name_based : bool;
  m_cache_built : bool;
  m_is_valid : bool;
  m_id_cache : gmap Z CacheEntry;
  m_name_cache : gmap (list byte) CacheEntry
}.

(** The [const] read methods change the [mutable] cache fields and, through
    the in-place endian normalization, the borrowed memory: they are state
    transformers on the pair of both. *)
Definition St : Type := list byte * ObjectReader.

(** [void ObjectReader::Invalidate()]. *)
Definition Invalidate (r : ObjectReader) : ObjectReader :=
  mkObjectReader (m_buffer r) (m_size r) (m_name_based r) false false
    (if m_name_based r then m_id_cache r else ∅)
    (if m_name_based r then ∅ else m_name_cache r).

(** [ObjectReader::ObjectReader(const void* buffer, bool name_based)]:
    [memcpy(&m_size, buffer, sizeof(FieldSize))] with no byte swap. *)
Definition ObjectReader_new (mem : list byte) (buffer : option Z) (name_based : bool)
    : ObjectReader :=
  match buffer with
  | None => Invalidate (mkObjectReader None 0 name_based false false ∅ ∅)
  | Some p =>
      mkObjectReader (Some (p + Z.of_nat sizeof_FieldSize))
        (of_native native (load mem p (Z.of_nat sizeof_FieldSize)))
        name_based false false ∅ ∅
  end.

(** [ObjectReader::ObjectReader(const void* buffer, size_t size, bool name_based)]. *)
Definition ObjectReader_new_sized (mem : list byte) (buffer : option Z) (size : Z)
    (name_based : bool) : ObjectReader :=
  let r := ObjectReader_new mem buffer name_based in
  if size <? m_size r + Z.of_nat sizeof_FieldSize then Invalidate r else r.

(** [Reader::Reader(buffer, size, name_based)] over a buffer held at
    offset 0 of the memory, and [Reader::RootObject()]. *)
Definition Reader_new (mem : list byte) (name_based : bool) : St :=
  (mem, ObjectReader_new_sized mem (Some 0) (zlen mem) name_based).

(** *** Memory checking helpers *)

(** [CanAccessBuffer(beg, end, size)]:
    [static_cast<size_t>(end - beg) >= size]. *)
Definition CanAccessBuffer (beg end_ : Z) (size : Z) : bool :=
  size <=? wrap64 (end_ - beg).

(** [ReadData<Type, swap_endianess>(read_ptr, end_ptr, out_value)],
    [n = sizeof(Type)]: the value read and the advanced pointer, or [None]
    for [false]. *)
Definition ReadData (n : nat) (swap_endianess : bool) (mem : list byte)
    (read_ptr end_ptr : Z) : option (Z * Z) :=
  if CanAccessBuffer read_ptr end_ptr (Z.of_nat n) then
    let v := of_native native (load mem read_ptr (Z.of_nat n)) in
    let v := if swap_endianess then AdjustEndianess native n v else v in
    Some (v, read_ptr + Z.of_nat n)
  else None.

(** In-place [AdjustArrayEndianess<size>(read_ptr, count)] on the memory. *)
Definition adjust_in_place (size : nat) (count : Z) (mem : list byte) (read_ptr : Z)
    : list byte :=
  firstn (Z.to_nat read_ptr) mem
    ++ AdjustArrayEndianess native size count (skipn (Z.to_nat read_ptr) mem).

(** The [switch (element_size)] with cases 2, 4 and 8. *)
Definition adjust_switch (element_size : Z) (count : Z) (mem : list byte) (read_ptr : Z)
    : list byte :=
  if element_size =? 2 then adjust_in_place 2 count mem read_ptr
  else if element_size =? 4 then adjust_in_place 4 count mem read_ptr
  else if element_size =? 8 then adjust_in_place 8 count mem read_ptr
  else mem.

(** *** Cache management *)

(** The part of one loop iteration of [CreateCache] that reads the entry
    after the tag ("Read the corresponding entry").  The result is the
    memory (changed by the normalization) and, unless [errors] was set,
    the entry and the advanced [read_ptr]. *)
Definition read_entry (mem : list byte) (type : DataType) (read_ptr buff_end : Z)
    : list byte * option (CacheEntry * Z) :=
  if IsArrayType type then
    match ReadData 4 true mem read_ptr buff_end with
    | None => (mem, None)
    | Some (array_size, read_ptr') =>
        let element_size := DataTypeSize (BaseDataType type) in
        let mem :=
          if 1 <? element_size then
            let array_length := array_size / element_size in
            if wrap32 (array_length * element_size) =? array_size
            then adjust_switch element_size array_length mem read_ptr'
            else mem
          else mem in
        (mem, Some (mkCacheEntry type (v_ptr read_ptr), read_ptr' + array_size))
    end
  else if IsVectorType type then
    let vector_length := VectorTypeDimension type in
    let element_size := DataTypeSize (BaseDataType type) in
    let vector_size := wrap32 (vector_length * element_size) in
    if negb (CanAccessBuffer read_ptr buff_end vector_size) then (mem, None)
    else
      let mem :=
        if 1 <? element_size
        then adjust_switch element_size vector_length mem read_ptr
        else mem in
      (mem, Some (mkCacheEntry type (v_ptr read_ptr), read_ptr + vector_size))
  else if IsPrimitiveType type then
    let inline n :=
      match ReadData n true mem read_ptr buff_end with
      | None => (mem, None)
      | Some (v, read_ptr') => (mem, Some (mkCacheEntry type (v_int n v), read_ptr'))
      end in
    if (type =? Boolean) || (type =? UInt8) || (type =? Int8) then inline 1%nat
    else if (type =? Float16) || (type =? UInt16) || (type =? Int16) then inline 2%nat
    else if (type =? Float32) || (type =? UInt32) || (type =? Int32) then inline 4%nat
    else if (type =? Float64) || (type =? UInt64) || (type =? Int64) then inline 8%nat
    else if type =? UUID then
      if negb (CanAccessBuffer read_ptr buff_end 16) then (mem, None)
      else (mem, Some (mkCacheEntry type (v_ptr read_ptr), read_ptr + 16))
    else if type =? String then
      match ReadData 2 true mem read_ptr buff_end with
      | None => (mem, None)
      | Some (length, read_ptr') =>
          (mem, Some (mkCacheEntry type (v_ptr read_ptr), read_ptr' + length))
      end
    else if (type =? Object) || (type =? Binary) then
      match ReadData 4 true mem read_ptr buff_end with
      | None => (mem, None)
      | Some (size, read_ptr') =>
          (mem, Some (mkCacheEntry type (v_ptr read_ptr), read_ptr' + size))
      end
    else (mem, None)
  else (mem, None).

(** One iteration of the [while] loop up to and including the test
    [if (errors || read_ptr > buff_end)]: the memory and, unless the loop
    breaks with [errors = true], the tag location, the entry and the new
    [read_ptr]. *)
Definition read_register (name_based : bool) (mem : list byte) (read_ptr buff_end : Z)
    : list byte * option (Z * Z * CacheEntry * Z) :=
  match ReadData 1 true mem read_ptr buff_end with
  | None => (mem, None)
  | Some (type, read_ptr) =>
      if negb (IsValidDataType type) then (mem, None)
      else
        let tag :=
          if name_based then
            match ReadData 1 true mem read_ptr buff_end with
            | None => None
            | Some (tag_size, read_ptr) =>
                if negb (CanAccessBuffer read_ptr buff_end tag_size) then None
                else Some (read_ptr, tag_size, read_ptr + tag_size)
            end
          else
            if negb (CanAccessBuffer read_ptr buff_end 2) then None
            else Some (read_ptr, 2, read_ptr + 2) in
        match tag with
        | None => (mem, None)
        | Some (tag_ptr, tag_size, read_ptr) =>
            match read_entry mem type read_ptr buff_end with
            | (mem, None) => (mem, None)
            | (mem, Some (entry, read_ptr)) =>
                if buff_end <? read_ptr then (mem, None)
                else (mem, Some (tag_ptr, tag_size, entry, read_ptr))
            end
        end
  end.

(** [std::unordered_map::emplace]: the element is inserted only if the
    container holds no element with that key. *)
Definition emplace `{Countable K} {V} (k : K) (v : V) (m : gmap K V) : gmap K V :=
  match m !! k with
  | Some _ => m
  | None => <[k := v]> m
  end.

(** The state of the [while] loop of [CreateCache]. *)
Record Scan := mkScan {
  s_mem : list byte;
  s_read_ptr : Z;
  s_errors : bool;
  s_id_cache : gmap Z CacheEntry;
  s_name_cache : gmap (list byte) CacheEntry
}.

(** "Add tag to cache". *)
Definition add_tag (name_based : bool) (mem : list byte) (tag_ptr tag_size : Z)
    (entry : CacheEntry) (s : Scan) (read_ptr : Z) : Scan :=
  if name_based then
    mkScan mem read_ptr false (s_id_cache s)
      (emplace (load mem tag_ptr tag_size) entry (s_name_cache s))
  else
    mkScan mem read_ptr false
      (emplace (of_native native (load mem tag_ptr 2)) entry (s_id_cache s))
      (s_name_cache s).

(** [while (read_ptr < buff_end) { ... }].  Every iteration that does not
    break reads at least the type byte, so [fuel] iterations are enough
    when [fuel] is the size of the region; a loop that would need more is
    cut with [errors] (see [scan_fuel] below: this does not happen).  When
    the loop breaks, [errors] is set and the state keeps the cursor of the
    start of the iteration: after a break the cursor takes no part in the
    result, [m_is_valid] being false whatever it is. *)
Fixpoint scan (fuel : nat) (name_based : bool) (buff_end : Z) (s : Scan) : Scan :=
  if s_read_ptr s <? buff_end then
    match fuel with
    | O => mkScan (s_mem s) (s_read_ptr s) true (s_id_cache s) (s_name_cache s)
    | S fuel' =>
        match read_register name_based (s_mem s) (s_read_ptr s) buff_end with
        | (mem, None) =>
            mkScan mem (s_read_ptr s) true (s_id_cache s) (s_name_cache s)
        | (mem, Some (tag_ptr, tag_size, entry, read_ptr)) =>
            scan fuel' name_based buff_end
              (add_tag name_based mem tag_ptr tag_size entry s read_ptr)
        end
    end
  else s.

(** [void ObjectReader::CreateCache(uint32_t initial_size) const]. *)
Definition CreateCache (st : St) : St :=
  let '(mem, r) := st in
  if m_cache_built r then st
  else
    match m_buffer r with
    | None =>
        (mem, mkObjectReader (m_buffer r) (m_size r) (m_name_based r) true false
                (m_id_cache r) (m_name_cache r))
    | Some buffer =>
        if m_size r =? 0 then
          (mem, mkObjectReader (m_buffer r) (m_size r) (m_name_based r) true false
                  (m_id_cache r) (m_name_cache r))
        else
          let buff_end := buffer + m_size r in
          let s0 :=
            mkScan mem buffer false
              (if m_name_based r then m_id_cache r else ∅)
              (if m_name_based r then ∅ else m_name_cache r) in
          let s := scan (Z.to_nat (m_size r)) (m_name_based r) buff_end s0 in
          (s_mem s,
           mkObjectReader (m_buffer r) (m_size r) (m_name_based r) true
             (negb (s_errors s) && (s_read_ptr s =? buff_end))
             (s_id_cache s) (s_name_cache s))
    end.

(** [bool ObjectReader::IsValid() const]. *)
Definition IsValid (st : St) : bool * St :=
  let st := if negb (m_cache_built (snd st)) then CreateCache st else st in
  (m_is_valid (snd st), st).

(** [bool ObjectReader::FindTag(const DataTag& tag, CacheEntry& out_entry) const]:
    [Some entry] for [true]. *)
Definition FindTag (tag : DataTag) (st : St) : option CacheEntry * St :=
  let '(valid, st) := IsValid st in
  if negb valid then (None, st)
  else if m_name_based (snd st)
       then (m_name_cache (snd st) !! GetName tag, st)
       else (m_id_cache (snd st) !! GetId tag, st).

Definition ContainsTag (tag : DataTag) (st : St) : bool * St :=
  let '(e, st) := FindTag tag st in
  (match e with Some _ => true | None => false end, st).

Definition GetTagType (tag : DataTag) (st : St) : option DataType * St :=
  let '(e, st) := FindTag tag st in
  (option_map type e, st).

(** [bool AssertTag(const DataTag& tag, DataType expected_type) const]. *)
Definition AssertTag (tag : DataTag) (expected_type : DataType) (st : St) : bool * St :=
  let '(e, st) := FindTag tag st in
  (match e with Some entry => type entry =? expected_type | None => false end, st).

(** [std::vector<DataTag> ObjectReader::GetAllTags() const]: one tag per
    key of the live cache, built by the constructor from a name or from an
    id.  The order is that of the iteration over the [unordered_map], which
    the container does not specify; the statements below speak of
    membership only. *)
Definition GetAllTags (st : St) : list DataTag * St :=
  let '(valid, st) := IsValid st in
  if negb valid then ([], st)
  else if m_name_based (snd st)
       then (map (fun kv => DataTag_of_name (fst kv)) (map_to_list (m_name_cache (snd st))), st)
       else (map (fun kv => DataTag_of_id (fst kv)) (map_to_list (m_id_cache (snd st))), st).

(** *** Read methods *)

(** [template <typename Type, DataType expected_type> bool ReadPrimitive(tag,
    out_value)], [n = sizeof(Type)]: [memcpy(&out_value, &entry.value, n)];
    the result is the bit pattern of [out_value]. *)
Definition ReadPrimitive (n : nat) (expected_type : DataType) (tag : DataTag) (st : St)
    : option Z * St :=
  let '(e, st) := FindTag tag st in
  match e with
  | None => (None, st)
  | Some entry =>
      if negb (type entry =? expected_type) then (None, st)
      else (Some (of_native native (firstn n (union_bytes (value entry)))), st)
  end.

(** [const void* ReadPointerData(tag, expected_type, out_size)]: the
    returned pointer and [out_size] ([memcpy] with no byte swap), or [None]
    for [nullptr]. *)
Definition ReadPointerData (tag : DataTag) (expected_type : DataType) (st : St)
    : option (Z * Z) * St :=
  let '(e, st) := FindTag tag st in
  match e with
  | None => (None, st)
  | Some entry =>
      if negb (type entry =? expected_type) then (None, st)
      else
        let value_ptr := get_ptr (value entry) in
        let out_size := of_native native (load (fst st) value_ptr 4) in
        (Some (value_ptr + 4, out_size), st)
  end.

Definition map_result {A B} (f : A -> B) (x : option A * St) : option B * St :=
  (option_map f (fst x), snd x).

Definition ReadInt8 tag st := map_result (to_signed 1) (ReadPrimitive 1 Int8 tag st).
Definition ReadInt16 tag st := map_result (to_signed 2) (ReadPrimitive 2 Int16 tag st).
Definition ReadInt32 tag st := map_result (to_signed 4) (ReadPrimitive 4 Int32 tag st).
Definition ReadInt64 tag st := map_result (to_signed 8) (ReadPrimitive 8 Int64 tag st).

Definition ReadUInt8 tag st := ReadPrimitive 1 UInt8 tag st.
Definition ReadUInt16 tag st := ReadPrimitive 2 UInt16 tag st.
Definition ReadUInt32 tag st := ReadPrimitive 4 UInt32 tag st.
Definition ReadUInt64 tag st := ReadPrimitive 8 UInt64 tag st.

(** A [bool] whose byte is not zero reads as [true]. *)
Definition ReadBoolean tag st :=
  map_result (fun bits => negb (bits =? 0)) (ReadPrimitive 1 Boolean tag st).
Definition ReadFloat16 tag st := ReadPrimitive 2 Float16 tag st.
Definition ReadFloat32 tag st := ReadPrimitive 4 Float32 tag st.
Definition ReadFloat64 tag st := ReadPrimitive 8 Float64 tag st.

(** [bool ReadStringInternal(const CacheEntry& entry, std::string_view& out_value)]:
    the view [(value_ptr + 2, length)] as the bytes it covers. *)
Definition ReadStringInternal (entry : CacheEntry) (mem : list byte) : option (list byte) :=
  if negb (type entry =? String) then None
  else
    let value_ptr := get_ptr (value entry) in
    let length := of_native native (load mem value_ptr 2) in
    Some (load mem (value_ptr + 2) length).

Definition ReadString (tag : DataTag) (st : St) : option (list byte) * St :=
  let '(e, st) := FindTag tag st in
  match e with
  | None => (None, st)
  | Some entry => (ReadStringInternal entry (fst st), st)
  end.

(** [const void* ReadBinary(tag, out_size)] and the [std::span] helper. *)
Definition ReadBinary (tag : DataTag) (st : St) : option (Z * Z) * St :=
  ReadPointerData tag Binary st.

Definition ReadBinary_span (tag : DataTag) (st : St) : option (list byte) * St :=
  let '(r, st) := ReadBinary tag st in
  (option_map (fun ps => load (fst st) (fst ps) (snd ps)) r, st).

Definition ReadUUID (tag : DataTag) (st : St) : option Z * St :=
  let '(e, st) := FindTag tag st in
  match e with
  | None => (None, st)
  | Some entry =>
      if negb (type entry =? UUID) then (None, st)
      else (Some (get_ptr (value entry)), st)
  end.

(** [std::optional<ObjectReader> ReadObjectInternal(const CacheEntry& entry)]. *)
Definition ReadObjectInternal (entry : CacheEntry) (mem : list byte) (name_based : bool)
    : option ObjectReader :=
  if negb (type entry =? Object) then None
  else Some (ObjectReader_new mem (Some (get_ptr (value entry))) name_based).

Definition ReadObject (tag : DataTag) (st : St) : option ObjectReader * St :=
  let '(e, st) := FindTag tag st in
  match e with
  | None => (None, st)
  | Some entry => (ReadObjectInternal entry (fst st) (m_name_based (snd st)), st)
  end.

(** [template <typename Type, DataType expected_type> const Type* ReadArray(tag,
    out_length)]: the pointer and [out_length], or [None] for [nullptr]. *)
Definition ReadArray (expected_type : DataType) (tag : DataTag) (st : St)
    : option (Z * Z) * St :=
  let '(r, st) := ReadPointerData tag expected_type st in
  match r with
  | Some (value_ptr, out_size) =>
      let element_size := DataTypeSize (BaseDataType expected_type) in
      let array_length := out_size / element_size in
      if negb (wrap32 (array_length * element_size) =? out_size) then (None, st)
      else (Some (value_ptr, array_length), st)
  | None => (None, st)
  end.

(** [template <typename Type, uint32_t dim> Type* ReadVector(tag, type)]. *)
Definition ReadVector (tag : DataTag) (type_ : DataType) (st : St) : option Z * St :=
  let '(e, st) := FindTag tag st in
  match e with
  | None => (None, st)
  | Some entry =>
      if negb (type entry =? type_) then (None, st)
      else (Some (get_ptr (value entry)), st)
  end.

(** *** Array readers *)

(** [template <typename ElementSizeType> class ArrayReader]. *)
Record ArrayReader := mkArrayReader {
  m_array : Z;
  m_element_count : Z;
  m_valid : bool
}.

Definition ArrayReader_Invalidate (a : ArrayReader) : ArrayReader :=
  mkArrayReader (m_array a) 0 false.

(** [FieldSize GetArraySize(const void* array)]. *)
Definition GetArraySize (mem : list byte) (array : Z) : Z :=
  of_native native (load mem array 4).

(** The [while] loop of [Initialize], [es = sizeof(ElementSizeType)]:
    [Some (read_ptr, count)] when the loop ends or breaks, [None] for the
    early [return] after the first [Invalidate()].  The flag says whether
    the loop left through [Invalidate(); break;]. *)
Fixpoint init_loop (fuel : nat) (es : nat) (mem : list byte) (read_ptr buff_end : Z)
    (count : Z) : option (Z * Z * bool) :=
  if read_ptr <? buff_end then
    match fuel with
    | O => None
    | S fuel' =>
        if negb (CanAccessBuffer read_ptr buff_end (Z.of_nat sizeof_FieldSize)) then None
        else
          let object_size := of_native native (load mem read_ptr (Z.of_nat es)) in
          let read_ptr := read_ptr + Z.of_nat es in
          if negb (CanAccessBuffer read_ptr buff_end object_size)
          then Some (read_ptr, 0, true)
          else init_loop fuel' es mem (read_ptr + object_size) buff_end (wrap32 (count + 1))
    end
  else Some (read_ptr, count, false).

(** [void ArrayReader<ElementSizeType>::Initialize()]. *)
Definition Initialize (es : nat) (mem : list byte) (array : Z) : ArrayReader :=
  let array_size := GetArraySize mem array in
  let read_ptr := array + Z.of_nat sizeof_FieldSize in
  let buff_end := read_ptr + array_size in
  match init_loop (Z.to_nat array_size) es mem read_ptr buff_end 0 with
  | None => mkArrayReader array 0 false
  | Some (read_ptr, count, _) =>
      let valid := read_ptr =? buff_end in
      if negb valid then mkArrayReader array 0 false
      else mkArrayReader array count valid
  end.

(** [ArrayReader<ElementSizeType>::ArrayReader(const void* array)]. *)
Definition ArrayReader_new (es : nat) (mem : list byte) (array : Z) : ArrayReader :=
  Initialize es mem array.

(** The three subclasses' constructors from a cache entry. *)
Definition StringArrayReader_new (mem : list byte) (entry : CacheEntry) : ArrayReader :=
  let a := ArrayReader_new 2 mem (get_ptr (value entry)) in
  if negb (type entry =? StringArray) then ArrayReader_Invalidate a else a.

Definition BinaryArrayReader_new (mem : list byte) (entry : CacheEntry) : ArrayReader :=
  let a := ArrayReader_new 4 mem (get_ptr (value entry)) in
  if negb (type entry =? BinaryArray) then ArrayReader_Invalidate a else a.

Definition ObjectArrayReader_new (mem : list byte) (entry : CacheEntry) : ArrayReader :=
  let a := ArrayReader_new 4 mem (get_ptr (value entry)) in
  if negb (type entry =? ObjectArray) then ArrayReader_Invalidate a else a.

Definition ArrayReader_Size (a : ArrayReader) : Z := m_element_count a.
Definition ArrayReader_IsValid (a : ArrayReader) : bool := m_valid a.

Definition ReadStringArray (tag : DataTag) (st : St) : option ArrayReader * St :=
  let '(e, st) := FindTag tag st in
  match e with
  | None => (None, st)
  | Some entry =>
      if negb (type entry =? StringArray) then (None, st)
      else (Some (StringArrayReader_new (fst st) entry), st)
  end.

Definition ReadBinaryArray (tag : DataTag) (st : St) : option ArrayReader * St :=
  let '(e, st) := FindTag tag st in
  match e with
  | None => (None, st)
  | Some entry =>
      if negb (type entry =? BinaryArray) then (None, st)
      else (Some (BinaryArrayReader_new (fst st) entry), st)
  end.

Definition ReadObjectArray (tag : DataTag) (st : St) : option ArrayReader * St :=
  let '(e, st) := FindTag tag st in
  match e with
  | None => (None, st)
  | Some entry =>
      if negb (type entry =? ObjectArray) then (None, st)
      else (Some (ObjectArrayReader_new (fst st) entry), st)
  end.

(** *** Array reader iterators *)

(** [class BaseIterator]. *)
Record BaseIterator := mkBaseIterator {
  m_current_ptr : Z;
  m_end_ptr : Z;
  m_index : Z
}.

(** [void BaseIterator::Advance()]. *)
Definition Advance (es : nat) (mem : list byte) (it : BaseIterator) : BaseIterator :=
  let element_size := of_native native (load mem (m_current_ptr it) (Z.of_nat es)) in
  mkBaseIterator (m_current_ptr it + (Z.of_nat es + element_size)) (m_end_ptr it)
    (wrap32 (m_index it + 1)).

(** [BaseIterator::BaseIterator(const void* array, uint32_t index, bool at_end)]. *)
Definition BaseIterator_new (es : nat) (mem : list byte) (array : Z) (index : Z)
    (at_end : bool) : BaseIterator :=
  let array_size := GetArraySize mem array in
  let read_ptr := array + Z.of_nat sizeof_FieldSize in
  let end_ptr := read_ptr + array_size in
  if at_end then mkBaseIterator end_ptr end_ptr index
  else
    Nat.iter (Z.to_nat index) (Advance es mem) (mkBaseIterator read_ptr end_ptr index).

(** [const void* CurrentElement(ElementSizeType* out_size)]: pointer and size. *)
Definition CurrentElement (es : nat) (mem : list byte) (it : BaseIterator) : Z * Z :=
  (m_current_ptr it, of_native native (load mem (m_current_ptr it) (Z.of_nat es))).

(** [bool BaseIterator::operator==]. *)
Definition iterator_eq (a b : BaseIterator) : bool := m_current_ptr a =? m_current_ptr b.

Definition ArrayReader_end (es : nat) (mem : list byte) (a : ArrayReader) : BaseIterator :=
  BaseIterator_new es mem (m_array a) (m_element_count a) true.

Definition ArrayReader_begin (es : nat) (mem : list byte) (a : ArrayReader) : BaseIterator :=
  if ArrayReader_IsValid a then BaseIterator_new es mem (m_array a) 0 false
  else ArrayReader_end es mem a.

(** [bool ArrayReader::GetElement(index, out_ptr, size)]. *)
Definition ArrayReader_GetElement (es : nat) (mem : list byte) (a : ArrayReader) (index : Z)
    : option (Z * Z) :=
  if negb (ArrayReader_IsValid a) || (m_element_count a <=? index) then None
  else Some (CurrentElement es mem (BaseIterator_new es mem (m_array a) index false)).

(** [std::string_view StringArrayReader::Iterator::operator*()] and
    [std::span<const uint8_t> BinaryArrayReader::Iterator::operator*()]:
    the bytes after the element's size prefix. *)
Definition deref (es : nat) (mem : list byte) (it : BaseIterator) : list byte :=
  let '(ptr, size) := CurrentElement es mem it in
  load mem (ptr + Z.of_nat es) size.

(** [ObjectReader ObjectArrayReader::Iterator::operator*()]. *)
Definition deref_object (mem : list byte) (name_based : bool) (it : BaseIterator)
    : ObjectReader :=
  ObjectReader_new mem (Some (m_current_ptr it)) name_based.

Definition StringArrayReader_GetElement (mem : list byte) (a : ArrayReader) (index : Z)
    : option (list byte) :=
  option_map (fun ps => load mem (fst ps + 2) (snd ps)) (ArrayReader_GetElement 2 mem a index).

(** The range-based [for (const auto& x : reader)]:
    [for (it = begin(); it != end(); ++it) yield *it].  An element takes at
    least its prefix, so [fuel] iterations cover an array of [fuel] bytes. *)
Fixpoint iterate (fuel : nat) (es : nat) (mem : list byte) (it end_ : BaseIterator)
    : list (list byte) :=
  match fuel with
  | O => []
  | S fuel' =>
      if iterator_eq it end_ then []
      else deref es mem it :: iterate fuel' es mem (Advance es mem it) end_
  end.

Definition elements (es : nat) (mem : list byte) (a : ArrayReader) : list (list byte) :=
  iterate (S (Z.to_nat (GetArraySize mem (m_array a)))) es mem
    (ArrayReader_begin es mem a) (ArrayReader_end es mem a).

(** *** The read operations as requests

    [Read] names an operation of the typed read interface together with
    its template arguments; [run_read] performs it and reports whether it
    returned a value.  [expected] is the [DataType] the operation compares
    the entry's type with. *)
Inductive Read :=
| RPrimitive (n : nat) (expected_type : DataType)
| RString | RBinary | RUUID | RObject
| RArray (expected_type : DataType)
| RStringArray | RBinaryArray | RObjectArray
| RVector (type_ : DataType).

Definition expected (q : Read) : DataType :=
  match q with
  | RPrimitive _ t => t
  | RString => String
  | RBinary => Binary
  | RUUID => UUID
  | RObject => Object
  | RArray t => t
  | RStringArray => StringArray
  | RBinaryArray => BinaryArray
  | RObjectArray => ObjectArray
  | RVector t => t
  end.

Definition returned {A} (x : option A * St) : bool * St :=
  (match fst x with Some _ => true | None => false end, snd x).

Definition run_read (q : Read) (tag : DataTag) (st : St) : bool * St :=
  match q with
  | RPrimitive n t => returned (ReadPrimitive n t tag st)
  | RString => returned (ReadString tag st)
  | RBinary => returned (ReadBinary tag st)
  | RUUID => returned (ReadUUID tag st)
  | RObject => returned (ReadObject tag st)
  | RArray t => returned (ReadArray t tag st)
  | RStringArray => returned (ReadStringArray tag st)
  | RBinaryArray => returned (ReadBinaryArray tag st)
  | RObjectArray => returned (ReadObjectArray tag st)
  | RVector t => returned (ReadVector tag t st)
  end.

End Host.
End Rd.

(* ===================================================================== *)
(** ** Vocabulary of the statements *)
(* ===================================================================== *)

Import Wr Rd.

(** What a lookup in the live cache of a reader gives. *)
Definition lookup_cache (r : ObjectReader) (tag : DataTag) : option CacheEntry :=
  if Rd.m_name_based r then m_name_cache r !! GetName tag else m_id_cache r !! GetId tag.

(** The state in which the [while] loop of [CreateCache] starts. *)
Definition scan_start (mem : list byte) (r : ObjectReader) (buffer : Z) : Scan :=
  mkScan mem buffer false
    (if Rd.m_name_based r then m_id_cache r else ∅)
    (if Rd.m_name_based r then ∅ else m_name_cache r).

(** The state in which the loop of [CreateCache] ends. *)
Definition scan_result (native : endian) (mem : list byte) (r : ObjectReader) (buffer : Z)
    : Scan :=
  scan native (Z.to_nat (m_size r)) (Rd.m_name_based r) (buffer + m_size r)
    (scan_start mem r buffer).

(** [Reaches native nb buff_end s s']: the loop gets from state [s] to
    state [s'] by iterations that do not break. *)
Inductive Reaches (native : endian) (nb : bool) (buff_end : Z) : Scan -> Scan -> Prop :=
| reaches_refl s : Reaches native nb buff_end s s
| reaches_step s mem tag_ptr tag_size entry read_ptr s' :
    s_read_ptr s < buff_end ->
    read_register native nb (s_mem s) (s_read_ptr s) buff_end
      = (mem, Some (tag_ptr, tag_size, entry, read_ptr)) ->
    Reaches native nb buff_end (add_tag native nb mem tag_ptr tag_size entry s read_ptr) s' ->
    Reaches native nb buff_end s s'.

(** The loop, started in [s], breaks with [errors = true]: some iteration
    fails to read its register (an out-of-bounds read, an invalid type byte,
    or a payload that passes the end of the region). *)
Definition ScanFails (native : endian) (nb : bool) (buff_end : Z) (s : Scan) : Prop :=
  exists s' mem,
    Reaches native nb buff_end s s'
    /\ s_read_ptr s' < buff_end
    /\ read_register native nb (s_mem s') (s_read_ptr s') buff_end = (mem, None).

(** The loop, started in [s], comes to a register whose type byte can be
    read but is not a valid type code. *)
Definition InvalidTypeAt (native : endian) (nb : bool) (buff_end : Z) (s : Scan) : Prop :=
  exists s' t p,
    Reaches native nb buff_end s s'
    /\ s_read_ptr s' < buff_end
    /\ ReadData native 1 true (s_mem s') (s_read_ptr s') buff_end = Some (t, p)
    /\ IsValidDataType t = false.

(** The key under which the register at [tag_ptr] is filed equals the key
    that a lookup of [tag] uses. *)
Definition tag_matches (native : endian) (nb : bool) (mem : list byte)
    (tag_ptr tag_size : Z) (tag : DataTag) : Prop :=
  if nb then GetName tag = load mem tag_ptr tag_size
  else GetId tag = of_native native (load mem tag_ptr 2).

(** The lookup that [FindTag] would do in the caches of a loop state. *)
Definition scan_lookup (nb : bool) (s : Scan) (tag : DataTag) : option CacheEntry :=
  if nb then s_name_cache s !! GetName tag else s_id_cache s !! GetId tag.

(** The tag that the constructor of [DataTag] from a string literal builds. *)
Definition tag_of (s : string) : DataTag :=
  mkDataTag (tag_id (bytes_of_string s)) (bytes_of_string s).

(** An operation of the encoder that only appends to the buffer (bytes
    written earlier stay as they are) and keeps the writer's mode. *)
Definition Appends (f : Wr.Writer -> Wr.Writer) : Prop :=
  forall w, exists body,
    Wr.m_buffer (f w) = Wr.m_buffer w ++ body
    /\ Wr.m_name_based (f w) = Wr.m_name_based w
    /\ m_root_object (f w) = m_root_object w.

(** An operation of the encoder that appends bytes which depend on the
    writer's mode only, and changes nothing else. *)
Definition Writes (f : Wr.Writer -> Wr.Writer) (bytes : bool -> list byte) : Prop :=
  forall w, f w = set_buffer w (Wr.m_buffer w ++ bytes (Wr.m_name_based w)).

(** A primitive value with its type: the integers by value, the
    floating-point numbers by bit pattern. *)
Inductive PrimValue :=
| VInt8 (v : Z) | VInt16 (v : Z) | VInt32 (v : Z) | VInt64 (v : Z)
| VUInt8 (v : Z) | VUInt16 (v : Z) | VUInt32 (v : Z) | VUInt64 (v : Z)
| VBoolean (b : bool)
| VFloat16 (bits : Z) | VFloat32 (bits : Z) | VFloat64 (bits : Z).

(** The values of each C++ type: the full range, minimum and maximum
    included; every bit pattern of a float. *)
Definition in_range (pv : PrimValue) : Prop :=
  match pv with
  | VInt8 v => - 2 ^ 7 <= v < 2 ^ 7
  | VInt16 v => - 2 ^ 15 <= v < 2 ^ 15
  | VInt32 v => - 2 ^ 31 <= v < 2 ^ 31
  | VInt64 v => - 2 ^ 63 <= v < 2 ^ 63
  | VUInt8 v => 0 <= v < 2 ^ 8
  | VUInt16 v => 0 <= v < 2 ^ 16
  | VUInt32 v => 0 <= v < 2 ^ 32
  | VUInt64 v => 0 <= v < 2 ^ 64
  | VBoolean _ => True
  | VFloat16 bits => 0 <= bits < 2 ^ 16
  | VFloat32 bits => 0 <= bits < 2 ^ 32
  | VFloat64 bits => 0 <= bits < 2 ^ 64
  end.

(** The field operation that writes a value: [FieldT(tag, V)]. *)
Definition field_of (tag : DataTag) (pv : PrimValue) : Field :=
  match pv with
  | VInt8 v => FInt8 tag v | VInt16 v => FInt16 tag v
  | VInt32 v => FInt32 tag v | VInt64 v => FInt64 tag v
  | VUInt8 v => FUInt8 tag v | VUInt16 v => FUInt16 tag v
  | VUInt32 v => FUInt32 tag v | VUInt64 v => FUInt64 tag v
  | VBoolean b => FBoolean tag b
  | VFloat16 bits => FFloat16 tag bits | VFloat32 bits => FFloat32 tag bits
  | VFloat64 bits => FFloat64 tag bits
  end.

(** The read operation of the same type: [ReadT(tag)]. *)
Definition read_as (native : endian) (pv : PrimValue) (tag : DataTag) (st : St)
    : option PrimValue :=
  match pv with
  | VInt8 _ => option_map VInt8 (fst (ReadInt8 native tag st))
  | VInt16 _ => option_map VInt16 (fst (ReadInt16 native tag st))
  | VInt32 _ => option_map VInt32 (fst (ReadInt32 native tag st))
  | VInt64 _ => option_map VInt64 (fst (ReadInt64 native tag st))
  | VUInt8 _ => option_map VUInt8 (fst (ReadUInt8 native tag st))
  | VUInt16 _ => option_map VUInt16 (fst (ReadUInt16 native tag st))
  | VUInt32 _ => option_map VUInt32 (fst (ReadUInt32 native tag st))
  | VUInt64 _ => option_map VUInt64 (fst (ReadUInt64 native tag st))
  | VBoolean _ => option_map VBoolean (fst (ReadBoolean native tag st))
  | VFloat16 _ => option_map VFloat16 (fst (ReadFloat16 native tag st))
  | VFloat32 _ => option_map VFloat32 (fst (ReadFloat32 native tag st))
  | VFloat64 _ => option_map VFloat64 (fst (ReadFloat64 native tag st))
  end.

(** A value with the bytes of a floating-point number reversed, and every
    other value as it is: [FieldFloatN] does not swap, so this is the value
    whose little-endian bytes a big-endian host puts on the wire. *)
Definition float_swapped (pv : PrimValue) : PrimValue :=
  match pv with
  | VFloat16 bits => VFloat16 (byteswap 2 bits)
  | VFloat32 bits => VFloat32 (byteswap 4 bits)
  | VFloat64 bits => VFloat64 (byteswap 8 bits)
  | _ => pv
  end.

(** A tag as the encoder can put it on the wire: a name of at most 255
    bytes and a 16-bit id. *)
Definition wire_tag (tag : DataTag) : Prop :=
  zlen (name tag) <= 255 /\ 0 <= id tag < 2 ^ 16.

(** The bytes of a tag in a field header, in name mode and in id mode. *)
Definition tag_bytes (nb : bool) (tag : DataTag) : list byte :=
  if nb then byte.of_Z (wrap8 (zlen (name tag))) :: name tag
  else le_split 2 (id tag).

(** The size of the inline value that [read_entry] reads for a type. *)
Definition inline_size (ty : DataType) : option nat :=
  if (ty =? Boolean) || (ty =? UInt8) || (ty =? Int8) then Some 1%nat
  else if (ty =? Float16) || (ty =? UInt16) || (ty =? Int16) then Some 2%nat
  else if (ty =? Float32) || (ty =? UInt32) || (ty =? Int32) then Some 4%nat
  else if (ty =? Float64) || (ty =? UInt64) || (ty =? Int64) then Some 8%nat
  else None.

(** The bytes of a field with an inline value of [n] bytes, and a document
    (a root object) around a field sequence. *)
Definition field_bytes (nb : bool) (tag : DataTag) (ty : DataType) (n : nat) (bits : Z)
    : list byte :=
  le_split 1 ty ++ tag_bytes nb tag ++ le_split n bits.

Definition document (body : list byte) : list byte :=
  le_split 4 (wrap32 (zlen body)) ++ body.

(** A field operation whose bytes do not depend on the host: every
    operation but the three scalar floating-point ones, a fixed array being
    one of 1-, 2-, 4- or 8-byte elements that fits a 32-bit size. *)
Fixpoint host_free (f : Field) : bool :=
  match f with
  | FFloat16 _ _ | FFloat32 _ _ | FFloat64 _ _ => false
  | FArray n _ _ data =>
      ((n =? 1) || (n =? 2) || (n =? 4) || (n =? 8))%nat
      && (Z.of_nat (length data) * Z.of_nat n <? 2 ^ 32)
  | FObject _ body => forallb host_free body
  | FObjectArray _ elements => forallb (forallb host_free) elements
  | _ => true
  end.

(** The bytes of one element of a string array (a 16-bit length) and of a
    binary or object array (a 32-bit length) on the wire. *)
Definition element_bytes (es : nat) (e : list byte) : list byte :=
  le_split es (zlen e) ++ e.

Definition array_payload (es : nat) (elements : list (list byte)) : list byte :=
  concat (map (element_bytes es) elements).

(** The number of bytes that the payload of a register of type [t] takes
    at [p], prefix included, as a little-endian host reads it. *)
Definition payload_size (mem : list byte) (t : DataType) (p : Z) : Z :=
  if IsArrayType t then 4 + le_combine (load mem p 4)
  else if IsVectorType t then wrap32 (VectorTypeDimension t * DataTypeSize (BaseDataType t))
  else if t =? UUID then 16
  else if t =? String then 2 + le_combine (load mem p 2)
  else 4 + le_combine (load mem p 4).

(** A register on the wire: the type byte, the tag and the payload (for
    the types that are not stored inline, the length prefix included). *)
Record Register := mkRegister {
  r_tag : DataTag;
  r_type : DataType;
  r_payload : list byte
}.

Definition register_bytes (nb : bool) (r : Register) : list byte :=
  le_split 1 (r_type r) ++ tag_bytes nb (r_tag r) ++ r_payload r.

Definition registers_bytes (nb : bool) (rs : list Register) : list byte :=
  concat (map (register_bytes nb) rs).

(** A payload that starts with a little-endian prefix of [k] bytes which
    counts the bytes after it. *)
Definition prefixed (k : nat) (payload : list byte) : bool :=
  (Z.of_nat k <=? zlen payload)
  && (le_combine (firstn k payload) =? zlen payload - Z.of_nat k).

(** The payload has the size that its type asks for. *)
Definition payload_fits (ty : DataType) (payload : list byte) : bool :=
  if IsArrayType ty then prefixed 4 payload
  else if IsVectorType ty then
    zlen payload =? wrap32 (VectorTypeDimension ty * DataTypeSize (BaseDataType ty))
  else if negb (IsPrimitiveType ty) then false
  else
    match inline_size ty with
    | Some n => zlen payload =? Z.of_nat n
    | None =>
        if ty =? UUID then zlen payload =? 16
        else if ty =? String then prefixed 2 payload
        else if (ty =? Object) || (ty =? Binary) then prefixed 4 payload
        else false
    end.

(** A register that the validation loop accepts: a valid type code, a tag
    that fits the header of the mode, a payload of the right size. *)
Definition well_formed (nb : bool) (r : Register) : bool :=
  (0 <=? r_type r) && (r_type r <? 2 ^ 8)
  && IsValidDataType (r_type r)
  && payload_fits (r_type r) (r_payload r)
  && (if nb then zlen (name (r_tag r)) <=? 255
      else (0 <=? id (r_tag r)) && (id (r_tag r) <? 2 ^ 16)).

(** Two tags have the same key in the mode of the reader. *)
Definition same_key (nb : bool) (a b : DataTag) : bool :=
  if nb then bool_decide (name a = name b) else id a =? id b.

(** The entry of the index for a register whose payload lies at [p]. *)
Definition entry_at (r : Register) (p : Z) : CacheEntry :=
  mkCacheEntry (r_type r)
    match inline_size (r_type r) with
    | Some n => v_int n (le_combine (r_payload r))
    | None => v_ptr p
    end.

(** The entry of the first register with the key of [tag], in a sequence
    of registers that starts at [p]. *)
Fixpoint lookup_registers (nb : bool) (tag : DataTag) (rs : list Register) (p : Z)
    : option CacheEntry :=
  match rs with
  | [] => None
  | r :: rs' =>
      if same_key nb (r_tag r) tag
      then Some (entry_at r (p + 1 + zlen (tag_bytes nb (r_tag r))))
      else lookup_registers nb tag rs' (p + zlen (register_bytes nb r))
  end.

(** *** The layout of fields as docs/FORMAT.md words it

    "[Type Byte] [Tag] [Field Data]": a fixed-size primitive stores its
    value directly after the header; a string is "[Length: u16] [UTF-8
    Data]", a blob "[Size: u32] [Raw Data]", an array "[Size: u32]
    [Element1] ... [ElementN]" with the total byte size of all elements,
    each string of a string array prefixed with its length (16-bit), each
    blob of a binary array with its size (32-bit); an object is "[Size: u32]
    [Field1] ... [FieldN]".  All multi-byte values are little-endian. *)

Definition field_tag (f : Field) : DataTag :=
  match f with
  | FInt8 t _ | FInt16 t _ | FInt32 t _ | FInt64 t _
  | FUInt8 t _ | FUInt16 t _ | FUInt32 t _ | FUInt64 t _
  | FBoolean t _ | FFloat16 t _ | FFloat32 t _ | FFloat64 t _
  | FString t _ | FBinary t _ | FArray _ t _ _ | FObject t _
  | FStringArray t _ | FBinaryArray t _ | FObjectArray t _ => t
  end.

Definition field_type (f : Field) : DataType :=
  match f with
  | FInt8 _ _ => Int8 | FInt16 _ _ => Int16 | FInt32 _ _ => Int32 | FInt64 _ _ => Int64
  | FUInt8 _ _ => UInt8 | FUInt16 _ _ => UInt16 | FUInt32 _ _ => UInt32
  | FUInt64 _ _ => UInt64
  | FBoolean _ _ => Boolean
  | FFloat16 _ _ => Float16 | FFloat32 _ _ => Float32 | FFloat64 _ _ => Float64
  | FString _ _ => String
  | FBinary _ _ => Binary
  | FArray _ _ array_type _ => array_type
  | FObject _ _ => Object
  | FStringArray _ _ => StringArray
  | FBinaryArray _ _ => BinaryArray
  | FObjectArray _ _ => ObjectArray
  end.

(** "[Size: u32]" followed by the bytes it counts. *)
Definition sized (payload : list byte) : list byte :=
  le_split 4 (zlen payload) ++ payload.

(** The field data of a field. *)
Fixpoint field_payload (nb : bool) (f : Field) {struct f} : list byte :=
  match f with
  | FInt8 _ v | FUInt8 _ v => le_split 1 v
  | FInt16 _ v | FUInt16 _ v | FFloat16 _ v => le_split 2 v
  | FInt32 _ v | FUInt32 _ v | FFloat32 _ v => le_split 4 v
  | FInt64 _ v | FUInt64 _ v | FFloat64 _ v => le_split 8 v
  | FBoolean _ v => le_split 1 (if v then 1 else 0)
  | FString _ s => element_bytes 2 s
  | FBinary _ data => sized data
  | FArray n _ _ data => sized (concat (map (le_split n) data))
  | FObject _ body =>
      sized (concat (map (fun g => le_split 1 (field_type g) ++ tag_bytes nb (field_tag g)
                                     ++ field_payload nb g) body))
  | FStringArray _ elements => sized (array_payload 2 elements)
  | FBinaryArray _ elements => sized (array_payload 4 elements)
  | FObjectArray _ elements =>
      sized (concat (map (fun e =>
                            sized (concat (map (fun g =>
                                                  le_split 1 (field_type g)
                                                    ++ tag_bytes nb (field_tag g)
                                                    ++ field_payload nb g) e)))
                       elements))
  end.

Definition field_register (nb : bool) (f : Field) : Register :=
  mkRegister (field_tag f) (field_type f) (field_payload nb f).

(** The fields of an object, one after the other. *)
Definition fields_bytes (nb : bool) (fs : list Field) : list byte :=
  registers_bytes nb (map (field_register nb) fs).

(** Every length of the field fits the prefix that the format gives it: a
    string 16 bits, a blob and the bytes of a fixed-size array 32 bits;
    nested fields included. *)
Fixpoint sizes_fit (f : Field) {struct f} : bool :=
  match f with
  | FString _ s => zlen s <? 2 ^ 16
  | FBinary _ data => zlen data <? 2 ^ 32
  | FArray n _ _ data => Z.of_nat (length data) * Z.of_nat n <? 2 ^ 32
  | FObject _ body => forallb sizes_fit body
  | FStringArray _ elements => forallb (fun s => zlen s <? 2 ^ 16) elements
  | FBinaryArray _ elements => forallb (fun e => zlen e <? 2 ^ 32) elements
  | FObjectArray _ elements => forallb (forallb sizes_fit) elements
  | _ => true
  end.

(** A field that the format can hold at the top of an object: its sizes
    fit their prefixes, its tag fits the header of the mode, its field data
    fits a 32-bit size, and the type given to a fixed-size array is a type
    byte of an array. *)
Definition field_fits (nb : bool) (f : Field) : bool :=
  sizes_fit f
  && (if nb then zlen (name (field_tag f)) <=? 255
      else (0 <=? id (field_tag f)) && (id (field_tag f) <? 2 ^ 16))
  && (zlen (field_payload nb f) <? 2 ^ 32 + 4)
  && match f with
     | FArray _ _ array_type _ =>
         (0 <=? array_type) && (array_type <? 2 ^ 8) && IsArrayType array_type
     | _ => true
     end.

(** The first field of a sequence that has the key of [tag]. *)
Definition first_field (nb : bool) (tag : DataTag) (fs : list Field) : option Field :=
  List.find (fun f => same_key nb (field_tag f) tag) fs.

(** An entry of the index is inside the region from [lo] to [hi]: an
    inline value belongs to a type that is stored inline and needs no
    memory, a pointer entry has its whole payload in the region. *)
Definition entry_in_bounds (mem : list byte) (lo hi : Z) (en : CacheEntry) : Prop :=
  match value en with
  | v_int _ _ => inline_size (type en) <> None
  | v_ptr p => lo <= p /\ p + payload_size mem (type en) p <= hi
  end.



(* ===================================================================== *)
(** * Properties *)
(* ===================================================================== *)

(** ** Bytes and byte order *)

Lemma zlen_app (a b : list byte) : zlen (a ++ b) = zlen a + zlen b.
Proof. unfold zlen. rewrite length_app. lia. Qed.

Lemma zlen_nonneg (a : list byte) : 0 <= zlen a.
Proof. unfold zlen. lia. Qed.

Lemma length_to_native e n v : length (to_native e n v) = n.
Proof. destruct e; simpl; rewrite ?length_rev; apply length_le_split. Qed.

Lemma of_native_to_native e n v :
  of_native e (to_native e n v) = v mod 2 ^ (Z.of_nat n * 8).
Proof.
  destruct e; simpl; rewrite ?rev_involutive; apply le_combine_split.
Qed.

Lemma le_split_byteswap n v : le_split n (byteswap n v) = rev (le_split n v).
Proof.
  unfold byteswap.
  rewrite <- (length_le_split n v) at 1.
  rewrite <- (length_rev (le_split n v)).
  apply split_le_combine.
Qed.

(** Whatever the host, an integer written after [AdjustEndianess] lies in
    the buffer in little-endian order. *)
Lemma to_native_AdjustEndianess e n v :
  (n = 1 \/ n = 2 \/ n = 4 \/ n = 8)%nat ->
  to_native e n (AdjustEndianess e n v) = le_split n v.
Proof.
  intros Hn. destruct e; unfold AdjustEndianess, TBF_ENDIANESS.
  - rewrite decide_False by (intros H; apply H; reflexivity). reflexivity.
  - rewrite decide_True by discriminate.
    destruct Hn as [-> | [-> | [-> | ->]]]; unfold to_native.
    + reflexivity.
    + rewrite le_split_byteswap. apply rev_involutive.
    + rewrite le_split_byteswap. apply rev_involutive.
    + rewrite le_split_byteswap. apply rev_involutive.
Qed.

Lemma AdjustEndianess_little n v : AdjustEndianess little n v = v.
Proof.
  unfold AdjustEndianess, TBF_ENDIANESS.
  rewrite decide_False by (intros H; apply H; reflexivity). reflexivity.
Qed.

Lemma AdjustArrayEndianess_little n c bs : AdjustArrayEndianess little n c bs = bs.
Proof.
  unfold AdjustArrayEndianess, TBF_ENDIANESS.
  rewrite decide_False by (intros H; apply H; reflexivity). reflexivity.
Qed.

Lemma le_combine_le_split_small n v :
  0 <= v < 2 ^ (Z.of_nat n * 8) -> le_combine (le_split n v) = v.
Proof. intros H. rewrite le_combine_split. apply Z.mod_small. exact H. Qed.

(** ** The tag hash *)

Lemma mapped_char_spec c : mapped_char (byte.unsigned c) = spec_mapped c.
Proof. destruct c; vm_compute; reflexivity. Qed.

Lemma mapped_char_to_upper c :
  mapped_char (byte.unsigned (to_upper c)) = mapped_char (byte.unsigned c).
Proof. destruct c; vm_compute; reflexivity. Qed.

Lemma TagNameHash_loop_spec str :
  forall hash,
    TagNameHash_loop hash str
    = fold_left (fun hash c => (Z.lxor hash (spec_mapped c) * 16777619) mod 2 ^ 32)
        str hash.
Proof.
  induction str as [| c rest IH]; intros hash; simpl.
  - reflexivity.
  - rewrite IH, mapped_char_spec. reflexivity.
Qed.

Lemma TagNameHash_loop_to_upper str :
  forall hash, TagNameHash_loop hash (map to_upper str) = TagNameHash_loop hash str.
Proof.
  induction str as [| c rest IH]; intros hash; simpl.
  - reflexivity.
  - rewrite mapped_char_to_upper. apply IH.
Qed.

Lemma wrap16_land z : wrap16 z = Z.land z 0xFFFF.
Proof. unfold wrap16. change 0xFFFF with (Z.ones 16). rewrite Z.land_ones by lia. reflexivity. Qed.

(** C9. The tag id follows the FNV-1a schedule of the format document
    exactly: the hash computed by [TagNameHash] equals the schedule that
    starts from 2166136261 and, for each character, XORs in the mapped value
    (a-z and A-Z to 1..26, 0-9 to 27..36, _ to 37, anything else to 0) and
    multiplies by 16777619 modulo 2^32; the id stored by the literal
    constructor is the low 16 bits of it; hence the id does not depend on
    the case of the letters, and the ids of "foo" and "FOO" coincide. *)
Theorem tag_id_follows_fnv1a_schedule :
  (forall str, TagNameHash str = spec_fnv1a str)
  /\ (forall str, tag_id str = spec_tag_id str)
  /\ (forall str,
        match DataTag_of_literal str with
        | Some t => id t = spec_tag_id str /\ name t = str
        | None => Validate (mkDataTag (spec_tag_id str) str) = false
        end)
  /\ (forall str, tag_id (map to_upper str) = tag_id str)
  /\ tag_id (bytes_of_string "foo") = tag_id (bytes_of_string "FOO").
Proof.
  assert (H1 : forall str, TagNameHash str = spec_fnv1a str).
  { intros str. unfold TagNameHash, spec_fnv1a. apply TagNameHash_loop_spec. }
  assert (H2 : forall str, tag_id str = spec_tag_id str).
  { intros str. unfold tag_id, spec_tag_id. rewrite wrap16_land, H1. reflexivity. }
  split; [exact H1 |]. split; [exact H2 |]. split; [| split].
  - intros str. unfold DataTag_of_literal. fold (tag_id str). rewrite H2.
    destruct (Validate _) eqn:E; simpl; auto.
  - intros str. unfold tag_id, TagNameHash. rewrite TagNameHash_loop_to_upper. reflexivity.
  - vm_compute. reflexivity.
Qed.

(** ** The decoder: validity and lookups *)

Section ReaderFacts.

Variable native : endian.

Lemma CreateCache_built st : m_cache_built (snd (CreateCache native st)) = true.
Proof.
  destruct st as [mem r]. unfold CreateCache.
  destruct (m_cache_built r) eqn:E; [exact E |].
  destruct (m_buffer r); [destruct (m_size r =? 0) |]; reflexivity.
Qed.

Lemma CreateCache_of_built st :
  m_cache_built (snd st) = true -> CreateCache native st = st.
Proof. destruct st as [mem r]. simpl. intros H. unfold CreateCache. rewrite H. reflexivity. Qed.

Lemma CreateCache_idempotent st :
  CreateCache native (CreateCache native st) = CreateCache native st.
Proof. apply CreateCache_of_built, CreateCache_built. Qed.

Lemma IsValid_eq st :
  IsValid native st
  = (m_is_valid (snd (CreateCache native st)), CreateCache native st).
Proof.
  unfold IsValid. destruct (m_cache_built (snd st)) eqn:E; simpl.
  - rewrite CreateCache_of_built by exact E. reflexivity.
  - reflexivity.
Qed.

Lemma FindTag_eq tag st :
  FindTag native tag st
  = (if m_is_valid (snd (CreateCache native st))
     then lookup_cache (snd (CreateCache native st)) tag
     else None,
     CreateCache native st).
Proof.
  unfold FindTag. rewrite IsValid_eq. unfold lookup_cache.
  destruct (m_is_valid _); simpl; [destruct (m_name_based _) |]; reflexivity.
Qed.

Lemma FindTag_CreateCache tag st :
  FindTag native tag (CreateCache native st) = FindTag native tag st.
Proof. rewrite !FindTag_eq, CreateCache_idempotent. reflexivity. Qed.

(** Every read leaves the reader in the state in which building the cache
    leaves it. *)
Lemma run_read_state q tag st :
  snd (run_read native q tag st) = CreateCache native st.
Proof.
  destruct q; unfold run_read, returned, ReadPrimitive, ReadString, ReadBinary,
    ReadUUID, ReadObject, ReadArray, ReadPointerData, ReadStringArray,
    ReadBinaryArray, ReadObjectArray, ReadVector;
    rewrite (FindTag_eq tag st); cbv zeta;
    repeat match goal with
      | |- context [match ?x with Some _ => _ | None => _ end] => destruct x
      | |- context [if ?x then _ else _] => destruct x
      | |- context [let '(_, _) := ?x in _] => destruct x
      end; reflexivity.
Qed.

(** A read returns a value only if the lookup found the tag. *)
Lemma run_read_not_found q tag st :
  fst (FindTag native tag st) = None -> fst (run_read native q tag st) = false.
Proof.
  intros H.
  destruct q; unfold run_read, returned, ReadPrimitive, ReadString, ReadBinary,
    ReadUUID, ReadObject, ReadArray, ReadPointerData, ReadStringArray,
    ReadBinaryArray, ReadObjectArray, ReadVector;
    destruct (FindTag native tag st) as [e st']; simpl in H; subst e; reflexivity.
Qed.

Lemma run_read_CreateCache q tag st :
  run_read native q tag (CreateCache native st) = run_read native q tag st.
Proof.
  destruct q; unfold run_read, returned, ReadPrimitive, ReadString, ReadBinary,
    ReadUUID, ReadObject, ReadArray, ReadPointerData, ReadStringArray,
    ReadBinaryArray, ReadObjectArray, ReadVector;
    rewrite FindTag_CreateCache; reflexivity.
Qed.

Lemma invalid_no_read st :
  fst (IsValid native st) = false ->
  forall q tag, fst (run_read native q tag st) = false.
Proof.
  intros H q tag. apply run_read_not_found.
  rewrite FindTag_eq. rewrite IsValid_eq in H. simpl in *. rewrite H. reflexivity.
Qed.

(** A read whose expected type differs from the entry's type returns no
    value, whatever the memory holds. *)
Lemma run_read_mismatch q tag mem r entry :
  m_cache_built r = true ->
  m_is_valid r = true ->
  lookup_cache r tag = Some entry ->
  type entry <> expected q ->
  run_read native q tag (mem, r) = (false, (mem, r)).
Proof.
  intros Hb Hv Hl Ht.
  assert (Hneq : (type entry =? expected q) = false) by (apply Z.eqb_neq; exact Ht).
  assert (HF : FindTag native tag (mem, r) = (Some entry, (mem, r))).
  { rewrite FindTag_eq, CreateCache_of_built by exact Hb. simpl. rewrite Hv, Hl. reflexivity. }
  destruct q; simpl in Hneq;
    unfold run_read, returned, ReadPrimitive, ReadString, ReadStringInternal, ReadBinary,
      ReadUUID, ReadObject, ReadObjectInternal, ReadArray, ReadPointerData, ReadStringArray,
      ReadBinaryArray, ReadObjectArray, ReadVector;
    rewrite HF; cbv zeta; simpl; rewrite Hneq; reflexivity.
Qed.

End ReaderFacts.

(** ** The validation loop *)

Section ScanFacts.

Variable native : endian.

Lemma of_native_nonneg bs : 0 <= of_native native bs.
Proof.
  destruct native; simpl.
  - apply le_combine_bound.
  - apply le_combine_bound.
Qed.

Lemma AdjustEndianess_nonneg n v : 0 <= v -> 0 <= AdjustEndianess native n v.
Proof.
  intros Hv. unfold AdjustEndianess. destruct (decide _); [| exact Hv].
  destruct n as [| [| [| [| [| [| [| [| [| n]]]]]]]]]; try exact Hv;
    unfold byteswap; apply le_combine_bound.
Qed.

Lemma ReadData_Some n sw mem p e v p' :
  ReadData native n sw mem p e = Some (v, p') ->
  p' = p + Z.of_nat n /\ 0 <= v.
Proof.
  unfold ReadData. destruct (CanAccessBuffer _ _ _); [| discriminate].
  intros [= <- <-]. split; [reflexivity |].
  destruct sw; [apply AdjustEndianess_nonneg |]; apply of_native_nonneg.
Qed.

Lemma wrap32_nonneg z : 0 <= wrap32 z.
Proof. unfold wrap32. apply Z.mod_pos_bound. lia. Qed.

(** The shape shared by the branches of [read_entry] that read a length
    or a value with [ReadData]. *)
Lemma read_via_ReadData n mem p e (k : Z -> Z -> CacheEntry * Z) mem' en p' :
  (forall v q, 0 <= v -> p <= q -> p <= snd (k v q)) ->
  match ReadData native n true mem p e with
  | None => (mem, None)
  | Some (v, q) => (mem, Some (k v q))
  end = (mem', Some (en, p')) ->
  p <= p'.
Proof.
  intros Hk H.
  destruct (ReadData native n true mem p e) as [[v q] |] eqn:E; [| discriminate].
  apply ReadData_Some in E. destruct E as [-> Hv].
  specialize (Hk v (p + Z.of_nat n) Hv ltac:(lia)).
  inversion H as [[Hm He]]. rewrite He in Hk. simpl in Hk. exact Hk.
Qed.

(** Reading an entry never moves the cursor backwards. *)
Lemma read_entry_advance mem t p e mem' en p' :
  read_entry native mem t p e = (mem', Some (en, p')) -> p <= p'.
Proof.
  unfold read_entry. intros H.
  destruct (IsArrayType t).
  { destruct (ReadData native 4 true mem p e) as [[v q] |] eqn:E; [| discriminate].
    apply ReadData_Some in E. destruct E as [-> Hv].
    inversion H; subst. lia. }
  destruct (IsVectorType t).
  { pose proof (wrap32_nonneg (VectorTypeDimension t * DataTypeSize (BaseDataType t))).
    destruct (negb (CanAccessBuffer _ _ _)); [discriminate |].
    inversion H; subst. lia. }
  destruct (IsPrimitiveType t); [| discriminate].
  destruct ((t =? Boolean) || (t =? UInt8) || (t =? Int8)).
  { eapply (read_via_ReadData 1 mem p e (fun v q => (mkCacheEntry t (v_int 1 v), q)));
      [intros; simpl; lia | exact H]. }
  destruct ((t =? Float16) || (t =? UInt16) || (t =? Int16)).
  { eapply (read_via_ReadData 2 mem p e (fun v q => (mkCacheEntry t (v_int 2 v), q)));
      [intros; simpl; lia | exact H]. }
  destruct ((t =? Float32) || (t =? UInt32) || (t =? Int32)).
  { eapply (read_via_ReadData 4 mem p e (fun v q => (mkCacheEntry t (v_int 4 v), q)));
      [intros; simpl; lia | exact H]. }
  destruct ((t =? Float64) || (t =? UInt64) || (t =? Int64)).
  { eapply (read_via_ReadData 8 mem p e (fun v q => (mkCacheEntry t (v_int 8 v), q)));
      [intros; simpl; lia | exact H]. }
  destruct (t =? UUID).
  { destruct (negb (CanAccessBuffer _ _ _)); [discriminate |].
    inversion H; subst. lia. }
  destruct (t =? String).
  { eapply (read_via_ReadData 2 mem p e (fun v q => (mkCacheEntry t (v_ptr p), q + v)));
      [intros; simpl; lia | exact H]. }
  destruct ((t =? Object) || (t =? Binary)); [| discriminate].
  eapply (read_via_ReadData 4 mem p e (fun v q => (mkCacheEntry t (v_ptr p), q + v)));
      [intros; simpl; lia | exact H].
Qed.

(** An iteration that does not break moves the cursor forward and keeps
    it inside the region. *)
Lemma read_register_advance nb mem p e mem' tp ts en p' :
  read_register native nb mem p e = (mem', Some (tp, ts, en, p')) ->
  p < p' <= e.
Proof.
  unfold read_register. intros H.
  destruct (ReadData native 1 true mem p e) as [[t p1] |] eqn:E1; [| discriminate].
  apply ReadData_Some in E1. destruct E1 as [-> _].
  destruct (negb (IsValidDataType t)); [discriminate |].
  destruct nb.
  - destruct (ReadData native 1 true mem (p + Z.of_nat 1) e) as [[tsz p2] |] eqn:E2;
      [| discriminate].
    apply ReadData_Some in E2. destruct E2 as [-> Hts].
    destruct (negb (CanAccessBuffer _ _ _)); [discriminate |].
    destruct (read_entry native mem t _ e) as [mem2 [[en2 p3] |]] eqn:E3; [| discriminate].
    apply read_entry_advance in E3.
    destruct (e <? p3) eqn:E4; [discriminate |].
    apply Z.ltb_ge in E4. inversion H; subst. lia.
  - destruct (negb (CanAccessBuffer _ _ _)); [discriminate |].
    destruct (read_entry native mem t _ e) as [mem2 [[en2 p3] |]] eqn:E3; [| discriminate].
    apply read_entry_advance in E3.
    destruct (e <? p3) eqn:E4; [discriminate |].
    apply Z.ltb_ge in E4. inversion H; subst. lia.
Qed.

Lemma add_tag_read_ptr nb mem tp ts en s p :
  s_read_ptr (add_tag native nb mem tp ts en s p) = p.
Proof. unfold add_tag. destruct nb; reflexivity. Qed.

(** The fuel given by [CreateCache] is enough: with at least as much fuel
    as the region has bytes left, the result does not depend on the fuel. *)
Lemma scan_fuel nb buff_end f1 :
  forall f2 s,
    buff_end - s_read_ptr s <= Z.of_nat f1 ->
    buff_end - s_read_ptr s <= Z.of_nat f2 ->
    scan native f1 nb buff_end s = scan native f2 nb buff_end s.
Proof.
  induction f1 as [| f1 IH]; intros f2 s H1 H2.
  - destruct f2; simpl; destruct (s_read_ptr s <? buff_end) eqn:E; try reflexivity;
      apply Z.ltb_lt in E; lia.
  - destruct f2; simpl; destruct (s_read_ptr s <? buff_end) eqn:E; try reflexivity.
    + apply Z.ltb_lt in E. lia.
    + destruct (read_register native nb (s_mem s) (s_read_ptr s) buff_end)
        as [mem [[[[tp ts] en] p] |]] eqn:R; [| reflexivity].
      apply read_register_advance in R.
      apply IH; rewrite add_tag_read_ptr; lia.
Qed.

Lemma scan_step nb buff_end fuel s mem tp ts en p :
  buff_end - s_read_ptr s <= Z.of_nat fuel ->
  s_read_ptr s < buff_end ->
  read_register native nb (s_mem s) (s_read_ptr s) buff_end = (mem, Some (tp, ts, en, p)) ->
  scan native fuel nb buff_end s
  = scan native fuel nb buff_end (add_tag native nb mem tp ts en s p).
Proof.
  intros Hf Hlt R.
  destruct fuel as [| fuel]; [lia |].
  simpl scan at 1.
  apply Z.ltb_lt in Hlt. rewrite Hlt, R. apply Z.ltb_lt in Hlt.
  apply read_register_advance in R.
  apply scan_fuel; rewrite add_tag_read_ptr; lia.
Qed.

Lemma scan_reaches nb buff_end fuel s s' :
  Reaches native nb buff_end s s' ->
  buff_end - s_read_ptr s <= Z.of_nat fuel ->
  scan native fuel nb buff_end s = scan native fuel nb buff_end s'
  /\ buff_end - s_read_ptr s' <= Z.of_nat fuel.
Proof.
  induction 1 as [s | s mem tp ts en p s' Hlt R _ IH]; intros Hf.
  - split; [reflexivity | exact Hf].
  - rewrite (scan_step _ _ _ _ _ _ _ _ _ Hf Hlt R).
    apply IH. rewrite add_tag_read_ptr.
    apply read_register_advance in R. lia.
Qed.

(** A failing iteration ends the loop with [errors = true]. *)
Lemma scan_fails nb buff_end fuel s :
  ScanFails native nb buff_end s ->
  buff_end - s_read_ptr s <= Z.of_nat fuel ->
  s_errors (scan native fuel nb buff_end s) = true.
Proof.
  intros (s' & mem & Hr & Hlt & R) Hf.
  destruct (scan_reaches _ _ _ _ _ Hr Hf) as [-> Hf'].
  destruct fuel as [| fuel]; [lia |].
  simpl. apply Z.ltb_lt in Hlt. rewrite Hlt, R. reflexivity.
Qed.

(** [emplace] keeps an entry that is already there. *)
Lemma emplace_keeps `{Countable K} {V} (k k' : K) (v v' : V) (m : gmap K V) :
  m !! k = Some v -> emplace k' v' m !! k = Some v.
Proof.
  intros Hk. unfold emplace. destruct (m !! k') eqn:E; [exact Hk |].
  rewrite lookup_insert_ne; [exact Hk |]. intros ->. congruence.
Qed.

Lemma emplace_fresh `{Countable K} {V} (k : K) (v : V) (m : gmap K V) :
  m !! k = None -> emplace k v m !! k = Some v.
Proof. intros Hk. unfold emplace. rewrite Hk. apply lookup_insert_eq. Qed.

Lemma scan_keeps_name buff_end fuel :
  forall s k v,
    s_name_cache s !! k = Some v ->
    s_name_cache (scan native fuel true buff_end s) !! k = Some v.
Proof.
  induction fuel as [| fuel IH]; intros s k v Hk; simpl;
    destruct (s_read_ptr s <? buff_end); try exact Hk.
  destruct (read_register native true (s_mem s) (s_read_ptr s) buff_end)
    as [mem [[[[tp ts] en] p] |]]; [| exact Hk].
  apply IH. simpl. apply emplace_keeps. exact Hk.
Qed.

Lemma scan_keeps_id buff_end fuel :
  forall s k v,
    s_id_cache s !! k = Some v ->
    s_id_cache (scan native fuel false buff_end s) !! k = Some v.
Proof.
  induction fuel as [| fuel IH]; intros s k v Hk; simpl;
    destruct (s_read_ptr s <? buff_end); try exact Hk.
  destruct (read_register native false (s_mem s) (s_read_ptr s) buff_end)
    as [mem [[[[tp ts] en] p] |]]; [| exact Hk].
  apply IH. simpl. apply emplace_keeps. exact Hk.
Qed.

End ScanFacts.

(** ** Claims about the decoder's index *)

(** The empty document: a writer finished without any field operation
    holds the four zero bytes of the root size slot. *)
Lemma encode_empty native nb : encode native nb [] = repeat Byte.x00 4.
Proof.
  unfold encode, write_fields, Writer_Finish, Writer_new, ObjectWriter_Finish,
    WriteDataSizeField, Data. simpl.
  rewrite to_native_AdjustEndianess by auto. reflexivity.
Qed.

Lemma zero_size_invalid native mem r :
  m_cache_built r = false ->
  m_size r = 0 ->
  fst (IsValid native (mem, r)) = false
  /\ forall q tag, fst (run_read native q tag (mem, r)) = false.
Proof.
  intros Hb Hs.
  assert (Hi : fst (IsValid native (mem, r)) = false).
  { rewrite IsValid_eq. unfold CreateCache. rewrite Hb, Hs. simpl.
    destruct (m_buffer r); reflexivity. }
  split; [exact Hi |]. apply invalid_no_read. exact Hi.
Qed.

(** C10. An object whose size prefix is 0 is reported invalid by the
    reader, whether it is opened as a root (the constructor that takes the
    span's size) or as a nested object or array element (the constructor on
    a pointer alone): [IsValid()] is false and no read returns a value.  By
    [encode_empty] this covers the buffer of a writer on which no field
    operation was performed before [Finish()]. *)
Theorem zero_size_object_is_invalid native mem buffer size nb :
  of_native native (load mem buffer 4) = 0 ->
  (fst (IsValid native (mem, ObjectReader_new native mem (Some buffer) nb)) = false
   /\ forall q tag,
        fst (run_read native q tag (mem, ObjectReader_new native mem (Some buffer) nb)) = false)
  /\ (fst (IsValid native (mem, ObjectReader_new_sized native mem (Some buffer) size nb)) = false
      /\ forall q tag,
           fst (run_read native q tag
                  (mem, ObjectReader_new_sized native mem (Some buffer) size nb)) = false).
Proof.
  intros H0. split.
  - apply zero_size_invalid; [reflexivity | exact H0].
  - apply zero_size_invalid.
    + unfold ObjectReader_new_sized. destruct (_ <? _); reflexivity.
    + unfold ObjectReader_new_sized. destruct (_ <? _); exact H0.
Qed.

Lemma zero_size_object_is_invalid_witness :
  of_native little (load (encode little true []) 0 4) = 0
  /\ fst (IsValid little (Reader_new little (encode little true []) true)) = false
  /\ fst (run_read little RString (tag_of "name")
            (Reader_new little (encode little true []) true)) = false.
Proof.
  split; [reflexivity |].
  pose proof (zero_size_object_is_invalid little (encode little true []) 0
                (zlen (encode little true [])) true ltac:(reflexivity)) as [_ [H1 H2]].
  split; [exact H1 | apply H2].
Defined.

(** An empty nested object, as the encoder writes it, reads as invalid. *)
Lemma empty_nested_object_reads_invalid :
  let mem := encode little true [FObject (tag_of "settings") []] in
  let st := Reader_new little mem true in
  fst (IsValid little st) = true
  /\ match fst (ReadObject little (tag_of "settings") st) with
     | Some o =>
         m_size o = 0
         /\ fst (IsValid little (mem, o)) = false
         /\ fst (ContainsTag little (tag_of "theme") (mem, o)) = false
     | None => False
     end.
Proof. vm_compute. repeat split. Qed.

(** An invalid type byte makes the iteration fail. *)
Lemma read_register_invalid_type native nb mem read_ptr buff_end t p :
  ReadData native 1 true mem read_ptr buff_end = Some (t, p) ->
  IsValidDataType t = false ->
  read_register native nb mem read_ptr buff_end = (mem, None).
Proof. intros H1 H2. unfold read_register. rewrite H1, H2. reflexivity. Qed.

(** A type byte that cannot be read inside the region makes it fail. *)
Lemma read_register_out_of_bounds native nb mem read_ptr buff_end :
  CanAccessBuffer read_ptr buff_end 1 = false ->
  read_register native nb mem read_ptr buff_end = (mem, None).
Proof.
  intros H. unfold read_register, ReadData.
  change (Z.of_nat 1) with 1. rewrite H. reflexivity.
Qed.

(** A payload that passes the end of the region makes it fail. *)
Lemma read_register_past_end native mem read_ptr buff_end t p tag_size :
  ReadData native 1 true mem read_ptr buff_end = Some (t, p) ->
  IsValidDataType t = true ->
  ReadData native 1 true mem p buff_end = Some (tag_size, p + 1) ->
  CanAccessBuffer (p + 1) buff_end tag_size = true ->
  forall mem' entry q,
    read_entry native mem t (p + 1 + tag_size) buff_end = (mem', Some (entry, q)) ->
    buff_end < q ->
    read_register native true mem read_ptr buff_end = (mem', None).
Proof.
  intros H1 H2 H3 H4 mem' entry q H5 H6. unfold read_register.
  rewrite H1, H2, H3, H4. simpl. rewrite H5.
  apply Z.ltb_lt in H6. rewrite H6. reflexivity.
Qed.

Lemma InvalidTypeAt_ScanFails native nb buff_end s :
  InvalidTypeAt native nb buff_end s -> ScanFails native nb buff_end s.
Proof.
intros (s' & t & p & Hr & Hlt & Ht & Hi).
exists s', (s_mem s'). split; [exact Hr |]. split; [exact Hlt |].
apply (read_register_invalid_type native nb _ _ _ t p Ht Hi).
Qed.

(** C7. If the validation pass over an object's field region breaks on a
    register it cannot read (an out-of-bounds read, a payload that passes the
    region end), or meets a type byte for which [IsValidDataType] is false,
    or ends with the cursor not exactly at the region end, then [IsValid()]
    is false and no read of any tag returns a value, neither the first nor
    any later one, whichever fields had been put in the index before the
    error. *)
Theorem failed_validation_blocks_all_reads native mem r buffer :
  m_cache_built r = false ->
  Rd.m_buffer r = Some buffer ->
  0 < m_size r ->
  ScanFails native (Rd.m_name_based r) (buffer + m_size r) (scan_start mem r buffer)
  \/ InvalidTypeAt native (Rd.m_name_based r) (buffer + m_size r) (scan_start mem r buffer)
  \/ s_read_ptr (scan_result native mem r buffer) <> buffer + m_size r ->
  fst (IsValid native (mem, r)) = false
  /\ (forall q tag, fst (run_read native q tag (mem, r)) = false)
  /\ (forall q tag q' tag',
        fst (run_read native q' tag' (snd (run_read native q tag (mem, r)))) = false).
Proof.
intros Hb Hp Hs Hfail.
assert (Hi : fst (IsValid native (mem, r)) = false).
{ rewrite IsValid_eq. unfold CreateCache. rewrite Hb, Hp.
  replace (m_size r =? 0) with false by (symmetry; apply Z.eqb_neq; lia).
  simpl. fold (scan_start mem r buffer). fold (scan_result native mem r buffer).
  assert (Hfuel : buffer + m_size r - s_read_ptr (scan_start mem r buffer)
                  <= Z.of_nat (Z.to_nat (m_size r))) by (simpl; lia).
  destruct Hfail as [Hf | [Ht | Hc]].
  - unfold scan_result. rewrite scan_fails; [reflexivity | exact Hf | exact Hfuel].
  - unfold scan_result.
    rewrite scan_fails; [reflexivity | apply InvalidTypeAt_ScanFails; exact Ht | exact Hfuel].
  - apply Z.eqb_neq in Hc. rewrite Hc. apply andb_false_r. }
split; [exact Hi |]. split.
- apply invalid_no_read. exact Hi.
- intros q tag q' tag'. rewrite run_read_state, run_read_CreateCache.
  apply invalid_no_read. exact Hi.
Qed.

Lemma failed_validation_blocks_all_reads_witness :
  let mem := map byte.of_Z [3; 0; 0; 0; 0; 1; 97] in
  let r := ObjectReader_new little mem (Some 0) true in
  let bad := map byte.of_Z [1; 0; 0; 0; 0x50] in
  let r' := ObjectReader_new little bad (Some 0) true in
  (ScanFails little true (4 + m_size r) (scan_start mem r 4)
   /\ fst (IsValid little (mem, r)) = false
   /\ fst (run_read little (RPrimitive 1 Int8) (tag_of "a") (mem, r)) = false)
  /\ (InvalidTypeAt little true (4 + m_size r') (scan_start bad r' 4)
      /\ fst (IsValid little (bad, r')) = false).
Proof.
intros mem r bad r'.
assert (Hf : ScanFails little true (4 + m_size r) (scan_start mem r 4)).
{ exists (scan_start mem r 4), mem.
  split; [apply reaches_refl |]. split; vm_compute; reflexivity. }
assert (Ht : InvalidTypeAt little true (4 + m_size r') (scan_start bad r' 4)).
{ exists (scan_start bad r' 4), 0x50, 5.
  split; [apply reaches_refl |]. repeat split; vm_compute; reflexivity. }
split.
- split; [exact Hf |].
  pose proof (failed_validation_blocks_all_reads little mem r 4
                ltac:(reflexivity) ltac:(reflexivity) ltac:(reflexivity)
                (or_introl Hf)) as [H1 [H2 _]].
  split; [exact H1 | apply H2].
- split; [exact Ht |].
  apply (failed_validation_blocks_all_reads little bad r' 4
           ltac:(reflexivity) ltac:(reflexivity) ltac:(reflexivity)
           (or_intror (or_introl Ht))).
Defined.

(** C8. For a tag that is in the index of a valid object with stored type
    U, a read that expects a type T different from U returns no value
    (false, nullopt or a null pointer); it does so whatever the borrowed
    memory holds, so no payload byte of the field takes part; and it leaves
    the reader as any lookup does, so every other read returns what it would
    have returned without it. *)
Theorem type_mismatch_returns_none native st tag entry q :
  fst (FindTag native tag st) = Some entry ->
  type entry <> expected q ->
  fst (run_read native q tag st) = false
  /\ (forall mem',
        run_read native q tag (mem', snd (CreateCache native st))
        = (false, (mem', snd (CreateCache native st))))
  /\ (forall q' tag',
        run_read native q' tag' (snd (run_read native q tag st))
        = run_read native q' tag' st).
Proof.
  intros Hf Ht. rewrite FindTag_eq in Hf. simpl in Hf.
  destruct (CreateCache native st) as [mem1 r1] eqn:Ec.
  assert (Hb : m_cache_built r1 = true).
  { pose proof (CreateCache_built native st) as H. rewrite Ec in H. exact H. }
  simpl in Hf. destruct (m_is_valid r1) eqn:Hv; [| discriminate].
  assert (Hm : forall mem', run_read native q tag (mem', r1) = (false, (mem', r1))).
  { intros mem'. apply run_read_mismatch with (entry := entry); assumption. }
  split; [| split].
  - rewrite <- run_read_CreateCache, Ec, Hm. reflexivity.
  - exact Hm.
  - intros q' tag'. rewrite run_read_state. apply run_read_CreateCache.
Qed.

Lemma type_mismatch_returns_none_witness :
  let st := Reader_new little (encode little true [FInt8 (tag_of "int8") (-100)]) true in
  fst (FindTag little (tag_of "int8") st) = Some (mkCacheEntry Int8 (v_int 1 156))
  /\ fst (run_read little (RPrimitive 2 Int16) (tag_of "int8") st) = false.
Proof.
  intros st.
  assert (Hf : fst (FindTag little (tag_of "int8") st) = Some (mkCacheEntry Int8 (v_int 1 156)))
    by (vm_compute; reflexivity).
  split; [exact Hf |].
  apply (type_mismatch_returns_none little st (tag_of "int8") _ (RPrimitive 2 Int16) Hf).
  vm_compute. discriminate.
Defined.

(** C2, as stated, fails: with the same name written twice, the read
    observes the first-written value, not the last. *)
Lemma duplicate_tag_read_is_not_last_written :
  let st :=
    Reader_new little
      (encode little true [FInt8 (tag_of "a") 1; FInt8 (tag_of "a") 2]) true in
  fst (ReadInt8 little (tag_of "a") st) = Some 1
  /\ fst (ReadInt8 little (tag_of "a") st) <> Some 2.
Proof. split; [vm_compute; reflexivity | vm_compute; discriminate]. Qed.

(** C2, amended. The index keeps the first occurrence of a tag: if the
    validation loop reaches a register whose tag is not yet in the index,
    and the object is valid, every lookup of that tag finds the entry of
    that register, whatever registers with the same tag follow (an
    insertion under a key that is present leaves the index as it is). *)
Theorem first_occurrence_wins native mem r buffer s mem1 tag_ptr tag_size entry p tag :
  m_cache_built r = false ->
  Rd.m_buffer r = Some buffer ->
  0 < m_size r ->
  Reaches native (Rd.m_name_based r) (buffer + m_size r) (scan_start mem r buffer) s ->
  s_read_ptr s < buffer + m_size r ->
  read_register native (Rd.m_name_based r) (s_mem s) (s_read_ptr s) (buffer + m_size r)
    = (mem1, Some (tag_ptr, tag_size, entry, p)) ->
  tag_matches native (Rd.m_name_based r) mem1 tag_ptr tag_size tag ->
  scan_lookup (Rd.m_name_based r) s tag = None ->
  fst (IsValid native (mem, r)) = true ->
  fst (FindTag native tag (mem, r)) = Some entry.
Proof.
  intros Hb Hp Hs Hr Hlt R Hm Hn Hv.
  rewrite FindTag_eq. rewrite IsValid_eq in Hv. simpl in Hv |- *. rewrite Hv.
  unfold CreateCache. rewrite Hb, Hp.
  replace (m_size r =? 0) with false by (symmetry; apply Z.eqb_neq; lia).
  simpl. fold (scan_start mem r buffer).
  assert (Hfuel : buffer + m_size r - s_read_ptr (scan_start mem r buffer)
                  <= Z.of_nat (Z.to_nat (m_size r))) by (simpl; lia).
  destruct (scan_reaches native _ _ _ _ _ Hr Hfuel) as [-> Hfuel'].
  rewrite (scan_step native _ _ _ _ _ _ _ _ _ Hfuel' Hlt R).
  unfold lookup_cache, scan_lookup, tag_matches, add_tag in *. simpl.
  destruct (Rd.m_name_based r); simpl.
  - apply scan_keeps_name. simpl. rewrite <- Hm. apply emplace_fresh. exact Hn.
  - apply scan_keeps_id. simpl. rewrite <- Hm. apply emplace_fresh. exact Hn.
Qed.

Lemma first_occurrence_wins_witness :
  let mem := encode little true [FInt8 (tag_of "a") 1; FInt8 (tag_of "a") 2] in
  let r := snd (Reader_new little mem true) in
  fst (IsValid little (mem, r)) = true
  /\ fst (FindTag little (tag_of "a") (mem, r)) = Some (mkCacheEntry Int8 (v_int 1 1)).
Proof.
  intros mem r.
  assert (Hv : fst (IsValid little (mem, r)) = true) by (vm_compute; reflexivity).
  split; [exact Hv |].
  apply (first_occurrence_wins little mem r 4 (scan_start mem r 4) mem 6 1
           (mkCacheEntry Int8 (v_int 1 1)) 8 (tag_of "a")).
  - reflexivity.
  - reflexivity.
  - vm_compute; reflexivity.
  - apply reaches_refl.
  - vm_compute; reflexivity.
  - vm_compute; reflexivity.
  - vm_compute; reflexivity.
  - vm_compute; reflexivity.
  - exact Hv.
Defined.

(** ** The encoder: appending and back-patching *)

Section WriterFacts.

Variable native : endian.

Lemma Appends_id : Appends (fun w => w).
Proof. intros w. exists []. rewrite app_nil_r. auto. Qed.

Lemma Appends_compose f g : Appends f -> Appends g -> Appends (fun w => g (f w)).
Proof.
intros Hf Hg w.
destruct (Hf w) as (b1 & E1 & N1 & R1).
destruct (Hg (f w)) as (b2 & E2 & N2 & R2).
exists (b1 ++ b2). rewrite E2, E1, N2, N1, R2, R1, app_assoc. auto.
Qed.

Lemma Appends_fold {A} (f : A -> Wr.Writer -> Wr.Writer) (l : list A) :
  Forall (fun a => Appends (f a)) l ->
  Appends (fun w => fold_left (fun w a => f a w) l w).
Proof.
induction 1 as [| a l Ha _ IH]; simpl.
- apply Appends_id.
- apply (Appends_compose (f a) _ Ha IH).
Qed.

Lemma set_buffer_appends (g : Wr.Writer -> list byte) :
  Appends (fun w => set_buffer w (Wr.m_buffer w ++ g w)).
Proof. intros w. exists (g w). auto. Qed.

Lemma WriteData_appends n sw v : Appends (WriteData native n sw v).
Proof.
intros w. unfold WriteData. destruct (1 <? n)%nat; eexists; simpl; eauto.
Qed.

Lemma WriteData_raw_appends data size : Appends (fun w => snd (WriteData_raw data size w)).
Proof. intros w. eexists; simpl; eauto. Qed.

Lemma WriteFieldHeader_appends tag ty : Appends (WriteFieldHeader native tag ty).
Proof.
intros w. unfold WriteFieldHeader.
destruct (WriteData_appends 1 true ty w) as (b1 & E1 & N1 & R1).
rewrite N1. destruct (Wr.m_name_based w).
- destruct (WriteData_appends 1 true (wrap8 (zlen (GetName tag))) (WriteData native 1 true ty w))
    as (b2 & E2 & N2 & R2).
  exists (b1 ++ b2 ++ GetName tag). unfold set_buffer.
  cbn [Wr.m_buffer Wr.m_name_based m_root_object].
  rewrite E2, E1, N2, N1, R2, R1.
  rewrite <- !app_assoc. auto.
- destruct (WriteData_appends 2 true (GetId tag) (WriteData native 1 true ty w))
    as (b2 & E2 & N2 & R2).
  exists (b1 ++ b2). rewrite E2, E1, N2, N1, R2, R1, app_assoc. auto.
Qed.

Lemma WriteString_appends str : Appends (WriteString native str).
Proof.
unfold WriteString.
apply (Appends_compose _ (fun w => snd (WriteData_raw str (wrap16 (zlen str)) w))).
- apply WriteData_appends.
- apply WriteData_raw_appends.
Qed.

Lemma WriteBinary_appends data size : Appends (WriteBinary native data size).
Proof.
unfold WriteBinary.
apply (Appends_compose _ (fun w => snd (WriteData_raw data size w))).
- apply WriteData_appends.
- apply WriteData_raw_appends.
Qed.

Lemma firstn_zlen_app (a b : list byte) : firstn (Z.to_nat (zlen a)) (a ++ b) = a.
Proof.
unfold zlen. rewrite Nat2Z.id.
rewrite firstn_app, Nat.sub_diag, firstn_all. simpl. apply app_nil_r.
Qed.

Lemma skipn_zlen_app (a b : list byte) : skipn (Z.to_nat (zlen a)) (a ++ b) = b.
Proof.
unfold zlen. rewrite Nat2Z.id.
rewrite skipn_app, Nat.sub_diag, skipn_all. reflexivity.
Qed.

(** Writing four bytes over a slot of four bytes that lies behind [a]. *)
Lemma memcpy_at_slot (a slot src rest : list byte) :
  length slot = length src ->
  memcpy_at (zlen a) src (a ++ slot ++ rest) = a ++ src ++ rest.
Proof.
intros Hl. unfold memcpy_at.
rewrite firstn_zlen_app. f_equal. f_equal.
unfold zlen. rewrite Nat2Z.id.
rewrite skipn_app.
replace (length a + length src - length a)%nat with (length src) by lia.
rewrite skipn_all2 by lia. simpl.
rewrite <- Hl. rewrite skipn_app, Nat.sub_diag, skipn_all. reflexivity.
Qed.

(** The back-patch: a slot reserved at the end of the buffer, a body that
    only appends, and [WriteDataSizeField] on the slot leave the buffer as
    the old bytes, the little-endian length of what the body appended, and
    what the body appended. *)
Lemma backpatch body w :
  Appends body ->
  exists payload,
    Wr.m_buffer
      (WriteDataSizeField native (fst (ReserveDataSizeField w))
         (body (snd (ReserveDataSizeField w))))
    = Wr.m_buffer w ++ le_split 4 (wrap32 (zlen payload)) ++ payload
    /\ Wr.m_name_based
         (WriteDataSizeField native (fst (ReserveDataSizeField w))
            (body (snd (ReserveDataSizeField w))))
       = Wr.m_name_based w
    /\ m_root_object
         (WriteDataSizeField native (fst (ReserveDataSizeField w))
            (body (snd (ReserveDataSizeField w))))
       = m_root_object w.
Proof.
intros Hb.
destruct (Hb (snd (ReserveDataSizeField w))) as (payload & E & N & R).
assert (Hsz : forall a p : list byte,
           zlen (a ++ repeat Byte.x00 sizeof_FieldSize ++ p) - zlen a
             - Z.of_nat sizeof_FieldSize = zlen p).
{ intros a p. rewrite !zlen_app. unfold zlen at 2. rewrite repeat_length. lia. }
exists payload. unfold WriteDataSizeField, ReserveDataSizeField in *.
cbn [fst snd Wr.m_buffer Wr.m_name_based m_root_object set_buffer] in *.
rewrite E, N, R. split; [| auto].
rewrite to_native_AdjustEndianess by auto.
rewrite <- app_assoc, Hsz.
apply memcpy_at_slot. rewrite length_le_split. reflexivity.
Qed.

Lemma in_object_appends body : Appends body -> Appends (in_object native body).
Proof.
intros Hb w. destruct (backpatch body w Hb) as (payload & E & N & R).
unfold in_object, ObjectWriter_new, ObjectWriter_Finish.
destruct (ReserveDataSizeField w) as [pos w1] eqn:Er. simpl in *.
eexists. rewrite E, N, R. auto.
Qed.

Lemma in_array_appends body : Appends body -> Appends (in_array native body).
Proof.
intros Hb w. destruct (backpatch body w Hb) as (payload & E & N & R).
unfold in_array, ArrayWriter_new, ArrayWriter_Finish.
destruct (ReserveDataSizeField w) as [pos w1] eqn:Er. simpl in *.
eexists. rewrite E, N, R. auto.
Qed.

(** The bytes that [FieldArray] leaves in the buffer. *)
Lemma FieldArray_buffer n tag ty data len w :
  Wr.m_buffer (FieldArray native n tag ty data len w)
  = Wr.m_buffer (WriteFieldHeader native tag ty w)
      ++ le_split 4 (wrap32 (len * Z.of_nat n))
      ++ AdjustArrayEndianess native n len
           (firstn (Z.to_nat (wrap32 (len * Z.of_nat n))) (array_bytes native n data))
  /\ Wr.m_name_based (FieldArray native n tag ty data len w)
     = Wr.m_name_based (WriteFieldHeader native tag ty w)
  /\ m_root_object (FieldArray native n tag ty data len w)
     = m_root_object (WriteFieldHeader native tag ty w).
Proof.
unfold FieldArray, WriteData_raw, WriteData.
change (1 <? 4)%nat with true. cbv iota.
rewrite to_native_AdjustEndianess by auto.
cbn [fst snd Wr.m_buffer Wr.m_name_based m_root_object set_buffer].
rewrite firstn_zlen_app, skipn_zlen_app, <- app_assoc. auto.
Qed.

Lemma FieldArray_appends n tag ty data len : Appends (FieldArray native n tag ty data len).
Proof.
intros w.
destruct (FieldArray_buffer n tag ty data len w) as (E & N & R).
destruct (WriteFieldHeader_appends tag ty w) as (b1 & E1 & N1 & R1).
eexists. rewrite E, N, R, E1, N1, R1, <- app_assoc. auto.
Qed.

(** An induction principle for caller programs that reaches the fields
    nested in objects and in the elements of object arrays. *)
Lemma Field_nested_ind (P : Field -> Prop) :
  (forall f, match f with
             | FObject _ body => Forall P body
             | FObjectArray _ elements => Forall (Forall P) elements
             | _ => True
             end -> P f) ->
  forall f, P f.
Proof.
intros H. fix IH 1. intros f. apply H. destruct f; try exact I.
- match goal with |- Forall P ?l => induction l as [| x xs IHxs] end;
    constructor; [apply IH | exact IHxs].
- match goal with |- Forall (Forall P) ?l => induction l as [| e es IHes] end;
    constructor; [| exact IHes].
  induction e as [| x xs IHxs]; constructor; [apply IH | exact IHxs].
Qed.

Lemma write_field_appends f : Appends (write_field native f).
Proof.
induction f as [f Hf] using Field_nested_ind.
destruct f; simpl;
  try (apply (Appends_compose (WriteFieldHeader native tag _) _
                (WriteFieldHeader_appends tag _)); apply WriteData_appends).
- apply (Appends_compose (WriteFieldHeader native tag _) _ (WriteFieldHeader_appends tag _)).
  apply WriteString_appends.
- apply (Appends_compose (WriteFieldHeader native tag _) _ (WriteFieldHeader_appends tag _)).
  apply WriteBinary_appends.
- apply FieldArray_appends.
- apply (Appends_compose (WriteFieldHeader native tag _) _ (WriteFieldHeader_appends tag _)).
  apply in_object_appends. apply Appends_fold. exact Hf.
- apply (Appends_compose (WriteFieldHeader native tag _) _ (WriteFieldHeader_appends tag _)).
  apply in_array_appends. apply (Appends_fold (fun s => StringArrayWriter_AddElement native s)).
  apply Forall_forall. intros s _. apply WriteString_appends.
- apply (Appends_compose (WriteFieldHeader native tag _) _ (WriteFieldHeader_appends tag _)).
  apply in_array_appends.
  apply (Appends_fold (fun e => BinaryArrayWriter_AddElement native e (wrap32 (zlen e)))).
  apply Forall_forall. intros s _. apply WriteBinary_appends.
- apply (Appends_compose (WriteFieldHeader native tag _) _ (WriteFieldHeader_appends tag _)).
  apply in_array_appends.
  apply (Appends_fold
           (fun e => in_object native (fun w => fold_left (fun w f => write_field native f w) e w))).
  eapply Forall_impl; [exact Hf |]. intros e He. simpl in He.
  apply in_object_appends. apply Appends_fold. exact He.
Qed.

Lemma write_fields_appends fs : Appends (write_fields native fs).
Proof.
unfold write_fields. apply Appends_fold.
apply Forall_forall. intros f _. apply write_field_appends.
Qed.

Lemma le_combine_size_prefix (payload : list byte) :
  zlen payload < 2 ^ 32 ->
  le_combine (le_split 4 (wrap32 (zlen payload))) = zlen payload.
Proof.
intros H. pose proof (zlen_nonneg payload).
unfold wrap32. rewrite Z.mod_small by lia.
apply le_combine_le_split_small. simpl. lia.
Qed.

End WriterFacts.

(** ** Claims about the encoder's scopes *)

Lemma length_swap_elements e size count :
  forall bs : list byte, (length bs <= length (swap_elements e size count bs))%nat.
Proof.
induction count as [| c IH]; intros bs; simpl.
- lia.
- rewrite length_app. unfold swap_element. rewrite length_to_native.
  specialize (IH (skipn size bs)). rewrite length_skipn in IH. lia.
Qed.

Lemma length_AdjustArrayEndianess e size count (bs : list byte) :
  length (AdjustArrayEndianess e size count bs) = length bs.
Proof.
unfold AdjustArrayEndianess. destruct (decide _); [| reflexivity].
pose proof (length_swap_elements e size (Z.to_nat count) bs) as H.
destruct size as [| [| [| [| [| [| [| [| [| size]]]]]]]]]; try reflexivity;
  rewrite length_firstn; lia.
Qed.

Lemma length_array_bytes e n data :
  length (array_bytes e n data) = (n * length data)%nat.
Proof.
unfold array_bytes. induction data as [| x xs IH]; simpl.
- lia.
- rewrite length_app, length_to_native, IH. lia.
Qed.

Lemma write_scope_backpatch native sc w :
  fst (write_scope native sc w) = zlen (Wr.m_buffer w)
  /\ exists payload,
       Wr.m_buffer (snd (write_scope native sc w))
       = Wr.m_buffer w ++ le_split 4 (wrap32 (zlen payload)) ++ payload.
Proof.
assert (Hbp : forall body, Appends body ->
          exists payload,
            Wr.m_buffer
              (WriteDataSizeField native (zlen (Wr.m_buffer w))
                 (body (snd (ReserveDataSizeField w))))
            = Wr.m_buffer w ++ le_split 4 (wrap32 (zlen payload)) ++ payload).
{ intros body Hb. destruct (backpatch native body w Hb) as (payload & E & _).
  exists payload. exact E. }
unfold ReserveDataSizeField in Hbp. cbn [snd] in Hbp.
destruct sc; unfold write_scope, ObjectWriter_new, ObjectWriter_Finish,
  ArrayWriter_new, ArrayWriter_Finish, ReserveDataSizeField, IsFinished;
  cbn [fst snd m_obj_size_pos m_array_size_pos m_is_finished
         m_array_is_finished negb];
  (split; [reflexivity |]).
- apply (Hbp (write_fields native body)). apply write_fields_appends.
- apply (Hbp (fun w => fold_left (fun w s => StringArrayWriter_AddElement native s w) _ w)).
  apply (Appends_fold (fun s => StringArrayWriter_AddElement native s)).
  apply Forall_forall. intros s _. apply WriteString_appends.
- apply (Hbp (fun w => fold_left
                         (fun w e => BinaryArrayWriter_AddElement native e (wrap32 (zlen e)) w)
                         _ w)).
  apply (Appends_fold (fun e => BinaryArrayWriter_AddElement native e (wrap32 (zlen e)))).
  apply Forall_forall. intros s _. apply WriteBinary_appends.
- apply (Hbp (fun w => fold_left (fun w e => in_object native (write_fields native e) w) _ w)).
  apply (Appends_fold (fun e => in_object native (write_fields native e))).
  apply Forall_forall. intros e _. apply in_object_appends, write_fields_appends.
Qed.

(** C6. After [Finish] on a scope (an object, or a string, binary or
    object array, with every inner scope opened and finished inside it), the
    buffer consists of the bytes that were there before the scope, a prefix
    of 4 bytes, and the scope's payload, and the prefix is the little-endian
    encoding of exactly the byte length of the payload (the prefix itself not
    counted).  For a fixed-element array of [count] elements of [n] bytes the
    written size equals [count * n], and so does the length of the payload.
    The lengths are those a 4-byte prefix can hold (below 2^32). *)
Theorem size_prefix_is_exact_length native sc w n tag ty data :
  zlen (Wr.m_buffer (snd (write_scope native sc w))) - fst (write_scope native sc w) - 4
    < 2 ^ 32 ->
  (n = 1 \/ n = 2 \/ n = 4 \/ n = 8)%nat ->
  Z.of_nat (length data) * Z.of_nat n < 2 ^ 32 ->
  (fst (write_scope native sc w) = zlen (Wr.m_buffer w)
   /\ exists prefix payload,
        Wr.m_buffer (snd (write_scope native sc w)) = Wr.m_buffer w ++ prefix ++ payload
        /\ length prefix = 4%nat
        /\ le_combine prefix = zlen payload)
  /\ (exists prefix payload,
        Wr.m_buffer (write_field native (FArray n tag ty data) w)
        = Wr.m_buffer (WriteFieldHeader native tag ty w) ++ prefix ++ payload
        /\ length prefix = 4%nat
        /\ le_combine prefix = Z.of_nat (length data) * Z.of_nat n
        /\ zlen payload = Z.of_nat (length data) * Z.of_nat n).
Proof.
intros Hfit Hn Hcount. split.
- destruct (write_scope_backpatch native sc w) as (Hslot & payload & E).
  split; [exact Hslot |].
  exists (le_split 4 (wrap32 (zlen payload))), payload.
  split; [exact E |]. split; [apply length_le_split |].
  apply le_combine_size_prefix.
  rewrite E, Hslot, !zlen_app in Hfit.
  unfold zlen at 2 in Hfit. rewrite length_le_split in Hfit. lia.
- assert (Hw : wrap32 (Z.of_nat (length data)) = Z.of_nat (length data)).
  { unfold wrap32. apply Z.mod_small. nia. }
  assert (Hs : wrap32 (Z.of_nat (length data) * Z.of_nat n)
               = Z.of_nat (length data) * Z.of_nat n).
  { unfold wrap32. apply Z.mod_small. lia. }
  simpl write_field. rewrite Hw.
  destruct (FieldArray_buffer native n tag ty data (Z.of_nat (length data)) w) as (E & _).
  rewrite Hs in E.
  eexists _, _. split; [exact E |]. split; [apply length_le_split |]. split.
  + apply le_combine_le_split_small. simpl. lia.
  + unfold zlen. rewrite length_AdjustArrayEndianess, length_firstn, length_array_bytes. lia.
Qed.

Lemma size_prefix_is_exact_length_witness :
  let w := Writer_new true in
  let sc := ObjectScope [FInt32 (tag_of "id") 12345; FString (tag_of "name") (bytes_of_string "John")] in
  exists prefix payload,
    Wr.m_buffer (snd (write_scope little sc w)) = Wr.m_buffer w ++ prefix ++ payload
    /\ length prefix = 4%nat
    /\ le_combine prefix = zlen payload.
Proof.
intros w sc.
apply (size_prefix_is_exact_length little sc w 4 (tag_of "int_array")
         (Z.lor Array Int32) [10; 20; 30; 40; 50]).
- vm_compute. reflexivity.
- right. right. left. reflexivity.
- vm_compute. reflexivity.
Defined.

(** [Finish] is idempotent: a second call changes neither the handle nor
    the buffer. *)
Lemma ObjectWriter_Finish_idempotent native o w :
  ObjectWriter_Finish native (fst (ObjectWriter_Finish native o w))
    (snd (ObjectWriter_Finish native o w))
  = ObjectWriter_Finish native o w.
Proof.
unfold ObjectWriter_Finish, IsFinished. destruct (m_is_finished o) eqn:E; simpl.
- rewrite E. reflexivity.
- reflexivity.
Qed.

Lemma ArrayWriter_Finish_idempotent native a w :
  ArrayWriter_Finish native (fst (ArrayWriter_Finish native a w))
    (snd (ArrayWriter_Finish native a w))
  = ArrayWriter_Finish native a w.
Proof.
unfold ArrayWriter_Finish. destruct (m_array_is_finished a) eqn:E; simpl.
- rewrite E. reflexivity.
- reflexivity.
Qed.

(** The destructor of an array scope back-patches its slot when [Finish]
    was not called. *)
Lemma ArrayWriter_destroy_backpatches native body w :
  Appends body ->
  exists payload,
    Wr.m_buffer
      (ArrayWriter_destroy native (fst (ArrayWriter_new w)) (body (snd (ArrayWriter_new w))))
    = Wr.m_buffer w ++ le_split 4 (wrap32 (zlen payload)) ++ payload.
Proof.
intros Hb. destruct (backpatch native body w Hb) as (payload & E & _).
exists payload. unfold ArrayWriter_destroy, ArrayWriter_new, ArrayWriter_Finish.
destruct (ReserveDataSizeField w) as [pos w1]. exact E.
Qed.

(** C3, the failing case. A nested object scope that is opened with
    [FieldObject], filled with one field, and destroyed without [Finish]:
    the 4 bytes of its size slot are still the reserved zeros, although 8
    bytes of fields follow the slot; after the root is finished, the nested
    object reads as invalid and its field shows up as a field of the root. *)
Lemma object_scope_destroyed_without_finish_keeps_zero_slot :
  let w0 := Writer_new true in
  let ow1 := FieldObject little (tag_of "user") w0 in
  let w2 := FieldInt32 little (tag_of "id") 12345 (snd ow1) in
  let w3 := ObjectWriter_destroy (fst ow1) w2 in
  let slot := m_obj_size_pos (fst ow1) in
  load (Wr.m_buffer w3) slot 4 = repeat Byte.x00 4
  /\ zlen (Wr.m_buffer w3) - slot - 4 = 8
  /\ (let mem := Data (Writer_Finish little w3) in
      let st := Reader_new little mem true in
      fst (IsValid little st) = true
      /\ fst (ReadInt32 little (tag_of "id") st) = Some 12345
      /\ match fst (ReadObject little (tag_of "user") st) with
         | Some user =>
             fst (IsValid little (mem, user)) = false
             /\ fst (ReadInt32 little (tag_of "id") (mem, user)) = None
         | None => False
         end).
Proof. vm_compute. repeat split. Qed.

(** C4, the failing case. A string array written with one [AddElement("a")]
    and [Finish]: its payload is the 3 bytes [01 00 61], prefix width plus
    prefix value ending exactly at the payload end, yet the reader built
    over it is invalid, reports 0 elements and iterates over nothing. *)
Lemma string_array_with_short_last_element_is_invalid :
  let mem := encode little true [FStringArray (tag_of "s") [bytes_of_string "a"]] in
  let st := Reader_new little mem true in
  load mem 11 3 = map byte.of_Z [1; 0; 97]
  /\ fst (IsValid little st) = true
  /\ match fst (ReadStringArray little (tag_of "s") st) with
     | Some a =>
         ArrayReader_IsValid a = false
         /\ ArrayReader_Size a = 0
         /\ elements little 2 mem a = []
     | None => False
     end.
Proof. vm_compute. repeat split. Qed.

(** The same path with elements of two bytes or more at the end works, as
    in the repository's test. *)
Lemma string_array_of_the_test_reads_back :
  let written := map bytes_of_string ["first"%string; "second"%string; "third"%string] in
  let mem := encode little true [FStringArray (tag_of "string_array") written] in
  let st := Reader_new little mem true in
  match fst (ReadStringArray little (tag_of "string_array") st) with
  | Some a =>
      ArrayReader_IsValid a = true
      /\ ArrayReader_Size a = 3
      /\ elements little 2 mem a = written
  | None => False
  end.
Proof. vm_compute. repeat split. Qed.

(** The integer writes ([swap_endianess = true]) leave the same bytes on
    both hosts, the little-endian ones. *)
Lemma WriteData_swapped_host_independent native n v w :
  (n = 1 \/ n = 2 \/ n = 4 \/ n = 8)%nat ->
  Wr.m_buffer (WriteData native n true v w) = Wr.m_buffer w ++ le_split n v.
Proof.
intros Hn. unfold WriteData.
destruct Hn as [-> | Hn].
- reflexivity.
- replace (1 <? n)%nat with true
    by (destruct Hn as [-> | [-> | ->]]; reflexivity).
  cbn [Wr.m_buffer set_buffer]. rewrite to_native_AdjustEndianess by auto. reflexivity.
Qed.

(** The floating-point writes ([swap_endianess = false]) leave the bytes
    in the order of the host: reversed on a big-endian one. *)
Lemma WriteData_unswapped_big_endian n v w :
  (n = 2 \/ n = 4 \/ n = 8)%nat ->
  Wr.m_buffer (WriteData big n false v w) = Wr.m_buffer w ++ rev (le_split n v).
Proof. intros [-> | [-> | ->]]; reflexivity. Qed.

(** C5, the failing case. The float field [1.0f] (bits 0x3F800000) written
    on a big-endian host and read on a little-endian host yields the bits
    0x0000803F, whereas the buffer written on a little-endian host yields
    0x3F800000: [FieldFloat32] does not swap, the reader's [ReadData] does.
    In the other direction a big-endian reader takes the root size of the
    little-endian buffer, 7, for 0x07000000. *)
Lemma float_field_is_not_endian_independent :
  let f := [FFloat32 (tag_of "f") 0x3F800000] in
  fst (ReadFloat32 little (tag_of "f") (Reader_new little (encode big true f) true))
    = Some 0x0000803F
  /\ fst (ReadFloat32 little (tag_of "f") (Reader_new little (encode little true f) true))
     = Some 0x3F800000
  /\ encode big true f <> encode little true f
  /\ m_size (snd (Reader_new big (encode little true f) true)) = 0x07000000
  /\ m_size (snd (Reader_new little (encode little true f) true)) = 7.
Proof. vm_compute. repeat split. discriminate. Qed.

(** ** Round trip of a primitive field on a little-endian host *)

Lemma load_mid (pre x post : list byte) p n :
  p = zlen pre -> n = zlen x -> load (pre ++ x ++ post) p n = x.
Proof.
intros -> ->. unfold load. rewrite skipn_zlen_app. apply firstn_zlen_app.
Qed.

Lemma zlen_le_split n v : zlen (le_split n v) = Z.of_nat n.
Proof. unfold zlen. rewrite length_le_split. reflexivity. Qed.

Lemma CanAccessBuffer_true b e size :
  0 <= size <= e - b -> e - b < 2 ^ 64 -> CanAccessBuffer b e size = true.
Proof.
intros H1 H2. unfold CanAccessBuffer, wrap64.
rewrite Z.mod_small by lia. apply Z.leb_le. lia.
Qed.

(** Reading back, on a little-endian host, an integer that lies in memory
    in little-endian order. *)
Lemma ReadData_at k v (pre post : list byte) p e :
  p = zlen pre ->
  Z.of_nat k <= e - p ->
  e - p < 2 ^ 64 ->
  ReadData little k true (pre ++ le_split k v ++ post) p e
  = Some (v mod 2 ^ (Z.of_nat k * 8), p + Z.of_nat k).
Proof.
intros Hp Hk He. unfold ReadData.
rewrite CanAccessBuffer_true by lia.
rewrite (load_mid pre (le_split k v) post p (Z.of_nat k) Hp)
  by (symmetry; apply zlen_le_split).
rewrite AdjustEndianess_little. simpl of_native.
rewrite le_combine_split. reflexivity.
Qed.

Lemma WriteData_little n sw v w :
  (n = 1 \/ n = 2 \/ n = 4 \/ n = 8)%nat ->
  WriteData little n sw v w = set_buffer w (Wr.m_buffer w ++ le_split n v).
Proof.
intros [-> | [-> | [-> | ->]]]; unfold WriteData; simpl (_ <? _)%nat; cbv iota;
  rewrite ?AdjustEndianess_little; destruct sw; reflexivity.
Qed.

Lemma WriteFieldHeader_little tag ty w :
  WriteFieldHeader little tag ty w
  = set_buffer w (Wr.m_buffer w ++ le_split 1 ty ++ tag_bytes (Wr.m_name_based w) tag).
Proof.
unfold WriteFieldHeader. rewrite !WriteData_little by auto.
unfold set_buffer, tag_bytes. cbn [Wr.m_buffer Wr.m_name_based m_root_object].
destruct (Wr.m_name_based w); cbn [Wr.m_buffer Wr.m_name_based m_root_object];
  rewrite <- ?app_assoc; reflexivity.
Qed.

(** The document with one primitive field, as the encoder leaves it. *)
Lemma single_field_document nb tag ty n sw bits :
  (n = 1 \/ n = 2 \/ n = 4 \/ n = 8)%nat ->
  Data (Writer_Finish little
          (WriteData little n sw bits (WriteFieldHeader little tag ty (Writer_new nb))))
  = le_split 4 (wrap32 (zlen (le_split 1 ty ++ tag_bytes nb tag ++ le_split n bits)))
      ++ le_split 1 ty ++ tag_bytes nb tag ++ le_split n bits.
Proof.
intros Hn. rewrite WriteData_little by exact Hn. rewrite WriteFieldHeader_little.
unfold Writer_Finish, ObjectWriter_Finish, WriteDataSizeField, Writer_new, Data, IsFinished,
  set_buffer.
cbn [Wr.m_buffer Wr.m_name_based m_root_object m_is_finished m_obj_size_pos negb fst snd].
rewrite to_native_AdjustEndianess by auto.
rewrite <- !app_assoc.
set (body := le_split 1 ty ++ tag_bytes nb tag ++ le_split n bits).
replace (zlen (repeat Byte.x00 sizeof_FieldSize ++ body) - 0 - Z.of_nat sizeof_FieldSize)
  with (zlen body)
  by (rewrite zlen_app; unfold zlen at 2; rewrite repeat_length; lia).
apply (memcpy_at_slot [] (repeat Byte.x00 sizeof_FieldSize)
         (le_split 4 (wrap32 (zlen body))) body).
rewrite length_le_split. reflexivity.
Qed.

Lemma scan_done native fuel nb buff_end s :
  (s_read_ptr s <? buff_end) = false -> scan native fuel nb buff_end s = s.
Proof. intros H. destruct fuel; simpl; rewrite H; reflexivity. Qed.

Lemma read_entry_inline native mem ty n p e :
  IsArrayType ty = false ->
  IsVectorType ty = false ->
  IsPrimitiveType ty = true ->
  inline_size ty = Some n ->
  read_entry native mem ty p e
  = match ReadData native n true mem p e with
    | None => (mem, None)
    | Some (v, p') => (mem, Some (mkCacheEntry ty (v_int n v), p'))
    end.
Proof.
intros Ha Hv Hp Hi. unfold read_entry, inline_size in *. rewrite Ha, Hv, Hp.
destruct ((ty =? Boolean) || (ty =? UInt8) || (ty =? Int8));
  [injection Hi as <-; reflexivity |].
destruct ((ty =? Float16) || (ty =? UInt16) || (ty =? Int16));
  [injection Hi as <-; reflexivity |].
destruct ((ty =? Float32) || (ty =? UInt32) || (ty =? Int32));
  [injection Hi as <-; reflexivity |].
destruct ((ty =? Float64) || (ty =? UInt64) || (ty =? Int64));
  [injection Hi as <-; reflexivity | discriminate].
Qed.

Section SingleField.

Variables (tag : DataTag) (ty : DataType) (n : nat) (bits : Z).
Hypothesis Htag : wire_tag tag.
Hypothesis Hn : (n = 1 \/ n = 2 \/ n = 4 \/ n = 8)%nat.
Hypothesis Hty : 0 <= ty < 2 ^ 8.
Hypothesis Hvalid : IsValidDataType ty = true.
Hypothesis Harray : IsArrayType ty = false.
Hypothesis Hvector : IsVectorType ty = false.
Hypothesis Hprim : IsPrimitiveType ty = true.
Hypothesis Hinline : inline_size ty = Some n.

Local Abbreviation body nb := (field_bytes nb tag ty n bits).
Local Abbreviation mem nb := (document (field_bytes nb tag ty n bits)).
Local Abbreviation entry := (mkCacheEntry ty (v_int n (bits mod 2 ^ (Z.of_nat n * 8)))).

Lemma zlen_tag_bytes nb :
  zlen (tag_bytes nb tag) = if nb then 1 + zlen (name tag) else 2.
Proof.
unfold tag_bytes. destruct nb.
- unfold zlen. simpl length. lia.
- apply zlen_le_split.
Qed.

Lemma zlen_body nb :
  zlen (body nb) = 1 + (if nb then 1 + zlen (name tag) else 2) + Z.of_nat n.
Proof.
unfold field_bytes. rewrite !zlen_app, !zlen_le_split, zlen_tag_bytes. lia.
Qed.

Lemma body_bounds nb : 1 <= zlen (body nb) < 2 ^ 16.
Proof.
rewrite zlen_body. destruct Htag as [Hl _]. pose proof (zlen_nonneg (name tag)).
destruct nb; lia.
Qed.

Lemma read_register_single nb :
  exists tag_ptr tag_size,
    read_register little nb (mem nb) 4 (4 + zlen (body nb))
    = (mem nb, Some (tag_ptr, tag_size, entry, 4 + zlen (body nb)))
    /\ tag_matches little nb (mem nb) tag_ptr tag_size tag.
Proof.
pose proof (body_bounds nb) as Hb. pose proof (zlen_body nb) as Hz.
pose proof (zlen_nonneg (name tag)) as Hnn.
destruct Htag as [Hlen Hid].
set (S4 := le_split 4 (wrap32 (zlen (body nb)))).
assert (HS4 : zlen S4 = 4) by apply zlen_le_split.
assert (Hmod : ty mod 2 ^ (Z.of_nat 1 * 8) = ty) by (apply Z.mod_small; simpl; lia).
unfold read_register.
destruct nb.
- (* name mode *)
  remember (zlen (name tag)) as len eqn:Hlendef.
  assert (Hwl : wrap8 len = len) by (unfold wrap8; apply Z.mod_small; lia).
  assert (E1 : mem true = S4 ++ le_split 1 ty ++ (tag_bytes true tag ++ le_split n bits))
    by reflexivity.
  assert (E2 : mem true = (S4 ++ le_split 1 ty) ++ le_split 1 len ++ (name tag ++ le_split n bits)).
  { unfold document, field_bytes, tag_bytes. fold S4. rewrite <- Hlendef, Hwl.
    rewrite <- !app_assoc. reflexivity. }
  assert (E3 : mem true = (S4 ++ le_split 1 ty ++ le_split 1 len) ++ name tag ++ le_split n bits).
  { rewrite E2, <- !app_assoc. reflexivity. }
  assert (E4 : mem true = (S4 ++ le_split 1 ty ++ le_split 1 len ++ name tag)
                            ++ le_split n bits ++ []).
  { rewrite E2, <- !app_assoc, app_nil_r. reflexivity. }
  exists 6, len.
  rewrite E1 at 1. rewrite ReadData_at by lia.
  rewrite Hmod, Hvalid. cbn [negb].
  change (4 + Z.of_nat 1) with 5.
  rewrite E2 at 1. rewrite ReadData_at
    by (rewrite ?zlen_app, ?zlen_le_split, ?HS4; simpl; lia).
  replace (len mod 2 ^ (Z.of_nat 1 * 8)) with len by (symmetry; apply Z.mod_small; simpl; lia).
  change (5 + Z.of_nat 1) with 6.
  rewrite CanAccessBuffer_true by lia. cbn [negb].
  rewrite (read_entry_inline little _ ty n) by assumption.
  rewrite E4 at 1. rewrite ReadData_at
    by (rewrite ?zlen_app, ?zlen_le_split, ?HS4, <- ?Hlendef; simpl; lia).
  replace (6 + len + Z.of_nat n) with (4 + zlen (body true)) by lia.
  rewrite Z.ltb_irrefl. split; [reflexivity |].
  unfold tag_matches, GetName. rewrite E3. symmetry. apply load_mid.
  + rewrite !zlen_app, !zlen_le_split, HS4. simpl. lia.
  + exact Hlendef.
- (* id mode *)
  assert (E1 : mem false = S4 ++ le_split 1 ty ++ (tag_bytes false tag ++ le_split n bits))
    by reflexivity.
  assert (E3 : mem false = (S4 ++ le_split 1 ty) ++ le_split 2 (id tag) ++ le_split n bits).
  { unfold document, field_bytes, tag_bytes. fold S4. rewrite <- !app_assoc. reflexivity. }
  assert (E4 : mem false = (S4 ++ le_split 1 ty ++ le_split 2 (id tag)) ++ le_split n bits ++ []).
  { rewrite E3, <- !app_assoc, app_nil_r. reflexivity. }
  exists 5, 2.
  rewrite E1 at 1. rewrite ReadData_at by lia.
  rewrite Hmod, Hvalid. cbn [negb].
  change (4 + Z.of_nat 1) with 5.
  rewrite CanAccessBuffer_true by lia. cbn [negb].
  rewrite (read_entry_inline little _ ty n) by assumption.
  rewrite E4 at 1. rewrite ReadData_at
    by (rewrite ?zlen_app, ?zlen_le_split, ?HS4; simpl; lia).
  replace (5 + 2 + Z.of_nat n) with (4 + zlen (body false)) by lia.
  rewrite Z.ltb_irrefl. split; [reflexivity |].
  unfold tag_matches, GetId. rewrite E3.
  rewrite (load_mid (S4 ++ le_split 1 ty) (le_split 2 (id tag)) (le_split n bits) 5 2)
    by (rewrite ?zlen_app, ?zlen_le_split, ?HS4; simpl; lia).
  simpl of_native. rewrite le_combine_split. symmetry. apply Z.mod_small. simpl. lia.
Qed.

(** The reader over the one-field document is valid and finds the field's
    entry under the tag. *)
Lemma FindTag_single nb :
  fst (IsValid little (Reader_new little (mem nb) nb)) = true
  /\ fst (FindTag little tag (Reader_new little (mem nb) nb)) = Some entry.
Proof.
pose proof (body_bounds nb) as Hb.
destruct (read_register_single nb) as (tag_ptr & tag_size & R & M).
assert (Hw : wrap32 (zlen (body nb)) = zlen (body nb))
  by (unfold wrap32; apply Z.mod_small; lia).
assert (Hsize : of_native little (load (mem nb) 0 (Z.of_nat sizeof_FieldSize)) = zlen (body nb)).
{ unfold document. rewrite Hw.
  pose proof (load_mid [] (le_split 4 (zlen (body nb))) (body nb) 0
                (Z.of_nat sizeof_FieldSize) eq_refl
                (eq_sym (zlen_le_split 4 (zlen (body nb))))) as Hl.
  cbn [app] in Hl. rewrite Hl.
  simpl of_native. rewrite le_combine_split. apply Z.mod_small. simpl. lia. }
assert (Hr : snd (Reader_new little (mem nb) nb)
             = mkObjectReader (Some 4) (zlen (body nb)) nb false false ∅ ∅).
{ unfold Reader_new, ObjectReader_new_sized, ObjectReader_new. cbn [snd Rd.m_size].
  rewrite Hsize.
  replace (zlen (mem nb)) with (4 + zlen (body nb))
    by (unfold document; rewrite zlen_app, zlen_le_split; reflexivity).
  replace (4 + zlen (body nb) <? zlen (body nb) + Z.of_nat sizeof_FieldSize) with false
    by (symmetry; apply Z.ltb_ge; change (Z.of_nat sizeof_FieldSize) with 4; lia).
  reflexivity. }
set (r := mkObjectReader (Some 4) (zlen (body nb)) nb false false ∅ ∅) in *.
assert (Hst : Reader_new little (mem nb) nb = (mem nb, r)).
{ rewrite <- Hr. reflexivity. }
assert (Hcc : CreateCache little (mem nb, r)
              = (mem nb,
                 mkObjectReader (Some 4) (zlen (body nb)) nb true true
                   (s_id_cache (add_tag little nb (mem nb) tag_ptr tag_size entry
                                  (scan_start (mem nb) r 4) (4 + zlen (body nb))))
                   (s_name_cache (add_tag little nb (mem nb) tag_ptr tag_size entry
                                    (scan_start (mem nb) r 4) (4 + zlen (body nb)))))).
{ unfold CreateCache, r.
  cbn [Rd.m_cache_built Rd.m_buffer Rd.m_size Rd.m_name_based m_id_cache m_name_cache].
  replace (zlen (body nb) =? 0) with false by (symmetry; apply Z.eqb_neq; lia).
  destruct (Z.to_nat (zlen (body nb))) as [| fuel] eqn:Ef; [lia |].
  cbn [scan s_read_ptr s_mem].
  replace (4 <? 4 + zlen (body nb)) with true by (symmetry; apply Z.ltb_lt; lia).
  rewrite R. rewrite scan_done by (rewrite add_tag_read_ptr; apply Z.ltb_irrefl).
  unfold add_tag, scan_start.
  destruct nb; cbn [s_errors s_read_ptr s_mem s_id_cache s_name_cache negb andb
                      Rd.m_name_based m_id_cache m_name_cache];
    rewrite Z.eqb_refl; reflexivity. }
rewrite Hst, IsValid_eq, FindTag_eq, Hcc. cbn [fst snd Rd.m_is_valid].
split; [reflexivity |].
unfold lookup_cache, add_tag, tag_matches, scan_start, r in *.
destruct nb; cbn [Rd.m_name_based m_id_cache m_name_cache s_id_cache s_name_cache];
  rewrite <- M; apply emplace_fresh, lookup_empty.
Qed.

Lemma of_native_union_bytes v :
  of_native little (firstn n (union_bytes little (v_int n v))) = v mod 2 ^ (Z.of_nat n * 8).
Proof.
unfold union_bytes. simpl to_native.
rewrite <- (length_le_split n v) at 1.
rewrite firstn_app, Nat.sub_diag, firstn_all. simpl firstn. rewrite app_nil_r.
simpl of_native. apply le_combine_split.
Qed.

(** Writing the field, finishing the writer and reading the tag back with
    the read of the same type and size gives the value's bits. *)
Lemma ReadPrimitive_single nb sw :
  fst (ReadPrimitive little n ty tag
         (Reader_new little
            (Data (Writer_Finish little
                     (WriteData little n sw bits
                        (WriteFieldHeader little tag ty (Writer_new nb)))))
            nb))
  = Some (bits mod 2 ^ (Z.of_nat n * 8)).
Proof.
rewrite single_field_document by exact Hn.
fold (field_bytes nb tag ty n bits). fold (document (field_bytes nb tag ty n bits)).
destruct (FindTag_single nb) as [_ Hf].
unfold ReadPrimitive.
destruct (FindTag little tag (Reader_new little (mem nb) nb)) as [e st] eqn:E.
simpl in Hf. subst e. cbn [type value].
rewrite Z.eqb_refl. cbn [negb fst].
rewrite of_native_union_bytes.
rewrite Z.mod_mod by (apply Z.pow_nonzero; lia). reflexivity.
Qed.

End SingleField.

Lemma signed_of_wrapped m v :
  0 < m -> - m <= v < m ->
  (if (v mod (2 * m)) mod (2 * m) <? (2 * m) / 2
   then (v mod (2 * m)) mod (2 * m)
   else (v mod (2 * m)) mod (2 * m) - 2 * m) = v.
Proof.
intros Hm Hv. rewrite Z.mod_mod by lia.
replace (2 * m / 2) with m by (rewrite Z.mul_comm, Z.div_mul; lia).
destruct (Z_lt_le_dec v 0) as [Hneg | Hpos].
- rewrite <- (Z.mod_unique v (2 * m) (-1) (v + 2 * m)) by lia.
  destruct (v + 2 * m <? m) eqn:E; [apply Z.ltb_lt in E | apply Z.ltb_ge in E]; lia.
- rewrite Z.mod_small by lia.
  destruct (v <? m) eqn:E; [apply Z.ltb_lt in E | apply Z.ltb_ge in E]; lia.
Qed.

Lemma to_signed_wrap n v :
  (n = 1 \/ n = 2 \/ n = 4 \/ n = 8)%nat ->
  - 2 ^ (8 * Z.of_nat n - 1) <= v < 2 ^ (8 * Z.of_nat n - 1) ->
  to_signed n (v mod 2 ^ (Z.of_nat n * 8)) = v.
Proof.
intros [-> | [-> | [-> | ->]]] Hv; unfold to_signed; cbv zeta.
- apply (signed_of_wrapped (2 ^ 7) v); [lia | exact Hv].
- apply (signed_of_wrapped (2 ^ 15) v); [lia | exact Hv].
- apply (signed_of_wrapped (2 ^ 31) v); [lia | exact Hv].
- apply (signed_of_wrapped (2 ^ 63) v); [lia | exact Hv].
Qed.

(** The round trip on a little-endian host.  For every primitive value V of
    a type T among Int8..Int64, UInt8..UInt64, Boolean, Float16, Float32, Float64 (the
    whole integer range, minimum and maximum included; every bit pattern of a
    float, hence both zeros and every NaN), in name mode and in id mode:
    writing one field with value V through [FieldT], finishing the writer and
    reading the tag back with [ReadT] on the produced buffer yields V. *)
Theorem primitive_field_round_trip nb tag pv :
  wire_tag tag ->
  in_range pv ->
  read_as little pv tag (Reader_new little (encode little nb [field_of tag pv]) nb)
  = Some pv.
Proof.
intros Htag Hr.
assert (Hsz : forall k, (k = 1 \/ k = 2 \/ k = 4 \/ k = 8)%nat ->
          forall v, 0 <= v < 2 ^ (Z.of_nat k * 8) -> v mod 2 ^ (Z.of_nat k * 8) = v)
  by (intros k _ v Hv; apply Z.mod_small; exact Hv).
destruct pv; unfold read_as, field_of, encode, write_fields, in_range in *;
  cbn [fold_left write_field];
  unfold ReadInt8, ReadInt16, ReadInt32, ReadInt64, ReadUInt8, ReadUInt16, ReadUInt32,
    ReadUInt64, ReadBoolean, ReadFloat16, ReadFloat32, ReadFloat64, map_result,
    FieldInt8, FieldInt16, FieldInt32, FieldInt64, FieldUInt8, FieldUInt16, FieldUInt32,
    FieldUInt64, FieldBoolean, FieldFloat16, FieldFloat32, FieldFloat64;
  cbn [fst];
  rewrite ReadPrimitive_single
    by first [exact Htag | reflexivity | vm_compute; split; congruence | auto 6];
  cbn [option_map]; f_equal; f_equal.
- apply to_signed_wrap; [auto | simpl; lia].
- apply to_signed_wrap; [auto | simpl; lia].
- apply to_signed_wrap; [auto 6 | simpl; lia].
- apply to_signed_wrap; [auto 6 | simpl; lia].
- apply Hsz; [auto | simpl; lia].
- apply Hsz; [auto | simpl; lia].
- apply Hsz; [auto 6 | simpl; lia].
- apply Hsz; [auto 6 | simpl; lia].
- destruct b; reflexivity.
- apply Hsz; [auto | simpl; lia].
- apply Hsz; [auto 6 | simpl; lia].
- apply Hsz; [auto 6 | simpl; lia].
Qed.

Lemma primitive_field_round_trip_witness :
  read_as little (VInt64 (- 2 ^ 63)) (tag_of "int64")
    (Reader_new little (encode little true [field_of (tag_of "int64") (VInt64 (- 2 ^ 63))]) true)
  = Some (VInt64 (- 2 ^ 63))
  /\ read_as little (VFloat32 0x7FC00001) (tag_of "nan")
       (Reader_new little (encode little false [field_of (tag_of "nan") (VFloat32 0x7FC00001)])
          false)
     = Some (VFloat32 0x7FC00001).
Proof.
split.
- apply (primitive_field_round_trip true (tag_of "int64") (VInt64 (- 2 ^ 63))).
  + unfold wire_tag. vm_compute. repeat split; first [reflexivity | discriminate].
  + vm_compute. repeat split; first [reflexivity | discriminate].
- apply (primitive_field_round_trip false (tag_of "nan") (VFloat32 0x7FC00001)).
  + unfold wire_tag. vm_compute. repeat split; first [reflexivity | discriminate].
  + vm_compute. repeat split; first [reflexivity | discriminate].
Defined.

(* ===================================================================== *)
(** * Further properties of the code *)
(* ===================================================================== *)

(** ** The type taxonomy *)

(** X1. A valid type code has exactly one shape: it is a primitive (raw)
    type, a vector type or an array type, never two of them; the error value
    [Invalid] (0xFF) is not valid. *)
Theorem valid_type_has_exactly_one_shape (b : byte) :
  (if IsValidDataType (byte.unsigned b)
   then (IsPrimitiveType (byte.unsigned b), IsVectorType (byte.unsigned b),
         IsArrayType (byte.unsigned b))
        ∈ [(true, false, false); (false, true, false); (false, false, true)]
   else IsPrimitiveType (byte.unsigned b) = false
        /\ IsArrayType (byte.unsigned b) = false)
  /\ IsValidDataType Invalid = false.
Proof.
split; [| reflexivity].
destruct b; vm_compute;
  first [ split; reflexivity
        | apply list_elem_of_In; simpl; tauto ].
Qed.

(** X2. A valid vector type has 2, 3 or 4 elements of a numeric or boolean
    base type of 1, 2, 4 or 8 bytes, so the payload of a vector field takes
    between 2 and 32 bytes; no vector of UUIDs, strings, binaries or objects
    is valid. *)
Theorem valid_vector_type_is_small (b : byte) :
  IsValidDataType (byte.unsigned b) = true ->
  IsVectorType (byte.unsigned b) = true ->
  2 <= VectorTypeDimension (byte.unsigned b) <= 4
  /\ DataTypeSize (BaseDataType (byte.unsigned b)) ∈ [1; 2; 4; 8]
  /\ 2 <= VectorTypeDimension (byte.unsigned b) * DataTypeSize (BaseDataType (byte.unsigned b))
     <= 32
  /\ Z.land (byte.unsigned b) 12 <> 12.
Proof.
destruct b; vm_compute; intros Hv Hc; try discriminate;
  (split; [split; discriminate |]);
  (split; [apply list_elem_of_In; simpl; tauto |]);
  (split; [split; discriminate | discriminate]).
Qed.

Lemma valid_vector_type_is_small_witness :
  2 <= VectorTypeDimension (Z.lor Vector3 Float32) <= 4
  /\ DataTypeSize (BaseDataType (Z.lor Vector3 Float32)) ∈ [1; 2; 4; 8].
Proof.
pose proof (valid_vector_type_is_small Byte.x3a ltac:(reflexivity) ltac:(reflexivity))
  as (H1 & H2 & _).
split; [exact H1 | exact H2].
Defined.

(** X3. Among the array types, the fixed-size ones are exactly those whose
    base type has a size (1, 2, 4, 8 or 16 bytes) and the dynamic ones
    (string, binary and object arrays) exactly those whose base type has size
    0; and the array type made from a base type is an array type with that
    base type. *)
Theorem array_types_split_by_element_size (b : byte) :
  IsFixedSizeArrayType (byte.unsigned b)
  = IsArrayType (byte.unsigned b) && (0 <? DataTypeSize (BaseDataType (byte.unsigned b)))
  /\ IsDynamicArrayType (byte.unsigned b)
     = IsArrayType (byte.unsigned b) && (DataTypeSize (BaseDataType (byte.unsigned b)) =? 0)
  /\ IsArrayType (PrimitiveToArrayType (BaseDataType (byte.unsigned b))) = true
  /\ BaseDataType (PrimitiveToArrayType (BaseDataType (byte.unsigned b)))
     = BaseDataType (byte.unsigned b).
Proof. destruct b; vm_compute; repeat split. Qed.

(** X4. The integer type chosen for an enum's underlying type has that
    type's signedness and size: for a signed type of 1, 2, 4 or 8 bytes it is
    the one of [Int8], [Int16], [Int32], [Int64] that has this size, for an
    unsigned type the one of [UInt8], [UInt16], [UInt32], [UInt64]; it is a
    valid primitive type whose value the reader holds inline.  Sizes other
    than 1, 2, 4 and 8 have no type. *)
Theorem IntegerType_has_the_size_and_signedness is_signed size :
  match IntegerType is_signed size with
  | Some t =>
      DataTypeSize t = size
      /\ (if is_signed then t ∈ [Int8; Int16; Int32; Int64]
          else t ∈ [UInt8; UInt16; UInt32; UInt64])
      /\ IsValidDataType t = true
      /\ IsPrimitiveType t = true
      /\ inline_size t = Some (Z.to_nat size)
  | None => ~ size ∈ [1; 2; 4; 8]
  end.
Proof.
assert (Hin : forall (t : DataType) l, In t l -> t ∈ l)
  by (intros t l H; apply list_elem_of_In; exact H).
unfold IntegerType.
destruct is_signed;
  (destruct (size =? 1) eqn:E1;
   [apply Z.eqb_eq in E1; subst;
    split; [reflexivity | split; [apply Hin; simpl; auto 6 | vm_compute; auto]] |]);
  (destruct (size =? 2) eqn:E2;
   [apply Z.eqb_eq in E2; subst;
    split; [reflexivity | split; [apply Hin; simpl; auto 6 | vm_compute; auto]] |]);
  (destruct (size =? 4) eqn:E4;
   [apply Z.eqb_eq in E4; subst;
    split; [reflexivity | split; [apply Hin; simpl; auto 6 | vm_compute; auto]] |]);
  (destruct (size =? 8) eqn:E8;
   [apply Z.eqb_eq in E8; subst;
    split; [reflexivity | split; [apply Hin; simpl; auto 6 | vm_compute; auto]] |]);
  apply Z.eqb_neq in E1, E2, E4, E8;
  intros H; apply list_elem_of_In in H; simpl in H; intuition congruence.
Qed.

(** ** Tags *)

(** X5. The hash alphabet: every character maps to a value between 0 and
    37, and the characters that map to 0 are exactly those that are not
    allowed in a tag name, so inside valid names no character is ignored by
    the hash. *)
Theorem mapped_char_is_zero_on_invalid_chars_only (c : byte) :
  0 <= mapped_char (byte.unsigned c) <= 37
  /\ (mapped_char (byte.unsigned c) =? 0) = negb (IsValidTagChar (byte.unsigned c)).
Proof. destruct c; vm_compute; repeat split; discriminate. Qed.

Lemma IsTagNameValid_length nm :
  IsTagNameValid nm = true -> 1 <= zlen nm <= 255.
Proof.
unfold IsTagNameValid, MAX_TAG_NAME_LENGTH.
destruct (length nm =? 0)%nat eqn:E0; [discriminate |].
destruct (255 <? zlen nm) eqn:E1; [discriminate |].
intros _. apply Nat.eqb_neq in E0. apply Z.ltb_ge in E1. unfold zlen in *. lia.
Qed.

Lemma IsTagNameValid_chars nm :
  IsTagNameValid nm = true ->
  Forall (fun b => IsValidTagChar (byte.unsigned b) = true) nm.
Proof.
unfold IsTagNameValid.
destruct ((length nm =? 0)%nat || (MAX_TAG_NAME_LENGTH <? zlen nm)); [discriminate |].
intros H. apply Forall_forall. intros b Hb.
rewrite forallb_forall in H. apply H. apply list_elem_of_In. exact Hb.
Qed.

(** X6. A tag that the literal constructors accept can be written and found
    again: its name has between 1 and 255 bytes, all of them letters, digits
    or underscores, and its id lies between 1 and 65535 (for the constructor
    from a name alone: the low 16 bits of the hash, which must not be 0). *)
Theorem literal_tag_is_well_formed nm t :
  DataTag_of_literal nm = Some t ->
  name t = nm
  /\ id t = tag_id nm
  /\ 1 <= zlen (name t) <= 255
  /\ Forall (fun b => IsValidTagChar (byte.unsigned b) = true) (name t)
  /\ 1 <= id t < 2 ^ 16
  /\ HasId t = true
  /\ wire_tag t.
Proof.
unfold DataTag_of_literal. destruct (Validate _) eqn:Hv; [| discriminate].
intros [= <-]. unfold Validate in Hv. cbn [name id] in *.
apply andb_true_iff in Hv. destruct Hv as [Hn Hi].
pose proof (IsTagNameValid_length nm Hn) as Hl.
pose proof (IsTagNameValid_chars nm Hn) as Hc.
assert (Hr : 0 <= wrap16 (TagNameHash nm) < 2 ^ 16)
  by (unfold wrap16; apply Z.mod_pos_bound; lia).
assert (Hz : wrap16 (TagNameHash nm) <> 0).
{ unfold INVALID_ID in Hi. destruct (wrap16 (TagNameHash nm) =? 0) eqn:E; [discriminate |].
  apply Z.eqb_neq. exact E. }
unfold wire_tag, HasId, tag_id. cbn [name id].
repeat split; first [assumption | lia | reflexivity].
Qed.

Lemma literal_tag_is_well_formed_witness :
  DataTag_of_literal (bytes_of_string "user_name") = Some (tag_of "user_name")
  /\ wire_tag (tag_of "user_name").
Proof.
assert (H : DataTag_of_literal (bytes_of_string "user_name") = Some (tag_of "user_name"))
  by (vm_compute; reflexivity).
split; [exact H |].
apply (literal_tag_is_well_formed _ _ H).
Defined.

(** X7. Tag comparison ([operator==]) is reflexive and symmetric, and two
    tags built from names that differ only in the case of their letters
    compare equal, because both carry the same hashed id.  It is not
    transitive: a tag without id compares by name with each neighbour, while
    two tags with ids compare by id alone. *)
Theorem tag_equality_is_by_id_when_both_have_one :
  (forall a, DataTag_eqb a a = true)
  /\ (forall a b, DataTag_eqb a b = DataTag_eqb b a)
  /\ (forall nm,
        match DataTag_of_literal nm, DataTag_of_literal (map to_upper nm) with
        | Some a, Some b => DataTag_eqb a b = true /\ DataTag_neqb a b = false
        | _, _ => True
        end)
  /\ (exists a b c,
        DataTag_eqb a b = true /\ DataTag_eqb b c = true /\ DataTag_eqb a c = false).
Proof.
split; [| split; [| split]].
- intros a. unfold DataTag_eqb. destruct (HasId a && HasId a).
  + apply Z.eqb_refl.
  + apply bool_decide_eq_true. reflexivity.
- intros a b. unfold DataTag_eqb. rewrite (andb_comm (HasId b)).
  destruct (HasId a && HasId b).
  + apply Z.eqb_sym.
  + apply bool_decide_ext. split; congruence.
- intros nm.
  destruct (DataTag_of_literal nm) as [a |] eqn:Ea; [| exact I].
  destruct (DataTag_of_literal (map to_upper nm)) as [b |] eqn:Eb; [| exact I].
  unfold DataTag_of_literal in Ea, Eb.
  destruct (Validate _) eqn:Va in Ea; [| discriminate].
  destruct (Validate _) eqn:Vb in Eb; [| discriminate].
  injection Ea as <-. injection Eb as <-.
  unfold Validate in Va, Vb. cbn [name id] in Va, Vb.
  apply andb_true_iff in Va. apply andb_true_iff in Vb.
  destruct Va as [_ Ia]. destruct Vb as [_ Ib].
  unfold DataTag_neqb, DataTag_eqb, HasId. cbn [name id]. rewrite Ia, Ib. cbn [andb].
  unfold TagNameHash. rewrite TagNameHash_loop_to_upper, Z.eqb_refl. auto.
- exists (mkDataTag 1 (bytes_of_string "x")), (mkDataTag 0 (bytes_of_string "x")),
    (mkDataTag 2 (bytes_of_string "x")).
  vm_compute. auto.
Qed.

(** ** Byte order *)

Lemma byteswap_involutive n v :
  0 <= v < 2 ^ (Z.of_nat n * 8) -> byteswap n (byteswap n v) = v.
Proof.
intros Hv. unfold byteswap at 1. rewrite le_split_byteswap, rev_involutive.
apply le_combine_le_split_small. exact Hv.
Qed.

Lemma AdjustEndianess_of_le e n v :
  (n = 1 \/ n = 2 \/ n = 4 \/ n = 8)%nat ->
  0 <= v < 2 ^ (Z.of_nat n * 8) ->
  AdjustEndianess e n (of_native e (le_split n v)) = v.
Proof.
intros Hn Hv. destruct e.
- rewrite AdjustEndianess_little. simpl. apply le_combine_le_split_small. exact Hv.
- unfold AdjustEndianess, TBF_ENDIANESS. rewrite decide_True by discriminate.
  simpl of_native. fold (byteswap n v).
  destruct Hn as [-> | [-> | [-> | ->]]].
  + unfold byteswap.
    change (le_combine (rev (le_split 1 v))) with (le_combine (le_split 1 v)).
    apply le_combine_le_split_small. exact Hv.
  + apply byteswap_involutive. exact Hv.
  + apply byteswap_involutive. exact Hv.
  + apply byteswap_involutive. exact Hv.
Qed.

(** [ReadData] on [n] bytes that lie at [p]. *)
Lemma ReadData_bytes e n sw (pre bs post : list byte) p :
  p = zlen pre ->
  length bs = n ->
  Z.of_nat n < 2 ^ 64 ->
  ReadData e n sw (pre ++ bs ++ post) p (p + Z.of_nat n)
  = Some (if sw then AdjustEndianess e n (of_native e bs) else of_native e bs,
          p + Z.of_nat n).
Proof.
intros Hp Hl Hn. unfold ReadData.
rewrite CanAccessBuffer_true by lia.
rewrite (load_mid pre bs post p (Z.of_nat n) Hp) by (unfold zlen; lia).
destruct sw; reflexivity.
Qed.

(** X8. Integers cross hosts: an integer of 1, 2, 4 or 8 bytes that a
    writer on either host appends with [WriteData] (swap on) is read back
    with [ReadData] (swap on) as the same value by a reader on either host,
    little-endian or big-endian in any combination. *)
Theorem integer_written_on_one_host_reads_on_the_other e1 e2 n v w :
  (n = 1 \/ n = 2 \/ n = 4 \/ n = 8)%nat ->
  0 <= v < 2 ^ (Z.of_nat n * 8) ->
  ReadData e2 n true (Wr.m_buffer (WriteData e1 n true v w)) (zlen (Wr.m_buffer w))
    (zlen (Wr.m_buffer w) + Z.of_nat n)
  = Some (v, zlen (Wr.m_buffer w) + Z.of_nat n).
Proof.
intros Hn Hv.
assert (Hlt : Z.of_nat n < 2 ^ 64)
  by (destruct Hn as [-> | [-> | [-> | ->]]]; reflexivity).
rewrite WriteData_swapped_host_independent by exact Hn.
rewrite <- (app_nil_r (le_split n v)).
rewrite ReadData_bytes by (try reflexivity; try exact Hlt; apply length_le_split).
rewrite AdjustEndianess_of_le by assumption. reflexivity.
Qed.

Lemma integer_written_on_one_host_reads_on_the_other_witness :
  ReadData little 4 true (Wr.m_buffer (WriteData big 4 true 0x12345678 (Writer_new true))) 4 8
  = Some (0x12345678, 8).
Proof.
apply (integer_written_on_one_host_reads_on_the_other big little 4 0x12345678
         (Writer_new true)).
- right. right. left. reflexivity.
- vm_compute. split; [discriminate | reflexivity].
Defined.

(** X9. Floats do not cross hosts: a value of 2, 4 or 8 bytes appended
    without swap, as the floating-point fields do, is read back by
    [ReadData] unchanged when the writer's host is little-endian and with
    its bytes reversed when the writer's host is big-endian, whatever the
    reader's host; in particular a big-endian host does not read back its
    own floats. *)
Theorem unswapped_value_reads_back_only_from_little_endian_writer e2 n v w :
  (n = 2 \/ n = 4 \/ n = 8)%nat ->
  0 <= v < 2 ^ (Z.of_nat n * 8) ->
  ReadData e2 n true (Wr.m_buffer (WriteData little n false v w)) (zlen (Wr.m_buffer w))
    (zlen (Wr.m_buffer w) + Z.of_nat n)
  = Some (v, zlen (Wr.m_buffer w) + Z.of_nat n)
  /\ ReadData e2 n true (Wr.m_buffer (WriteData big n false v w)) (zlen (Wr.m_buffer w))
       (zlen (Wr.m_buffer w) + Z.of_nat n)
     = Some (byteswap n v, zlen (Wr.m_buffer w) + Z.of_nat n).
Proof.
intros Hn Hv.
assert (Hn' : (n = 1 \/ n = 2 \/ n = 4 \/ n = 8)%nat) by tauto.
assert (Hlt : Z.of_nat n < 2 ^ 64)
  by (destruct Hn as [-> | [-> | ->]]; reflexivity).
assert (Hb : 0 <= byteswap n v < 2 ^ (Z.of_nat n * 8)).
{ unfold byteswap.
  pose proof (le_combine_bound (rev (le_split n v))) as H.
  rewrite length_rev, length_le_split in H.
  replace (Z.of_nat n * 8) with (8 * Z.of_nat n) by lia. exact H. }
split.
- rewrite WriteData_little by exact Hn'. cbn [Wr.m_buffer set_buffer].
  rewrite <- (app_nil_r (le_split n v)).
  rewrite ReadData_bytes by (try reflexivity; try exact Hlt; apply length_le_split).
  rewrite AdjustEndianess_of_le by assumption. reflexivity.
- rewrite WriteData_unswapped_big_endian by exact Hn.
  rewrite <- le_split_byteswap.
  rewrite <- (app_nil_r (le_split n (byteswap n v))).
  rewrite ReadData_bytes by (try reflexivity; try exact Hlt; apply length_le_split).
  rewrite AdjustEndianess_of_le by assumption. reflexivity.
Qed.

Lemma unswapped_value_reads_back_only_from_little_endian_writer_witness :
  ReadData big 4 true (Wr.m_buffer (WriteData big 4 false 0x3F800000 (Writer_new true))) 4 8
  = Some (0x0000803F, 8).
Proof.
pose proof (unswapped_value_reads_back_only_from_little_endian_writer big 4 0x3F800000
              (Writer_new true)) as H.
destruct H as [_ H].
- right. left. reflexivity.
- vm_compute. split; [discriminate | reflexivity].
- exact H.
Defined.

(** One element swapped in place has its bytes reversed, on either host. *)
Lemma swap_element_rev e size (chunk : list byte) :
  length chunk = size -> swap_element e size chunk = rev chunk.
Proof.
intros Hl. unfold swap_element. destruct e; simpl.
- rewrite le_split_byteswap. f_equal. rewrite <- Hl. apply split_le_combine.
- rewrite le_split_byteswap, rev_involutive.
  rewrite <- Hl. rewrite <- (length_rev chunk). apply split_le_combine.
Qed.

Lemma firstn_exact_app {A} n (x y : list A) : length x = n -> firstn n (x ++ y) = x.
Proof. intros <-. induction x as [| a x IH]; [reflexivity | cbn; f_equal; exact IH]. Qed.

Lemma skipn_exact_app {A} n (x y : list A) : length x = n -> skipn n (x ++ y) = y.
Proof. intros <-. induction x as [| a x IH]; [reflexivity | exact IH]. Qed.

Lemma swap_elements_shape e size count :
  forall bs : list byte,
    (size * count <= length bs)%nat ->
    exists swapped,
      length swapped = (size * count)%nat
      /\ swap_elements e size count bs = swapped ++ skipn (size * count) bs
      /\ swap_elements e size count (swapped ++ skipn (size * count) bs) = bs.
Proof.
induction count as [| c IH]; intros bs Hl.
- exists []. rewrite Nat.mul_0_r. simpl. auto.
- assert (Hf : length (firstn size bs) = size) by (rewrite length_firstn; lia).
  destruct (IH (skipn size bs)) as (sw & Hsl & Hs1 & Hs2).
  { rewrite length_skipn. lia. }
  exists (rev (firstn size bs) ++ sw).
  assert (Hsk : skipn (size * S c) bs = skipn (size * c) (skipn size bs)).
  { rewrite skipn_skipn. f_equal. lia. }
  split; [| split].
  + rewrite length_app, length_rev, Hf, Hsl. lia.
  + simpl. rewrite swap_element_rev by exact Hf. rewrite Hs1, Hsk, <- app_assoc. reflexivity.
  + simpl. rewrite Hsk, <- app_assoc.
    assert (Hr : length (rev (firstn size bs)) = size) by (rewrite length_rev; exact Hf).
    rewrite (firstn_exact_app size _ _ Hr), (skipn_exact_app size _ _ Hr).
    rewrite swap_element_rev by exact Hr. rewrite rev_involutive, Hs2.
    apply firstn_skipn.
Qed.

Lemma AdjustArrayEndianess_in_range e size count (bs : list byte) :
  (size * Z.to_nat count <= length bs)%nat ->
  AdjustArrayEndianess e size count bs
  = if decide (e <> TBF_ENDIANESS) then
      match size with
      | 2%nat | 4%nat | 8%nat => swap_elements e size (Z.to_nat count) bs
      | _ => bs
      end
    else bs.
Proof.
intros Hn.
destruct (swap_elements_shape e size (Z.to_nat count) bs Hn) as (sw & Hsl & Hs1 & _).
assert (Hlen : length (swap_elements e size (Z.to_nat count) bs) = length bs).
{ rewrite Hs1, length_app, length_skipn, Hsl. lia. }
unfold AdjustArrayEndianess. destruct (decide _); [| reflexivity].
destruct size as [| [| [| [| [| [| [| [| [| size]]]]]]]]]; try reflexivity;
  rewrite <- Hlen; apply firstn_all.
Qed.

(** X10. The in-place swap of an array of [count] elements that lie in the
    given bytes never changes the number of bytes, leaves every byte after
    the last element as it is, and applied a second time restores the bytes:
    the encoder's swap and the decoder's normalization undo each other. *)
Theorem array_swap_is_an_involution e size count (bs : list byte) :
  0 <= count ->
  Z.of_nat size * count <= zlen bs ->
  length (AdjustArrayEndianess e size count bs) = length bs
  /\ skipn (size * Z.to_nat count) (AdjustArrayEndianess e size count bs)
     = skipn (size * Z.to_nat count) bs
  /\ AdjustArrayEndianess e size count (AdjustArrayEndianess e size count bs) = bs.
Proof.
intros Hc Hl.
assert (Hn : (size * Z.to_nat count <= length bs)%nat) by (unfold zlen in Hl; nia).
split; [apply length_AdjustArrayEndianess |].
rewrite (AdjustArrayEndianess_in_range e size count (AdjustArrayEndianess e size count bs))
  by (rewrite length_AdjustArrayEndianess; exact Hn).
rewrite (AdjustArrayEndianess_in_range e size count bs Hn).
destruct (swap_elements_shape e size (Z.to_nat count) bs Hn) as (sw & Hsl & Hs1 & Hs2).
assert (Hskip : skipn (size * Z.to_nat count) (sw ++ skipn (size * Z.to_nat count) bs)
                = skipn (size * Z.to_nat count) bs)
  by (apply skipn_exact_app; exact Hsl).
destruct (decide _); [| split; reflexivity].
destruct size as [| [| [| [| [| [| [| [| [| size]]]]]]]]]; try (split; reflexivity);
  rewrite Hs1; (split; [exact Hskip | exact Hs2]).
Qed.

Lemma array_swap_is_an_involution_witness :
  AdjustArrayEndianess big 2 2
    (AdjustArrayEndianess big 2 2 [Byte.x01; Byte.x02; Byte.x03; Byte.x04; Byte.x05])
  = [Byte.x01; Byte.x02; Byte.x03; Byte.x04; Byte.x05]
  /\ AdjustArrayEndianess big 2 2 [Byte.x01; Byte.x02; Byte.x03; Byte.x04; Byte.x05]
     = [Byte.x02; Byte.x01; Byte.x04; Byte.x03; Byte.x05].
Proof.
split; [| reflexivity].
apply (array_swap_is_an_involution big 2 2
         [Byte.x01; Byte.x02; Byte.x03; Byte.x04; Byte.x05]).
- lia.
- vm_compute. discriminate.
Defined.

(** ** The encoder on both hosts *)

Lemma writer_eq (w1 w2 : Wr.Writer) :
  Wr.m_buffer w1 = Wr.m_buffer w2 ->
  Wr.m_name_based w1 = Wr.m_name_based w2 ->
  m_root_object w1 = m_root_object w2 ->
  w1 = w2.
Proof. destruct w1, w2. simpl. intros -> -> ->. reflexivity. Qed.

Lemma WriteData_swapped e n v w :
  (n = 1 \/ n = 2 \/ n = 4 \/ n = 8)%nat ->
  WriteData e n true v w = set_buffer w (Wr.m_buffer w ++ le_split n v).
Proof.
intros Hn. unfold WriteData. destruct Hn as [-> | Hn].
- reflexivity.
- replace (1 <? n)%nat with true by (destruct Hn as [-> | [-> | ->]]; reflexivity).
  rewrite to_native_AdjustEndianess by auto. reflexivity.
Qed.

Lemma WriteFieldHeader_host e tag ty w :
  WriteFieldHeader e tag ty w = WriteFieldHeader little tag ty w.
Proof. unfold WriteFieldHeader. rewrite !WriteData_swapped by auto. reflexivity. Qed.

Lemma WriteString_host e str w : WriteString e str w = WriteString little str w.
Proof. unfold WriteString. rewrite !WriteData_swapped by auto. reflexivity. Qed.

Lemma WriteBinary_host e data size w : WriteBinary e data size w = WriteBinary little data size w.
Proof. unfold WriteBinary. rewrite !WriteData_swapped by auto. reflexivity. Qed.

Lemma WriteDataSizeField_host e offset w :
  WriteDataSizeField e offset w = WriteDataSizeField little offset w.
Proof. unfold WriteDataSizeField. rewrite !to_native_AdjustEndianess by auto. reflexivity. Qed.

Lemma in_object_host e body1 body2 w :
  (forall w, body1 w = body2 w) -> in_object e body1 w = in_object little body2 w.
Proof.
intros Hb. unfold in_object, ObjectWriter_new, ObjectWriter_Finish, IsFinished.
destruct (ReserveDataSizeField w) as [pos w1]. cbn.
rewrite Hb, WriteDataSizeField_host. reflexivity.
Qed.

Lemma in_array_host e body1 body2 w :
  (forall w, body1 w = body2 w) -> in_array e body1 w = in_array little body2 w.
Proof.
intros Hb. unfold in_array, ArrayWriter_new, ArrayWriter_Finish.
destruct (ReserveDataSizeField w) as [pos w1]. cbn.
rewrite Hb, WriteDataSizeField_host. reflexivity.
Qed.

Lemma fold_left_pointwise {A} (f g : A -> Wr.Writer -> Wr.Writer) (l : list A) :
  Forall (fun a => forall w, f a w = g a w) l ->
  forall w, fold_left (fun w a => f a w) l w = fold_left (fun w a => g a w) l w.
Proof.
induction 1 as [| a l Ha _ IH]; intros w; simpl.
- reflexivity.
- rewrite Ha. apply IH.
Qed.

Lemma swap_elements_array_bytes e n (data : list Z) :
  swap_elements e n (length data) (concat (map (to_native big n) data))
  = concat (map (le_split n) data).
Proof.
induction data as [| v data IH]; simpl.
- reflexivity.
- assert (Hl : length (rev (le_split n v)) = n) by (rewrite length_rev; apply length_le_split).
  rewrite (firstn_exact_app n _ _ Hl), (skipn_exact_app n _ _ Hl).
  rewrite swap_element_rev by exact Hl. rewrite rev_involutive, IH. reflexivity.
Qed.

Lemma length_concat_fixed {A} n (f : A -> list byte) (data : list A) :
  (forall v, length (f v) = n) -> length (concat (map f data)) = (n * length data)%nat.
Proof.
intros Hf. induction data as [| v data IH]; simpl.
- lia.
- rewrite length_app, Hf, IH. lia.
Qed.

(** The bytes of a caller's array as the encoder leaves them: every
    element in little-endian order, on either host. *)
Lemma array_bytes_on_the_wire e n (data : list Z) :
  (n = 1 \/ n = 2 \/ n = 4 \/ n = 8)%nat ->
  AdjustArrayEndianess e n (Z.of_nat (length data)) (array_bytes e n data)
  = concat (map (le_split n) data).
Proof.
intros Hn. destruct e.
- apply AdjustArrayEndianess_little.
- unfold array_bytes.
  rewrite AdjustArrayEndianess_in_range.
  + rewrite decide_True by discriminate. rewrite Nat2Z.id.
    destruct Hn as [-> | [-> | [-> | ->]]]; try apply swap_elements_array_bytes.
    reflexivity.
  + rewrite Nat2Z.id.
    rewrite (length_concat_fixed n) by (intros v; simpl; rewrite length_rev; apply length_le_split).
    lia.
Qed.

Lemma FieldArray_host e n tag ty (data : list Z) w :
  (n = 1 \/ n = 2 \/ n = 4 \/ n = 8)%nat ->
  Z.of_nat (length data) * Z.of_nat n < 2 ^ 32 ->
  FieldArray e n tag ty data (wrap32 (Z.of_nat (length data))) w
  = FieldArray little n tag ty data (wrap32 (Z.of_nat (length data))) w.
Proof.
intros Hn Hsz.
assert (Hlen : wrap32 (Z.of_nat (length data)) = Z.of_nat (length data)).
{ unfold wrap32. apply Z.mod_small. nia. }
assert (Hfix : forall e', firstn (Z.to_nat (wrap32 (Z.of_nat (length data) * Z.of_nat n)))
                            (array_bytes e' n data) = array_bytes e' n data).
{ intros e'. apply firstn_all2. rewrite length_array_bytes.
  unfold wrap32. rewrite Z.mod_small by nia. nia. }
destruct (FieldArray_buffer e n tag ty data (wrap32 (Z.of_nat (length data))) w)
  as (E1 & N1 & R1).
destruct (FieldArray_buffer little n tag ty data (wrap32 (Z.of_nat (length data))) w)
  as (E2 & N2 & R2).
apply writer_eq.
- rewrite E1, E2, Hlen, !Hfix, !array_bytes_on_the_wire by exact Hn.
  rewrite WriteFieldHeader_host. reflexivity.
- rewrite N1, N2, WriteFieldHeader_host. reflexivity.
- rewrite R1, R2, WriteFieldHeader_host. reflexivity.
Qed.

Lemma write_field_host e f :
  host_free f = true -> forall w, write_field e f w = write_field little f w.
Proof.
induction f as [f Hf] using Field_nested_ind.
destruct f; intros Hh w; try discriminate Hh; cbn [write_field];
  unfold FieldInt8, FieldInt16, FieldInt32, FieldInt64, FieldUInt8, FieldUInt16,
    FieldUInt32, FieldUInt64, FieldBoolean, FieldString, FieldBinary;
  rewrite ?(WriteFieldHeader_host e);
  try (rewrite !WriteData_swapped by auto; reflexivity).
- apply WriteString_host.
- apply WriteBinary_host.
- cbn [host_free] in Hh. apply andb_true_iff in Hh. destruct Hh as [Hn Hsz].
  apply FieldArray_host.
  + rewrite !orb_true_iff, !Nat.eqb_eq in Hn. tauto.
  + apply Z.ltb_lt. exact Hsz.
- apply in_object_host. apply fold_left_pointwise.
  cbn [host_free] in Hh. rewrite forallb_forall in Hh.
  rewrite List.Forall_forall in Hf |- *. intros x Hx. apply (Hf x Hx). apply Hh. exact Hx.
- apply in_array_host. apply (fold_left_pointwise (fun s => StringArrayWriter_AddElement e s)).
  apply List.Forall_forall. intros s _ w'. apply WriteString_host.
- apply in_array_host.
  apply (fold_left_pointwise (fun x => BinaryArrayWriter_AddElement e x (wrap32 (zlen x)))).
  apply List.Forall_forall. intros s _ w'. apply WriteBinary_host.
- apply in_array_host.
  apply (fold_left_pointwise
           (fun x => in_object e (fun w => fold_left (fun w f => write_field e f w) x w))).
  cbn [host_free] in Hh. rewrite forallb_forall in Hh.
  rewrite List.Forall_forall in Hf |- *. intros x Hx w'.
  apply in_object_host. apply fold_left_pointwise.
  specialize (Hf x Hx). specialize (Hh x Hx). rewrite forallb_forall in Hh.
  rewrite List.Forall_forall in Hf |- *. intros y Hy. apply (Hf y Hy). apply Hh. exact Hy.
Qed.

Lemma write_fields_host e fs :
  forallb host_free fs = true -> forall w, write_fields e fs w = write_fields little fs w.
Proof.
intros Hh. unfold write_fields. apply fold_left_pointwise.
rewrite forallb_forall in Hh. apply List.Forall_forall. intros f Hf.
apply write_field_host. apply Hh. exact Hf.
Qed.

Lemma encode_host e nb fs :
  forallb host_free fs = true -> encode e nb fs = encode little nb fs.
Proof.
intros Hh. unfold encode. rewrite (write_fields_host e fs Hh).
unfold Writer_Finish, ObjectWriter_Finish, IsFinished, Data.
rewrite (WriteDataSizeField_host e). reflexivity.
Qed.

(** X11. The encoder is host independent up to scalar floats: a program
    of field operations with no scalar floating-point field (arrays of
    floats are allowed, nested objects and arrays included) yields the same
    document on a big-endian host as on a little-endian one. *)
Theorem document_without_scalar_floats_is_host_independent nb fs :
  forallb host_free fs = true ->
  encode big nb fs = encode little nb fs.
Proof. apply encode_host. Qed.

Lemma document_without_scalar_floats_is_host_independent_witness :
  let fs := [FInt32 (tag_of "a") 5;
             FArray 4 (tag_of "f") (Z.lor Array Float32) [0x3F800000; 0x40000000];
             FObject (tag_of "o") [FString (tag_of "s") (bytes_of_string "hi")]] in
  encode big true fs = encode little true fs.
Proof.
apply (document_without_scalar_floats_is_host_independent true
         [FInt32 (tag_of "a") 5;
          FArray 4 (tag_of "f") (Z.lor Array Float32) [0x3F800000; 0x40000000];
          FObject (tag_of "o") [FString (tag_of "s") (bytes_of_string "hi")]]).
reflexivity.
Defined.

(** ** Strings, blobs and the scopes of the encoder *)

(** X12. A string field always carries a prefix that counts the bytes
    written after it: the prefix is the length of the string modulo 65536 and
    exactly that many bytes of the string follow, on either host.  A string
    of fewer than 65536 bytes is written whole, a longer one is cut to its
    length modulo 65536 without any error. *)
Theorem string_field_is_cut_to_its_16_bit_length e tag (str : list byte) w :
  let L := zlen str mod 2 ^ 16 in
  Wr.m_buffer (FieldString e tag str w)
  = Wr.m_buffer (WriteFieldHeader e tag String w) ++ le_split 2 L ++ firstn (Z.to_nat L) str
  /\ le_combine (le_split 2 L) = zlen (firstn (Z.to_nat L) str)
  /\ (firstn (Z.to_nat L) str = str <-> zlen str < 2 ^ 16).
Proof.
intros L.
assert (HL : 0 <= L < 2 ^ 16) by (apply Z.mod_pos_bound; reflexivity).
assert (Hle : L <= zlen str).
{ unfold L. apply Z.mod_le; [apply zlen_nonneg | reflexivity]. }
assert (Hcut : zlen (firstn (Z.to_nat L) str) = L).
{ unfold zlen in *. rewrite length_firstn. lia. }
split; [| split].
- unfold FieldString, WriteString, WriteData_raw. cbn [snd].
  rewrite WriteData_swapped by auto. cbn [set_buffer Wr.m_buffer].
  rewrite <- app_assoc. reflexivity.
- rewrite Hcut. apply le_combine_le_split_small. exact HL.
- split.
  + intros Heq. rewrite Heq in Hcut. lia.
  + intros Hlt. apply firstn_all2. unfold L. rewrite Z.mod_small.
    * unfold zlen. lia.
    * split; [apply zlen_nonneg | exact Hlt].
Qed.

(** X13. The bulk overloads of [FieldStringArray] and [FieldBinaryArray]
    leave the writer exactly as the scoped array writers do when they are
    driven element by element and then finished, or destroyed without a call
    of [Finish]. *)
Theorem bulk_array_fields_equal_the_scoped_writers e tag
    (strs : list (list byte)) (bins : list (list byte * Z)) w :
  FieldStringArray_all e tag strs w
  = snd (ArrayWriter_Finish e (fst (FieldStringArray e tag w))
           (fold_left (fun w s => StringArrayWriter_AddElement e s w) strs
              (snd (FieldStringArray e tag w))))
  /\ FieldStringArray_all e tag strs w
     = ArrayWriter_destroy e (fst (FieldStringArray e tag w))
         (fold_left (fun w s => StringArrayWriter_AddElement e s w) strs
            (snd (FieldStringArray e tag w)))
  /\ FieldBinaryArray_all e tag bins w
     = ArrayWriter_destroy e (fst (FieldBinaryArray e tag w))
         (fold_left (fun w b => BinaryArrayWriter_AddElement e (fst b) (snd b) w) bins
            (snd (FieldBinaryArray e tag w))).
Proof.
unfold FieldStringArray_all, FieldBinaryArray_all, FieldStringArray, FieldBinaryArray,
  ArrayWriter_destroy, ArrayWriter_Finish, ArrayWriter_new, StringArrayWriter_AddElement,
  BinaryArrayWriter_AddElement.
repeat split;
  match goal with
  | |- context [ReserveDataSizeField ?x] => destruct (ReserveDataSizeField x) as [pos w1]
  end; reflexivity.
Qed.

Lemma Writer_Finish_buffer e w :
  Wr.m_buffer (Writer_Finish e w)
  = if m_is_finished (m_root_object w) then Wr.m_buffer w
    else Wr.m_buffer (WriteDataSizeField e (m_obj_size_pos (m_root_object w)) w).
Proof.
unfold Writer_Finish, ObjectWriter_Finish, IsFinished.
destruct (m_is_finished (m_root_object w)); reflexivity.
Qed.

Lemma Writer_Finish_finished e w :
  m_is_finished (m_root_object (Writer_Finish e w)) = true.
Proof.
unfold Writer_Finish, ObjectWriter_Finish, IsFinished.
destruct (m_is_finished (m_root_object w)) eqn:E; [exact E | reflexivity].
Qed.

Lemma grows_then_appends (g : Wr.Writer -> Wr.Writer) w0 w :
  (exists b body, Wr.m_buffer w0 = Wr.m_buffer w ++ b :: body) ->
  Appends g ->
  exists b body, Wr.m_buffer (g w0) = Wr.m_buffer w ++ b :: body.
Proof.
intros (b & body & E) Hg. destruct (Hg w0) as (more & E' & _).
exists b, (body ++ more). rewrite E', E, <- app_assoc. reflexivity.
Qed.

Lemma WriteFieldHeader_grows e tag ty w :
  exists b body, Wr.m_buffer (WriteFieldHeader e tag ty w) = Wr.m_buffer w ++ b :: body.
Proof.
assert (H1 : exists b body,
          Wr.m_buffer (WriteData e 1 true ty w) = Wr.m_buffer w ++ b :: body).
{ exists (byte.of_Z ty), []. reflexivity. }
unfold WriteFieldHeader.
destruct (Wr.m_name_based (WriteData e 1 true ty w)).
- apply (grows_then_appends
           (fun w => set_buffer
                       (WriteData e 1 true (wrap8 (zlen (GetName tag))) w)
                       (Wr.m_buffer (WriteData e 1 true (wrap8 (zlen (GetName tag))) w)
                          ++ GetName tag)) _ w H1).
  apply (Appends_compose (WriteData e 1 true (wrap8 (zlen (GetName tag))))
           (fun w => set_buffer w (Wr.m_buffer w ++ GetName tag))).
  + apply WriteData_appends.
  + apply (set_buffer_appends (fun _ => GetName tag)).
- apply (grows_then_appends (WriteData e 2 true (GetId tag)) _ w H1).
  apply WriteData_appends.
Qed.

(** Every field operation writes at least the type byte of its header. *)
Lemma write_field_grows e f w :
  exists b body, Wr.m_buffer (write_field e f w) = Wr.m_buffer w ++ b :: body.
Proof.
destruct f; cbn [write_field];
  unfold FieldInt8, FieldInt16, FieldInt32, FieldInt64, FieldUInt8, FieldUInt16,
    FieldUInt32, FieldUInt64, FieldBoolean, FieldFloat16, FieldFloat32, FieldFloat64,
    FieldString, FieldBinary;
  try (apply (grows_then_appends (WriteData e _ _ _) _ w (WriteFieldHeader_grows _ _ _ _));
       apply WriteData_appends).
- apply (grows_then_appends (WriteString e _) _ w (WriteFieldHeader_grows _ _ _ _)).
  apply WriteString_appends.
- apply (grows_then_appends (WriteBinary e _ _) _ w (WriteFieldHeader_grows _ _ _ _)).
  apply WriteBinary_appends.
- destruct (FieldArray_buffer e n tag array_type data (wrap32 (Z.of_nat (length data))) w)
    as (E & _).
  destruct (WriteFieldHeader_grows e tag array_type w) as (b & body & E1).
  exists b. eexists. rewrite E, E1, <- app_assoc. reflexivity.
- apply (grows_then_appends (in_object e _) _ w (WriteFieldHeader_grows _ _ _ _)).
  apply in_object_appends. apply write_fields_appends.
- apply (grows_then_appends (in_array e _) _ w (WriteFieldHeader_grows _ _ _ _)).
  apply in_array_appends. apply (Appends_fold (fun s => StringArrayWriter_AddElement e s)).
  apply List.Forall_forall. intros s _. apply WriteString_appends.
- apply (grows_then_appends (in_array e _) _ w (WriteFieldHeader_grows _ _ _ _)).
  apply in_array_appends.
  apply (Appends_fold (fun x => BinaryArrayWriter_AddElement e x (wrap32 (zlen x)))).
  apply List.Forall_forall. intros s _. apply WriteBinary_appends.
- apply (grows_then_appends (in_array e _) _ w (WriteFieldHeader_grows _ _ _ _)).
  apply in_array_appends.
  apply (Appends_fold
           (fun x => in_object e (fun w => fold_left (fun w f => write_field e f w) x w))).
  apply List.Forall_forall. intros x _. apply in_object_appends. apply write_fields_appends.
Qed.

(** X14. [Finish] on the writer is one-shot.  Fields written after the
    first [Finish] are appended behind the finished document (at least
    one byte for each), and a second [Finish] changes no byte: the root
    prefix keeps counting the fields of before the first [Finish] only, so
    that what was written later lies outside the region that a decoder of
    the buffer walks. *)
Theorem fields_written_after_Finish_are_not_counted e nb fs gs :
  exists later,
    Data (write_fields e gs (Writer_Finish e (write_fields e fs (Writer_new nb))))
    = encode e nb fs ++ later
    /\ Data (Writer_Finish e
               (write_fields e gs (Writer_Finish e (write_fields e fs (Writer_new nb)))))
       = encode e nb fs ++ later
    /\ (later = [] <-> gs = []).
Proof.
set (w1 := Writer_Finish e (write_fields e fs (Writer_new nb))).
destruct (write_fields_appends e gs w1) as (later & E & _ & R).
exists later. unfold Data. rewrite Writer_Finish_buffer, R.
unfold w1 at 2. rewrite Writer_Finish_finished.
split; [exact E | split; [exact E |]].
split.
- intros ->. destruct gs as [| g gs]; [reflexivity | exfalso].
  unfold write_fields in E. cbn [fold_left] in E.
  destruct (grows_then_appends (write_fields e gs) (write_field e g w1) w1
              (write_field_grows e g w1) (write_fields_appends e gs))
    as (b & body & E').
  unfold write_fields in E'. rewrite E' in E.
  apply app_inv_head in E. discriminate E.
- intros ->. unfold write_fields in E. cbn [fold_left] in E.
  rewrite <- (app_nil_r (Wr.m_buffer w1)) in E at 1.
  apply app_inv_head in E. symmetry. exact E.
Qed.

(** ** The decoder's interface *)

Lemma ObjectReader_new_sized_eq e mem buffer size nb :
  ObjectReader_new_sized e mem buffer size nb = ObjectReader_new e mem buffer nb.
Proof.
unfold ObjectReader_new_sized.
destruct (size <? _); [| reflexivity].
unfold ObjectReader_new, Invalidate. destruct buffer; destruct nb; reflexivity.
Qed.

(** X15. The size argument of the constructor of [ObjectReader] has no
    effect: [Invalidate] on a reader that has not built its index changes
    nothing and does not mark the index as built, so the first query
    validates the buffer as if no size had been given.  A reader made with
    any size, even 0, is the reader made without one. *)
Theorem size_argument_of_the_constructor_has_no_effect e mem buffer size nb :
  ObjectReader_new_sized e mem buffer size nb = ObjectReader_new e mem buffer nb
  /\ (mem, ObjectReader_new_sized e mem (Some 0) size nb) = Reader_new e mem nb.
Proof.
split; [apply ObjectReader_new_sized_eq |].
unfold Reader_new. rewrite !ObjectReader_new_sized_eq. reflexivity.
Qed.

Lemma ReadPrimitive_CreateCache e n t tag st :
  ReadPrimitive e n t tag (CreateCache e st) = ReadPrimitive e n t tag st.
Proof. unfold ReadPrimitive. rewrite FindTag_CreateCache. reflexivity. Qed.

Lemma ReadString_CreateCache e tag st :
  ReadString e tag (CreateCache e st) = ReadString e tag st.
Proof. unfold ReadString. rewrite FindTag_CreateCache. reflexivity. Qed.

(** X16. Reads do not interfere.  Whatever read was done first, on
    whatever tag, a read afterwards returns what it returns on the fresh
    reader, and all reads leave the reader and the memory in one and the same
    state: the index is built once, by the first query. *)
Theorem reads_do_not_interfere e q q' tag tag' n t st :
  run_read e q tag (snd (run_read e q' tag' st)) = run_read e q tag st
  /\ snd (run_read e q tag st) = snd (run_read e q' tag' st)
  /\ ReadPrimitive e n t tag (snd (run_read e q' tag' st)) = ReadPrimitive e n t tag st
  /\ ReadString e tag (snd (run_read e q' tag' st)) = ReadString e tag st.
Proof.
rewrite !run_read_state.
repeat split.
- apply run_read_CreateCache.
- apply ReadPrimitive_CreateCache.
- apply ReadString_CreateCache.
Qed.

Lemma AssertTag_eq e tag ty st :
  fst (AssertTag e tag ty st)
  = match fst (FindTag e tag st) with
    | Some entry => type entry =? ty
    | None => false
    end.
Proof. unfold AssertTag. destruct (FindTag e tag st) as [[entry |] st']; reflexivity. Qed.

(** X17. [AssertTag] predicts the reads.  A read of any kind but the
    fixed-size arrays returns a value exactly when [AssertTag] holds for the
    tag and the type the read expects; a fixed-size array read returns one
    only if it holds (the stored size must also be a multiple of the element
    size).  [ContainsTag] holds exactly when [GetTagType] returns a type, and
    [AssertTag] exactly when that type is the expected one. *)
Theorem AssertTag_predicts_the_reads e q tag ty st :
  match q with
  | RArray t => fst (run_read e q tag st) = true -> fst (AssertTag e tag t st) = true
  | _ => fst (run_read e q tag st) = fst (AssertTag e tag (expected q) st)
  end
  /\ fst (ContainsTag e tag st)
     = match fst (GetTagType e tag st) with Some _ => true | None => false end
  /\ fst (AssertTag e tag ty st)
     = match fst (GetTagType e tag st) with Some t => t =? ty | None => false end.
Proof.
split; [| split].
- destruct q; rewrite AssertTag_eq;
    unfold run_read, returned, ReadPrimitive, ReadString, ReadStringInternal, ReadBinary,
      ReadUUID, ReadObject, ReadObjectInternal, ReadArray, ReadPointerData, ReadStringArray,
      ReadBinaryArray, ReadObjectArray, ReadVector, expected;
    destruct (FindTag e tag st) as [[entry |] st']; cbn [fst snd];
    try reflexivity;
    try (destruct (type entry =? _); reflexivity).
  + destruct (type entry =? expected_type); cbn; [reflexivity |].
    intros H; exact H.
  + intros H; exact H.
- unfold ContainsTag, GetTagType.
  destruct (FindTag e tag st) as [[entry |] st']; reflexivity.
- rewrite AssertTag_eq. unfold GetTagType.
  destruct (FindTag e tag st) as [[entry |] st']; reflexivity.
Qed.

Lemma CreateCache_name_based e st :
  Rd.m_name_based (snd (CreateCache e st)) = Rd.m_name_based (snd st).
Proof.
destruct st as [mem r]. unfold CreateCache.
destruct (m_cache_built r); [reflexivity |].
destruct (Rd.m_buffer r); [destruct (m_size r =? 0) |]; reflexivity.
Qed.

Lemma map_key_fmap {K V B} (g : K -> B) (l : list (K * V)) :
  map (fun kv => g (fst kv)) l = g <$> l.*1.
Proof. induction l as [| kv l IH]; [reflexivity | cbn; f_equal; exact IH]. Qed.

(** X18. [GetAllTags] lists the keys of the index, each once: a tag is
    contained exactly when the list holds a tag with its key (the name in
    name mode, the id in id mode).  The listed tags carry nothing but the
    key: no id in name mode, an empty name in id mode.  For an invalid
    reader the list is empty. *)
Theorem GetAllTags_lists_the_contained_keys e tag st :
  let key t := if Rd.m_name_based (snd st) then inl (GetName t) else inr (GetId t) in
  (fst (ContainsTag e tag st) = true
   <-> exists t, In t (fst (GetAllTags e st)) /\ key t = key tag)
  /\ NoDup (fst (GetAllTags e st))
  /\ Forall (fun t => if Rd.m_name_based (snd st) then HasId t = false else GetName t = [])
       (fst (GetAllTags e st))
  /\ (fst (IsValid e st) = false -> fst (GetAllTags e st) = []).
Proof.
intros key. unfold key. clear key.
unfold ContainsTag, GetAllTags. rewrite FindTag_eq, IsValid_eq.
pose proof (CreateCache_name_based e st) as Hnb.
destruct (CreateCache e st) as [mem r]. cbn [fst snd] in *.
unfold lookup_cache. rewrite Hnb.
destruct (m_is_valid r); cbn [negb fst snd].
2:{ repeat split.
    - discriminate.
    - intros (t & [] & _).
    - constructor.
    - constructor. }
destruct (Rd.m_name_based (snd st)); cbn [fst snd].
- repeat split.
  + destruct (m_name_cache r !! GetName tag) as [entry |] eqn:El; [| discriminate].
    intros _. exists (DataTag_of_name (GetName tag)). split; [| reflexivity].
    apply in_map_iff. exists (GetName tag, entry). split; [reflexivity |].
    apply list_elem_of_In. apply elem_of_map_to_list. exact El.
  + intros (t & Hin & Hk). apply in_map_iff in Hin. destruct Hin as ([k v] & <- & Hin).
    apply list_elem_of_In, elem_of_map_to_list in Hin.
    unfold GetName, DataTag_of_name in *. cbn [name] in Hk. injection Hk as Hk.
    rewrite <- Hk, Hin. reflexivity.
  + replace (map (fun kv => DataTag_of_name (fst kv)) (map_to_list (m_name_cache r)))
      with (DataTag_of_name <$> (map_to_list (m_name_cache r)).*1)
      by (symmetry; apply map_key_fmap).
    apply NoDup_fmap_2; [| apply NoDup_fst_map_to_list].
    intros a b H. injection H as H. exact H.
  + apply List.Forall_forall. intros t Hin. apply in_map_iff in Hin.
    destruct Hin as (kv & <- & _). reflexivity.
  + discriminate.
- repeat split.
  + destruct (m_id_cache r !! GetId tag) as [entry |] eqn:El; [| discriminate].
    intros _. exists (DataTag_of_id (GetId tag)). split; [| reflexivity].
    apply in_map_iff. exists (GetId tag, entry). split; [reflexivity |].
    apply list_elem_of_In. apply elem_of_map_to_list. exact El.
  + intros (t & Hin & Hk). apply in_map_iff in Hin. destruct Hin as ([k v] & <- & Hin).
    apply list_elem_of_In, elem_of_map_to_list in Hin.
    unfold GetId, DataTag_of_id in *. cbn [id] in Hk. injection Hk as Hk.
    rewrite <- Hk, Hin. reflexivity.
  + replace (map (fun kv => DataTag_of_id (fst kv)) (map_to_list (m_id_cache r)))
      with (DataTag_of_id <$> (map_to_list (m_id_cache r)).*1)
      by (symmetry; apply map_key_fmap).
    apply NoDup_fmap_2; [| apply NoDup_fst_map_to_list].
    intros a b H. injection H as H. exact H.
  + apply List.Forall_forall. intros t Hin. apply in_map_iff in Hin.
    destruct Hin as (kv & <- & _). reflexivity.
  + discriminate.
Qed.

(** ** The validation pass on a little-endian host *)

Lemma ReadData_little n mem p e :
  ReadData little n true mem p e
  = if CanAccessBuffer p e (Z.of_nat n)
    then Some (le_combine (load mem p (Z.of_nat n)), p + Z.of_nat n)
    else None.
Proof. unfold ReadData. rewrite AdjustEndianess_little. reflexivity. Qed.

Lemma adjust_switch_little es c mem p : adjust_switch little es c mem p = mem.
Proof.
unfold adjust_switch, adjust_in_place. rewrite !AdjustArrayEndianess_little, firstn_skipn.
destruct (es =? 2), (es =? 4), (es =? 8); reflexivity.
Qed.

(** What [read_entry] gives on a little-endian host: the memory as it
    was, and for a pointer entry the end of its payload as the cursor. *)
Lemma read_entry_little mem t p e :
  exists r,
    read_entry little mem t p e = (mem, r)
    /\ match r with
       | None => True
       | Some (en, p') =>
           type en = t
           /\ match value en with
              | v_int n _ => inline_size t <> None
              | v_ptr q => q = p /\ p' = p + payload_size mem t p
              end
       end.
Proof.
unfold read_entry, payload_size, inline_size. rewrite !ReadData_little.
destruct (IsArrayType t).
{ destruct (CanAccessBuffer p e (Z.of_nat 4)); [| eexists; split; [reflexivity | exact I]].
  eexists. split.
  - destruct (1 <? _); [destruct (wrap32 _ =? _) |]; rewrite ?adjust_switch_little; reflexivity.
  - cbn. repeat split. change (Z.of_nat 4) with 4. lia. }
destruct (IsVectorType t).
{ destruct (negb (CanAccessBuffer _ _ _)); [eexists; split; [reflexivity | exact I] |].
  eexists. split.
  - destruct (1 <? _); rewrite ?adjust_switch_little; reflexivity.
  - cbn. repeat split. }
destruct (IsPrimitiveType t); [| eexists; split; [reflexivity | exact I]].
destruct ((t =? Boolean) || (t =? UInt8) || (t =? Int8)).
{ destruct (CanAccessBuffer _ _ _); eexists; (split; [reflexivity |]); [| exact I].
  cbn. split; [reflexivity | discriminate]. }
destruct ((t =? Float16) || (t =? UInt16) || (t =? Int16)).
{ destruct (CanAccessBuffer _ _ _); eexists; (split; [reflexivity |]); [| exact I].
  cbn. split; [reflexivity | discriminate]. }
destruct ((t =? Float32) || (t =? UInt32) || (t =? Int32)).
{ destruct (CanAccessBuffer _ _ _); eexists; (split; [reflexivity |]); [| exact I].
  cbn. split; [reflexivity | discriminate]. }
destruct ((t =? Float64) || (t =? UInt64) || (t =? Int64)).
{ destruct (CanAccessBuffer _ _ _); eexists; (split; [reflexivity |]); [| exact I].
  cbn. split; [reflexivity | discriminate]. }
destruct (t =? UUID).
{ destruct (negb (CanAccessBuffer _ _ _)); eexists; (split; [reflexivity |]); [exact I |].
  cbn. repeat split. }
destruct (t =? String).
{ destruct (CanAccessBuffer _ _ _); eexists; (split; [reflexivity |]); [| exact I].
  cbn. repeat split. change (Z.of_nat 2) with 2. lia. }
destruct ((t =? Object) || (t =? Binary)); [| eexists; split; [reflexivity | exact I]].
destruct (CanAccessBuffer _ _ _); eexists; (split; [reflexivity |]); [| exact I].
cbn. repeat split. change (Z.of_nat 4) with 4. lia.
Qed.

Lemma read_register_tail mem t p q e (tp ts : Z) :
  p < q ->
  exists r,
    match read_entry little mem t q e with
    | (mem0, None) => (mem0, None)
    | (mem0, Some (entry, read_ptr)) =>
        if e <? read_ptr then (mem0, None)
        else (mem0, Some (tp, ts, entry, read_ptr))
    end = (mem, r)
    /\ match r with
       | None => True
       | Some (_, _, en, p') =>
           p < p' <= e
           /\ match value en with
              | v_int _ _ => inline_size (type en) <> None
              | v_ptr q => p <= q /\ q + payload_size mem (type en) q <= e
              end
       end.
Proof.
intros Hq.
destruct (read_entry_little mem t q e) as (re & Ere & Hre).
pose proof (read_entry_advance little mem t q e) as Hadv.
rewrite Ere in Hadv |- *.
destruct re as [[en p'] |]; [| exists None; split; [reflexivity | exact I]].
specialize (Hadv mem en p' eq_refl).
destruct (e <? p') eqn:El; [exists None; split; [reflexivity | exact I] |].
apply Z.ltb_ge in El.
eexists. split; [reflexivity |].
split; [lia |].
destruct Hre as [Ht Hv]. rewrite Ht.
destruct (value en) as [q' | n bits]; [| exact Hv].
destruct Hv as [-> ->]. lia.
Qed.

(** One iteration on a little-endian host: the memory is untouched, and a
    pointer entry lies between the start of the register and the new
    cursor, which is inside the region. *)
Lemma read_register_little nb mem p e :
  exists r,
    read_register little nb mem p e = (mem, r)
    /\ match r with
       | None => True
       | Some (_, _, en, p') =>
           p < p' <= e
           /\ match value en with
              | v_int _ _ => inline_size (type en) <> None
              | v_ptr q => p <= q /\ q + payload_size mem (type en) q <= e
              end
       end.
Proof.
unfold read_register. rewrite ReadData_little.
destruct (CanAccessBuffer p e (Z.of_nat 1)); [| exists None; split; [reflexivity | exact I]].
destruct (negb (IsValidDataType _)); [exists None; split; [reflexivity | exact I] |].
destruct nb.
- rewrite ReadData_little.
  destruct (CanAccessBuffer (p + Z.of_nat 1) e (Z.of_nat 1));
    [| exists None; split; [reflexivity | exact I]].
  destruct (negb (CanAccessBuffer _ _ _)); [exists None; split; [reflexivity | exact I] |].
  apply read_register_tail.
  pose proof (le_combine_bound (load mem (p + Z.of_nat 1) (Z.of_nat 1))). lia.
- destruct (negb (CanAccessBuffer _ _ _)); [exists None; split; [reflexivity | exact I] |].
  apply read_register_tail. lia.
Qed.

Lemma emplace_lookup `{Countable K} {V} (k k' : K) (v x : V) (m : gmap K V) :
  emplace k v m !! k' = Some x -> m !! k' = Some x \/ x = v.
Proof.
unfold emplace. destruct (m !! k) eqn:E; [auto |].
destruct (decide (k = k')) as [<- | Hne].
- rewrite lookup_insert_eq. intros [= ->]. auto.
- rewrite lookup_insert_ne by exact Hne. auto.
Qed.

Lemma scan_little_mem nb hi fuel :
  forall s, s_mem (scan little fuel nb hi s) = s_mem s.
Proof.
induction fuel as [| fuel IH]; intros s; simpl;
  destruct (s_read_ptr s <? hi); try reflexivity.
destruct (read_register_little nb (s_mem s) (s_read_ptr s) hi) as (r & E & _).
rewrite E. destruct r as [[[[tp ts] en] p'] |]; [| reflexivity].
rewrite IH. unfold add_tag. destruct nb; reflexivity.
Qed.

Lemma CreateCache_little_mem st : fst (CreateCache little st) = fst st.
Proof.
destruct st as [mem r]. unfold CreateCache.
destruct (m_cache_built r); [reflexivity |].
destruct (Rd.m_buffer r); [| reflexivity].
destruct (m_size r =? 0); [reflexivity |].
cbn [fst]. apply scan_little_mem.
Qed.

(** The index that the loop builds on a little-endian host holds only
    entries inside the region. *)
Lemma scan_little_in_bounds nb lo hi mem fuel :
  forall s,
    s_mem s = mem ->
    lo <= s_read_ptr s ->
    (forall k en, s_name_cache s !! k = Some en -> entry_in_bounds mem lo hi en) ->
    (forall k en, s_id_cache s !! k = Some en -> entry_in_bounds mem lo hi en) ->
    (forall k en, s_name_cache (scan little fuel nb hi s) !! k = Some en ->
                  entry_in_bounds mem lo hi en)
    /\ (forall k en, s_id_cache (scan little fuel nb hi s) !! k = Some en ->
                     entry_in_bounds mem lo hi en).
Proof.
induction fuel as [| fuel IH]; intros s Hm Hlo Hn Hi; simpl;
  destruct (s_read_ptr s <? hi); try (split; assumption).
destruct (read_register_little nb (s_mem s) (s_read_ptr s) hi) as (r & E & Hr).
rewrite E. destruct r as [[[[tp ts] en] p'] |]; [| split; assumption].
destruct Hr as [Hp Hv]. rewrite Hm in Hv.
assert (Hen : entry_in_bounds mem lo hi en).
{ unfold entry_in_bounds. destruct (value en); [lia | exact Hv]. }
apply IH.
- unfold add_tag. destruct nb; exact Hm.
- rewrite add_tag_read_ptr. lia.
- intros k x. unfold add_tag. destruct nb; cbn [s_name_cache]; [| apply Hn].
  intros Hk. apply emplace_lookup in Hk. destruct Hk as [Hk | ->]; [eapply Hn; exact Hk | exact Hen].
- intros k x. unfold add_tag. destruct nb; cbn [s_id_cache]; [apply Hi |].
  intros Hk. apply emplace_lookup in Hk. destruct Hk as [Hk | ->]; [eapply Hi; exact Hk | exact Hen].
Qed.

(** A lookup on a reader made over an object at [p0] finds only entries
    inside the object's region, and leaves the memory as it was. *)
Lemma fresh_FindTag_in_bounds mem p0 nb tag en st' :
  FindTag little tag (mem, ObjectReader_new little mem (Some p0) nb) = (Some en, st') ->
  fst st' = mem
  /\ Rd.m_name_based (snd st') = nb
  /\ entry_in_bounds mem (p0 + 4) (p0 + 4 + le_combine (load mem p0 4)) en.
Proof.
rewrite FindTag_eq. intros H. injection H as Hl <-.
split; [exact (CreateCache_little_mem (mem, ObjectReader_new little mem (Some p0) nb)) |].
split; [exact (CreateCache_name_based little (mem, ObjectReader_new little mem (Some p0) nb)) |].
unfold ObjectReader_new, CreateCache in Hl.
cbn [Rd.m_cache_built Rd.m_buffer Rd.m_size Rd.m_name_based Rd.m_id_cache Rd.m_name_cache
       of_native] in Hl.
match type of Hl with
| context [if ?c =? 0 then _ else _] => destruct (c =? 0); [discriminate Hl |]
end.
cbn [snd Rd.m_is_valid] in Hl.
destruct (negb _ && _); [| discriminate Hl].
unfold lookup_cache in Hl. cbn [Rd.m_name_based Rd.m_name_cache Rd.m_id_cache] in Hl.
match type of Hl with
| context [scan little ?f nb ?hi ?s0] =>
    destruct (scan_little_in_bounds nb (p0 + 4) hi mem f s0) as [Hn Hi]
end.
- reflexivity.
- cbn [s_read_ptr]. change (Z.of_nat sizeof_FieldSize) with 4. lia.
- intros k x. cbn. destruct nb; rewrite lookup_empty; discriminate.
- intros k x. cbn. destruct nb; rewrite lookup_empty; discriminate.
- destruct nb; [eapply Hn | eapply Hi]; exact Hl.
Qed.

Lemma DataTypeSize_nonneg t : 0 <= DataTypeSize t.
Proof.
unfold DataTypeSize.
repeat match goal with |- context [if ?c then _ else _] => destruct c end; lia.
Qed.

Lemma vector_type_is_not_inline t :
  IsVectorType t = true -> IsArrayType t = false /\ inline_size t = None.
Proof.
unfold IsVectorType, IsArrayType. intros H. apply andb_true_iff in H.
destruct H as [H1 H2]. apply Z.leb_le in H1, H2.
split.
- apply Z.eqb_neq. intros E. rewrite E in H2. vm_compute in H2. apply H2. reflexivity.
- unfold inline_size.
  repeat match goal with
    | |- context [?x =? ?c] =>
        let E := fresh in
        destruct (x =? c) eqn:E;
        [ apply Z.eqb_eq in E; rewrite E in H1; vm_compute in H1; exfalso; apply H1; reflexivity
        | cbn [orb] ]
    end.
  reflexivity.
Qed.

Lemma array_type_is_not_inline t : IsArrayType t = true -> inline_size t = None.
Proof.
unfold IsArrayType. intros H. apply Z.eqb_eq in H.
unfold inline_size.
repeat match goal with
  | |- context [?x =? ?c] =>
      let E := fresh in
      destruct (x =? c) eqn:E;
      [ apply Z.eqb_eq in E; rewrite E in H; vm_compute in H; discriminate H
      | cbn [orb] ]
  end.
reflexivity.
Qed.

Lemma pointer_entry mem lo hi en :
  entry_in_bounds mem lo hi en ->
  inline_size (type en) = None ->
  lo <= get_ptr little (value en)
  /\ get_ptr little (value en) + payload_size mem (type en) (get_ptr little (value en)) <= hi.
Proof.
unfold entry_in_bounds. destruct (value en); [intros H _; exact H |].
intros H E. contradiction.
Qed.

(** X19. On a little-endian host no query changes the borrowed memory:
    validity checks, lookups and reads of every kind leave each byte as it
    was.  On a big-endian host they do not: validation swaps the elements of
    arrays in place. *)
Theorem little_endian_reads_leave_the_memory_untouched q tag st :
  fst (snd (run_read little q tag st)) = fst st
  /\ fst (snd (IsValid little st)) = fst st
  /\ fst (snd (GetAllTags little st)) = fst st
  /\ exists mem,
       fst (IsValid big (mem, ObjectReader_new big mem (Some 0) true)) = true
       /\ fst (snd (IsValid big (mem, ObjectReader_new big mem (Some 0) true))) <> mem.
Proof.
split; [| split; [| split]].
- rewrite run_read_state. apply CreateCache_little_mem.
- rewrite IsValid_eq. apply CreateCache_little_mem.
- unfold GetAllTags. rewrite IsValid_eq.
  destruct (negb _); [| destruct (Rd.m_name_based _)]; apply CreateCache_little_mem.
- exists ([Byte.x00; Byte.x00; Byte.x00; Byte.x09]
           ++ [Byte.xa1; Byte.x01; Byte.x61; Byte.x02; Byte.x00; Byte.x00; Byte.x00;
               Byte.x01; Byte.x00]).
  split; [vm_compute; reflexivity | vm_compute; discriminate].
Qed.

(** X20. Validated reads stay inside the object.  On a little-endian
    host, for a reader made over the object at [p0], whose size prefix
    declares the region from [lo] to [hi]: the bytes of every string, blob,
    fixed-size array, UUID or vector that a read returns, the region of every
    nested object and the whole payload of every array reader lie between
    [lo] and [hi]. *)
Theorem validated_reads_stay_inside_the_object mem p0 nb tag :
  let st := (mem, ObjectReader_new little mem (Some p0) nb) in
  let lo := p0 + 4 in
  let hi := p0 + 4 + le_combine (load mem p0 4) in
  (forall s, fst (ReadString little tag st) = Some s ->
     exists p len, lo <= p /\ p + 2 + len <= hi /\ s = load mem (p + 2) len)
  /\ (forall ptr size, fst (ReadBinary little tag st) = Some (ptr, size) ->
        lo <= ptr - 4 /\ 0 <= size /\ ptr + size <= hi)
  /\ (forall t ptr len, IsArrayType t = true ->
        fst (ReadArray little t tag st) = Some (ptr, len) ->
        lo <= ptr - 4 /\ 0 <= len * DataTypeSize (BaseDataType t)
        /\ ptr + len * DataTypeSize (BaseDataType t) <= hi)
  /\ (forall ptr, fst (ReadUUID little tag st) = Some ptr -> lo <= ptr /\ ptr + 16 <= hi)
  /\ (forall t ptr, IsVectorType t = true ->
        fst (ReadVector little tag t st) = Some ptr ->
        lo <= ptr
        /\ ptr + wrap32 (VectorTypeDimension t * DataTypeSize (BaseDataType t)) <= hi)
  /\ (forall r, fst (ReadObject little tag st) = Some r ->
        exists b, Rd.m_buffer r = Some b /\ lo <= b - 4 /\ 0 <= m_size r /\ b + m_size r <= hi)
  /\ (forall a,
        fst (ReadStringArray little tag st) = Some a
        \/ fst (ReadBinaryArray little tag st) = Some a
        \/ fst (ReadObjectArray little tag st) = Some a ->
        lo <= m_array a /\ m_array a + 4 + GetArraySize little mem (m_array a) <= hi).
Proof.
intros st lo hi.
assert (Hfind : forall en st',
          FindTag little tag st = (Some en, st') ->
          fst st' = mem /\ Rd.m_name_based (snd st') = nb /\ entry_in_bounds mem lo hi en).
{ intros en st'. apply fresh_FindTag_in_bounds. }
assert (Harr : forall es arr, m_array (Initialize little es mem arr) = arr).
{ intros es arr. unfold Initialize.
  destruct (init_loop _ _ _ _ _ _ _) as [[[rp c] fl] |]; [| reflexivity].
  destruct (negb _); reflexivity. }
split; [| split; [| split; [| split; [| split; [| split]]]]].
- (* strings *)
  intros s H.
  unfold ReadString, ReadStringInternal in H.
  destruct (FindTag little tag st) as [[en |] st'] eqn:F; [| discriminate H].
  destruct (Hfind en st' eq_refl) as (Hm & _ & Hb).
  cbn [fst] in H. destruct (type en =? String) eqn:Et; [| discriminate H].
  apply Z.eqb_eq in Et. cbn [negb] in H. injection H as <-.
  destruct (pointer_entry mem lo hi en Hb) as [H1 H2]; [rewrite Et; reflexivity |].
  rewrite Et in H2. rewrite Hm.
  exists (get_ptr little (value en)), (le_combine (load mem (get_ptr little (value en)) 2)).
  change (payload_size mem String (get_ptr little (value en)))
    with (2 + le_combine (load mem (get_ptr little (value en)) 2)) in H2.
  split; [exact H1 | split; [lia | reflexivity]].
- (* blobs *)
  intros ptr size H.
  unfold ReadBinary, ReadPointerData in H.
  destruct (FindTag little tag st) as [[en |] st'] eqn:F; [| discriminate H].
  destruct (Hfind en st' eq_refl) as (Hm & _ & Hb).
  cbn [fst] in H. destruct (type en =? Binary) eqn:Et; [| discriminate H].
  apply Z.eqb_eq in Et. cbn [negb] in H. injection H as <- <-.
  destruct (pointer_entry mem lo hi en Hb) as [H1 H2]; [rewrite Et; reflexivity |].
  rewrite Et in H2. rewrite Hm. cbn [of_native].
  change (payload_size mem Binary (get_ptr little (value en)))
    with (4 + le_combine (load mem (get_ptr little (value en)) 4)) in H2.
  pose proof (le_combine_bound (load mem (get_ptr little (value en)) 4)) as Ho.
  lia.
- (* fixed-size arrays *)
  intros t ptr len H H0.
  unfold ReadArray, ReadPointerData in H0.
  destruct (FindTag little tag st) as [[en |] st'] eqn:F; [| discriminate H0].
  destruct (Hfind en st' eq_refl) as (Hm & _ & Hb).
  destruct (type en =? t) eqn:Et; [| discriminate H0].
  apply Z.eqb_eq in Et. cbn [negb] in H0.
  destruct (negb _); [discriminate H0 |]. cbn [fst] in H0. injection H0 as <- <-.
  destruct (pointer_entry mem lo hi en Hb) as [H1 H2];
    [rewrite Et; apply array_type_is_not_inline; exact H |].
  rewrite Et in H2. unfold payload_size in H2. rewrite H in H2. rewrite Hm.
  cbn [of_native].
  pose proof (DataTypeSize_nonneg (BaseDataType t)) as Hs.
  pose proof (le_combine_bound (load mem (get_ptr little (value en)) 4)) as Ho.
  assert (Hle : le_combine (load mem (get_ptr little (value en)) 4)
                / DataTypeSize (BaseDataType t) * DataTypeSize (BaseDataType t)
                <= le_combine (load mem (get_ptr little (value en)) 4)).
  { destruct (Z.eq_dec (DataTypeSize (BaseDataType t)) 0) as [E0 | Hne].
    - rewrite E0. lia.
    - rewrite Z.mul_comm. apply Z.mul_div_le. lia. }
  assert (Hnn : 0 <= le_combine (load mem (get_ptr little (value en)) 4)
                     / DataTypeSize (BaseDataType t) * DataTypeSize (BaseDataType t)).
  { destruct (Z.eq_dec (DataTypeSize (BaseDataType t)) 0) as [E0 | Hne].
    - rewrite E0. lia.
    - apply Z.mul_nonneg_nonneg; [apply Z.div_pos; lia | exact Hs]. }
  lia.
- (* UUIDs *)
  intros ptr H.
  unfold ReadUUID in H.
  destruct (FindTag little tag st) as [[en |] st'] eqn:F; [| discriminate H].
  destruct (Hfind en st' eq_refl) as (Hm & _ & Hb).
  destruct (type en =? UUID) eqn:Et; [| discriminate H].
  apply Z.eqb_eq in Et. cbn [negb fst] in H. injection H as <-.
  destruct (pointer_entry mem lo hi en Hb) as [H1 H2]; [rewrite Et; reflexivity |].
  rewrite Et in H2. split; [exact H1 | exact H2].
- (* vectors *)
  intros t ptr H H0.
  unfold ReadVector in H0.
  destruct (FindTag little tag st) as [[en |] st'] eqn:F; [| discriminate H0].
  destruct (Hfind en st' eq_refl) as (Hm & _ & Hb).
  destruct (type en =? t) eqn:Et; [| discriminate H0].
  apply Z.eqb_eq in Et. cbn [negb fst] in H0. injection H0 as <-.
  destruct (vector_type_is_not_inline t H) as [Ha Hi].
  destruct (pointer_entry mem lo hi en Hb) as [H1 H2]; [rewrite Et; exact Hi |].
  rewrite Et in H2. unfold payload_size in H2. rewrite Ha, H in H2.
  split; [exact H1 | exact H2].
- (* nested objects *)
  intros r H.
  unfold ReadObject, ReadObjectInternal in H.
  destruct (FindTag little tag st) as [[en |] st'] eqn:F; [| discriminate H].
  destruct (Hfind en st' eq_refl) as (Hm & _ & Hb).
  cbn [fst] in H. destruct (type en =? Object) eqn:Et; [| discriminate H].
  apply Z.eqb_eq in Et. cbn [negb] in H. injection H as <-.
  destruct (pointer_entry mem lo hi en Hb) as [H1 H2]; [rewrite Et; reflexivity |].
  rewrite Et in H2. rewrite Hm.
  change (payload_size mem Object (get_ptr little (value en)))
    with (4 + le_combine (load mem (get_ptr little (value en)) 4)) in H2.
  pose proof (le_combine_bound (load mem (get_ptr little (value en)) 4)) as Ho.
  eexists. split; [reflexivity |].
  cbn [Rd.m_size ObjectReader_new of_native].
  change (Z.of_nat sizeof_FieldSize) with 4. lia.
- (* array readers *)
  intros a H.
  destruct H as [H | [H | H]];
    unfold ReadStringArray, ReadBinaryArray, ReadObjectArray, StringArrayReader_new,
      BinaryArrayReader_new, ObjectArrayReader_new, ArrayReader_new in H;
    destruct (FindTag little tag st) as [[en |] st'] eqn:F; try discriminate H;
    destruct (Hfind en st' eq_refl) as (Hm & _ & Hb);
    destruct (type en =? _) eqn:Et; try discriminate H;
    apply Z.eqb_eq in Et; cbn [negb fst] in H; injection H as <-;
    rewrite Hm, Harr;
    (destruct (pointer_entry mem lo hi en Hb) as [H1 H2]; [rewrite Et; reflexivity |]);
    rewrite Et in H2; unfold GetArraySize; cbn [of_native];
    match type of H2 with
    | _ + payload_size mem ?t ?p <= _ =>
        change (payload_size mem t p) with (4 + le_combine (load mem p 4)) in H2
    end; lia.
Qed.

(** ** Array readers on a little-endian host *)

Lemma zlen_element_bytes es (e : list byte) :
  zlen (element_bytes es e) = Z.of_nat es + zlen e.
Proof. unfold element_bytes. rewrite zlen_app, zlen_le_split. reflexivity. Qed.

Lemma zlen_array_payload_nil es : zlen (array_payload es []) = 0.
Proof. reflexivity. Qed.

Lemma array_payload_cons es e els :
  array_payload es (e :: els) = element_bytes es e ++ array_payload es els.
Proof. reflexivity. Qed.

Lemma zlen_array_payload_cons es e els :
  zlen (array_payload es (e :: els)) = Z.of_nat es + zlen e + zlen (array_payload es els).
Proof. rewrite array_payload_cons, zlen_app, zlen_element_bytes. reflexivity. Qed.

Lemma zlen_array_payload_lower es els :
  Z.of_nat es * Z.of_nat (length els) <= zlen (array_payload es els).
Proof.
induction els as [| e els IH].
- rewrite zlen_array_payload_nil. cbn [length]. lia.
- rewrite zlen_array_payload_cons. pose proof (zlen_nonneg e). cbn [length]. lia.
Qed.

(** The element that starts at the end of [front]: its prefix and its bytes. *)
Lemma load_element_prefix es (front e rest : list byte) :
  zlen e < 2 ^ (Z.of_nat es * 8) ->
  le_combine (load (front ++ element_bytes es e ++ rest) (zlen front) (Z.of_nat es)) = zlen e.
Proof.
intros He. unfold element_bytes. rewrite <- app_assoc.
rewrite (load_mid front (le_split es (zlen e)) (e ++ rest)) by
  (try reflexivity; symmetry; apply zlen_le_split).
apply le_combine_le_split_small. split; [apply zlen_nonneg | exact He].
Qed.

Lemma load_element_bytes es (front e rest : list byte) :
  load (front ++ element_bytes es e ++ rest) (zlen front + Z.of_nat es) (zlen e) = e.
Proof.
unfold element_bytes. rewrite <- app_assoc, app_assoc.
apply load_mid; [| reflexivity].
rewrite zlen_app, zlen_le_split. reflexivity.
Qed.

(** The loop of [Initialize] over a well-formed payload: it walks every
    element and ends at the end of the payload. *)
Lemma init_loop_payload es :
  (es = 2 \/ es = 4)%nat ->
  forall els front back count fuel p endp,
    p = zlen front ->
    endp = p + zlen (array_payload es els) ->
    Forall (fun e => zlen e < 2 ^ (Z.of_nat es * 8)) els ->
    (es = 4%nat \/ els = [] \/ 2 <= zlen (List.last els [])) ->
    (length els <= fuel)%nat ->
    zlen (array_payload es els) < 2 ^ 64 ->
    0 <= count ->
    count + Z.of_nat (length els) < 2 ^ 32 ->
    init_loop little fuel es (front ++ array_payload es els ++ back) p endp count
    = Some (endp, count + Z.of_nat (length els), false).
Proof.
intros Hes. induction els as [| e els IH];
  intros front back count fuel p endp Hp Hend Hall Hlast Hfuel Hsz Hc Hcn.
- rewrite zlen_array_payload_nil, Z.add_0_r in Hend. subst endp.
  destruct fuel; cbn [init_loop]; rewrite Z.ltb_irrefl; cbn [length]; repeat f_equal; lia.
- destruct fuel as [| fuel]; [cbn in Hfuel; lia |].
  rewrite zlen_array_payload_cons in Hend, Hsz.
  inversion Hall as [| ? ? He Hall']; subst.
  pose proof (zlen_nonneg e) as Hze.
  pose proof (zlen_nonneg (array_payload es els)) as Hzp.
  assert (Hes_pos : 2 <= Z.of_nat es <= 4) by (destruct Hes as [-> | ->]; lia).
  cbn [init_loop].
  replace (zlen front <? zlen front + (Z.of_nat es + zlen e + zlen (array_payload es els)))
    with true by (symmetry; apply Z.ltb_lt; lia).
  assert (Hfour : 4 <= Z.of_nat es + zlen e + zlen (array_payload es els)).
  { destruct Hlast as [-> | [Hnil | Hl]]; [lia | discriminate Hnil |].
    destruct els as [| e' els'].
    - cbn in Hl. lia.
    - rewrite zlen_array_payload_cons. pose proof (zlen_nonneg e').
      pose proof (zlen_nonneg (array_payload es els')). lia. }
  rewrite CanAccessBuffer_true by (change (Z.of_nat sizeof_FieldSize) with 4; lia).
  cbn [negb of_native].
  rewrite array_payload_cons, <- app_assoc.
  rewrite load_element_prefix by exact He.
  rewrite CanAccessBuffer_true by lia.
  cbn [negb].
  assert (Hw : wrap32 (count + 1) = count + 1)
    by (unfold wrap32; apply Z.mod_small; cbn [length] in Hcn; lia).
  rewrite Hw.
  rewrite (app_assoc front (element_bytes es e)).
  rewrite (IH (front ++ element_bytes es e) back (count + 1) fuel
             (zlen front + Z.of_nat es + zlen e)
             (zlen front + (Z.of_nat es + zlen e + zlen (array_payload es els)))).
  + replace (count + Z.of_nat (length (e :: els))) with (count + 1 + Z.of_nat (length els))
      by (cbn [length]; lia).
    reflexivity.
  + rewrite zlen_app, zlen_element_bytes. lia.
  + lia.
  + exact Hall'.
  + destruct Hlast as [H4 | [Hnil | Hl]]; [left; exact H4 | discriminate Hnil |].
    destruct els as [| e' els']; [right; left; reflexivity | right; right; exact Hl].
  + cbn [length] in Hfuel. lia.
  + lia.
  + lia.
  + cbn [length] in Hcn. lia.
Qed.

(** The range-based [for] over a well-formed payload yields its elements. *)
Lemma iterate_payload es :
  forall els front back fuel p endp i j,
    p = zlen front ->
    endp = p + zlen (array_payload es els) ->
    (0 < es)%nat ->
    Forall (fun e => zlen e < 2 ^ (Z.of_nat es * 8)) els ->
    (length els < fuel)%nat ->
    iterate little fuel es (front ++ array_payload es els ++ back)
      (mkBaseIterator p endp i) (mkBaseIterator endp endp j)
    = els.
Proof.
induction els as [| e els IH]; intros front back fuel p endp i j Hp Hend Hes Hall Hfuel.
- rewrite zlen_array_payload_nil, Z.add_0_r in Hend. subst endp.
  destruct fuel; [cbn in Hfuel; lia |].
  cbn [iterate]. unfold iterator_eq. cbn [m_current_ptr]. rewrite Z.eqb_refl. reflexivity.
- destruct fuel as [| fuel]; [cbn in Hfuel; lia |].
  rewrite zlen_array_payload_cons in Hend.
  inversion Hall as [| ? ? He Hall']; subst.
  pose proof (zlen_nonneg e) as Hze.
  pose proof (zlen_nonneg (array_payload es els)) as Hzp.
  cbn [iterate]. unfold iterator_eq. cbn [m_current_ptr].
  replace (zlen front =? zlen front + (Z.of_nat es + zlen e + zlen (array_payload es els)))
    with false by (symmetry; apply Z.eqb_neq; lia).
  unfold deref, CurrentElement, Advance. cbn [m_current_ptr m_end_ptr m_index of_native].
  rewrite array_payload_cons, <- app_assoc.
  rewrite load_element_prefix by exact He.
  rewrite load_element_bytes.
  f_equal.
  rewrite (app_assoc front (element_bytes es e)).
  apply IH.
  + rewrite zlen_app, zlen_element_bytes. lia.
  + lia.
  + exact Hes.
  + exact Hall'.
  + cbn [length] in Hfuel. lia.
Qed.

(** The iterator that [GetElement] builds for an index inside a
    well-formed payload stands on that element. *)
Lemma advance_to_element es :
  forall els front back k e endp i,
    Forall (fun e => zlen e < 2 ^ (Z.of_nat es * 8)) els ->
    nth_error els k = Some e ->
    exists at_ rest j,
      Nat.iter k (Advance little es (front ++ array_payload es els ++ back))
        (mkBaseIterator (zlen front) endp i)
      = mkBaseIterator (zlen at_) endp j
      /\ front ++ array_payload es els ++ back = at_ ++ element_bytes es e ++ rest.
Proof.
intros els front back k. revert els front back.
induction k as [| k IH]; intros els front back e endp i Hall Hk.
- destruct els as [| e0 els]; [discriminate Hk |]. injection Hk as ->.
  exists front, (array_payload es els ++ back), i. split; [reflexivity |].
  rewrite array_payload_cons, <- app_assoc. reflexivity.
- destruct els as [| e0 els]; [discriminate Hk |]. cbn [nth_error] in Hk.
  inversion Hall as [| ? ? He0 Hall']; subst.
  rewrite Nat.iter_succ_r.
  unfold Advance at 2. cbn [m_current_ptr m_end_ptr m_index of_native].
  rewrite array_payload_cons, <- app_assoc.
  rewrite load_element_prefix by exact He0.
  rewrite (app_assoc front (element_bytes es e0)).
  replace (zlen front + (Z.of_nat es + zlen e0)) with (zlen (front ++ element_bytes es e0))
    by (rewrite zlen_app, zlen_element_bytes; reflexivity).
  apply IH; assumption.
Qed.

(** The loop of [Initialize] over the well-formed front of a payload that
    goes on for at least the rest of a 32-bit prefix: it walks the front
    and continues behind it. *)
Lemma init_loop_walk es :
  (es = 2 \/ es = 4)%nat ->
  forall els front back count fuel p endp,
    p = zlen front ->
    Forall (fun e => zlen e < 2 ^ (Z.of_nat es * 8)) els ->
    4 - Z.of_nat es <= endp - (p + zlen (array_payload es els)) ->
    endp - p < 2 ^ 64 ->
    0 <= count ->
    count + Z.of_nat (length els) < 2 ^ 32 ->
    init_loop little (length els + fuel) es (front ++ array_payload es els ++ back) p endp count
    = init_loop little fuel es (front ++ array_payload es els ++ back)
        (p + zlen (array_payload es els)) endp (count + Z.of_nat (length els)).
Proof.
intros Hes. induction els as [| e els IH];
  intros front back count fuel p endp Hp Hall Htail Hsz Hc Hcn.
- rewrite zlen_array_payload_nil. cbn [length Nat.add]. rewrite !Z.add_0_r. reflexivity.
- rewrite zlen_array_payload_cons in Htail |- *.
  inversion Hall as [| ? ? He Hall']; subst.
  pose proof (zlen_nonneg e) as Hze.
  pose proof (zlen_nonneg (array_payload es els)) as Hzp.
  assert (Hes_pos : 2 <= Z.of_nat es <= 4) by (destruct Hes as [-> | ->]; lia).
  cbn [length Nat.add init_loop].
  replace (zlen front <? endp) with true by (symmetry; apply Z.ltb_lt; lia).
  rewrite CanAccessBuffer_true by (change (Z.of_nat sizeof_FieldSize) with 4; lia).
  cbn [negb of_native].
  rewrite array_payload_cons, <- app_assoc.
  rewrite load_element_prefix by exact He.
  rewrite CanAccessBuffer_true by lia.
  cbn [negb].
  assert (Hw : wrap32 (count + 1) = count + 1)
    by (unfold wrap32; apply Z.mod_small; cbn [length] in Hcn; lia).
  rewrite Hw.
  rewrite (app_assoc front (element_bytes es e)).
  rewrite (IH (front ++ element_bytes es e) back (count + 1) fuel
             (zlen front + Z.of_nat es + zlen e) endp).
  + f_equal.
    * lia.
    * cbn [length]. lia.
  + rewrite zlen_app, zlen_element_bytes. lia.
  + exact Hall'.
  + lia.
  + lia.
  + lia.
  + cbn [length] in Hcn. lia.
Qed.

Lemma GetArraySize_payload (pre payload post : list byte) :
  zlen payload < 2 ^ 32 ->
  GetArraySize little (pre ++ le_split 4 (zlen payload) ++ payload ++ post) (zlen pre)
  = zlen payload.
Proof.
intros Hsz. unfold GetArraySize. cbn [of_native].
rewrite (load_mid pre (le_split 4 (zlen payload)) (payload ++ post)) by
  (try reflexivity; symmetry; apply zlen_le_split).
apply le_combine_le_split_small. split; [apply zlen_nonneg | exact Hsz].
Qed.

(** The reader over a well-formed payload. *)
Lemma array_reader_payload es els (pre post : list byte) :
  (es = 2 \/ es = 4)%nat ->
  Forall (fun e => zlen e < 2 ^ (Z.of_nat es * 8)) els ->
  zlen (array_payload es els) < 2 ^ 32 ->
  (es = 4%nat \/ els = [] \/ 2 <= zlen (List.last els [])) ->
  let mem := pre ++ le_split 4 (zlen (array_payload es els)) ++ array_payload es els ++ post in
  let a := ArrayReader_new little es mem (zlen pre) in
  ArrayReader_IsValid a = true
  /\ ArrayReader_Size a = Z.of_nat (length els)
  /\ elements little es mem a = els
  /\ forall k e,
       nth_error els k = Some e ->
       exists at_ rest,
         ArrayReader_GetElement little es mem a (Z.of_nat k) = Some (zlen at_, zlen e)
         /\ mem = at_ ++ element_bytes es e ++ rest
         /\ load mem (zlen at_ + Z.of_nat es) (zlen e) = e.
Proof.
intros Hes Hall Hsz Hlast mem a.
set (front := pre ++ le_split 4 (zlen (array_payload es els))).
assert (Hmem : mem = front ++ (array_payload es els) ++ post).
{ unfold mem, front. rewrite <- app_assoc. reflexivity. }
assert (Hfront : zlen front = zlen pre + 4).
{ unfold front. rewrite zlen_app, zlen_le_split. reflexivity. }
assert (Hsize : GetArraySize little mem (zlen pre) = zlen (array_payload es els)).
{ apply GetArraySize_payload. exact Hsz. }
pose proof (zlen_nonneg (array_payload es els)) as HP.
pose proof (zlen_array_payload_lower es els) as Hlow.
assert (Hes_pos : 2 <= Z.of_nat es <= 4) by (destruct Hes as [-> | ->]; lia).
assert (Ha : a = mkArrayReader (zlen pre) (Z.of_nat (length els)) true).
{ unfold a, ArrayReader_new, Initialize. rewrite Hsize.
  change (Z.of_nat sizeof_FieldSize) with 4.
  rewrite Hmem.
  rewrite (init_loop_payload es Hes els front post 0 (Z.to_nat (zlen (array_payload es els)))
             (zlen pre + 4) (zlen pre + 4 + zlen (array_payload es els)));
    try assumption; try lia.
  rewrite Z.eqb_refl. reflexivity. }
rewrite Ha. cbn [ArrayReader_IsValid ArrayReader_Size m_valid m_element_count].
split; [reflexivity | split; [reflexivity |]].
split.
- unfold elements, ArrayReader_begin, ArrayReader_end, BaseIterator_new.
  cbn [ArrayReader_IsValid m_valid m_array m_element_count]. rewrite Hsize.
  change (Z.of_nat sizeof_FieldSize) with 4.
  cbn [Z.to_nat Nat.iter]. unfold Nat.iter at 1. cbn [nat_rect].
  rewrite Hmem. apply iterate_payload; try assumption; try lia.
- intros k e Hk.
  destruct (advance_to_element es els front post k e (zlen pre + 4 + zlen (array_payload es els)) (Z.of_nat k)
              Hall Hk) as (at_ & rest & j & Hit & Hsplit).
  rewrite <- Hmem in Hit, Hsplit.
  exists at_, rest. split; [| split; [exact Hsplit | rewrite Hsplit; apply load_element_bytes]].
  + unfold ArrayReader_GetElement.
    cbn [ArrayReader_IsValid m_valid m_array m_element_count negb orb].
    replace (Z.of_nat (length els) <=? Z.of_nat k) with false.
    2:{ symmetry. apply Z.leb_gt. apply Nat2Z.inj_lt. apply nth_error_Some. congruence. }
    unfold BaseIterator_new. rewrite Hsize, Nat2Z.id.
    change (Z.of_nat sizeof_FieldSize) with 4.
    rewrite <- Hfront, Hfront at 1.
    rewrite <- Hfront in Hit. rewrite Hfront in Hit at 2.
    replace (zlen pre + 4) with (zlen front) at 1 by exact Hfront.
    rewrite Hit. unfold CurrentElement. cbn [m_current_ptr of_native].
    rewrite Hsplit. rewrite load_element_prefix; [reflexivity |].
    rewrite List.Forall_forall in Hall. apply Hall. eapply nth_error_In. exact Hk.
Qed.

(** X21. An array reader reads back a well-formed payload.  On a
    little-endian host, over an array of elements that each fit their length
    prefix (16 bits for strings, 32 bits for blobs and objects), the reader is
    valid, its size is the number of elements, the range-based [for] yields
    the elements in order, and [GetElement] finds each one at its index,
    with its size and at the place where its bytes lie:
    provided, for a string array, that the array is empty or its last string
    has at least two bytes. *)
Theorem array_reader_reads_back_a_well_formed_payload es els (pre post : list byte) :
  (es = 2 \/ es = 4)%nat ->
  Forall (fun e => zlen e < 2 ^ (Z.of_nat es * 8)) els ->
  zlen (array_payload es els) < 2 ^ 32 ->
  (es = 4%nat \/ els = [] \/ 2 <= zlen (List.last els [])) ->
  let mem := pre ++ le_split 4 (zlen (array_payload es els)) ++ array_payload es els ++ post in
  let a := ArrayReader_new little es mem (zlen pre) in
  ArrayReader_IsValid a = true
  /\ ArrayReader_Size a = Z.of_nat (length els)
  /\ elements little es mem a = els
  /\ forall k e,
       nth_error els k = Some e ->
       exists at_ rest,
         ArrayReader_GetElement little es mem a (Z.of_nat k) = Some (zlen at_, zlen e)
         /\ mem = at_ ++ element_bytes es e ++ rest
         /\ load mem (zlen at_ + Z.of_nat es) (zlen e) = e.
Proof. apply array_reader_payload. Qed.

Lemma array_reader_reads_back_a_well_formed_payload_witness :
  let els := [bytes_of_string "ab"; bytes_of_string "cde"] in
  let mem := le_split 4 (zlen (array_payload 2 els)) ++ array_payload 2 els in
  elements little 2 mem (ArrayReader_new little 2 mem 0) = els.
Proof.
intros els mem.
pose proof (array_reader_reads_back_a_well_formed_payload 2 els [] []) as H.
cbv zeta in H. rewrite !app_nil_r in H.
apply H.
- left. reflexivity.
- repeat constructor.
- reflexivity.
- right. right. vm_compute. discriminate.
Defined.

(** X22. A string array whose last string is empty or has one byte is
    always rejected.  On a little-endian host, whatever strings come before
    it, the reader over the array is invalid, reports no element and iterates
    over nothing: before it reads a two-byte string prefix, the loop of
    [Initialize] asks for the four bytes of a 32-bit prefix, which the last
    element does not have. *)
Theorem string_array_ending_in_a_short_string_is_rejected els last_ (pre post : list byte) :
  Forall (fun e => zlen e < 2 ^ 16) els ->
  zlen last_ < 2 ->
  zlen (array_payload 2 (els ++ [last_])) < 2 ^ 32 ->
  let mem :=
    pre ++ le_split 4 (zlen (array_payload 2 (els ++ [last_])))
      ++ array_payload 2 (els ++ [last_]) ++ post in
  let a := ArrayReader_new little 2 mem (zlen pre) in
  ArrayReader_IsValid a = false
  /\ ArrayReader_Size a = 0
  /\ elements little 2 mem a = []
  /\ forall index, ArrayReader_GetElement little 2 mem a index = None.
Proof.
intros Hall Hlast Hsz mem a.
assert (Hpay : array_payload 2 (els ++ [last_])
               = array_payload 2 els ++ element_bytes 2 last_).
{ unfold array_payload. rewrite map_app, concat_app. cbn [map concat].
  rewrite app_nil_r. reflexivity. }
set (front := pre ++ le_split 4 (zlen (array_payload 2 (els ++ [last_])))).
assert (Hmem : mem = front ++ array_payload 2 els ++ (element_bytes 2 last_ ++ post)).
{ unfold mem, front. rewrite Hpay, <- !app_assoc. reflexivity. }
assert (Hfront : zlen front = zlen pre + 4).
{ unfold front. rewrite zlen_app, zlen_le_split. reflexivity. }
assert (Hsize : GetArraySize little mem (zlen pre) = zlen (array_payload 2 (els ++ [last_]))).
{ apply GetArraySize_payload. exact Hsz. }
assert (Hlen : zlen (array_payload 2 (els ++ [last_]))
               = zlen (array_payload 2 els) + 2 + zlen last_).
{ rewrite Hpay, zlen_app, zlen_element_bytes. change (Z.of_nat 2) with 2. lia. }
pose proof (zlen_nonneg last_) as Hzl.
pose proof (zlen_nonneg (array_payload 2 els)) as Hzp.
pose proof (zlen_array_payload_lower 2 els) as Hlow. change (Z.of_nat 2) with 2 in Hlow.
assert (Ha : a = mkArrayReader (zlen pre) 0 false).
{ unfold a, ArrayReader_new, Initialize. rewrite Hsize.
  change (Z.of_nat sizeof_FieldSize) with 4.
  rewrite Hmem.
  replace (Z.to_nat (zlen (array_payload 2 (els ++ [last_]))))
    with (length els + S (Z.to_nat (zlen (array_payload 2 (els ++ [last_]))) - S (length els)))%nat
    by lia.
  rewrite (init_loop_walk 2 (or_introl eq_refl) els front (element_bytes 2 last_ ++ post) 0 _
             (zlen pre + 4) (zlen pre + 4 + zlen (array_payload 2 (els ++ [last_]))));
    try assumption; try (change (Z.of_nat 2) with 2; lia).
  cbn [init_loop].
  replace (zlen pre + 4 + zlen (array_payload 2 els)
           <? zlen pre + 4 + zlen (array_payload 2 (els ++ [last_])))
    with true by (symmetry; apply Z.ltb_lt; lia).
  replace (CanAccessBuffer (zlen pre + 4 + zlen (array_payload 2 els))
             (zlen pre + 4 + zlen (array_payload 2 (els ++ [last_])))
             (Z.of_nat sizeof_FieldSize))
    with false; [reflexivity |].
  symmetry. unfold CanAccessBuffer, wrap64. change (Z.of_nat sizeof_FieldSize) with 4.
  rewrite Z.mod_small by lia. apply Z.leb_gt. lia. }
rewrite Ha.
split; [reflexivity | split; [reflexivity | split]].
- unfold elements, ArrayReader_begin, ArrayReader_end.
  cbn [ArrayReader_IsValid m_valid m_array m_element_count].
  cbn [iterate]. unfold iterator_eq. rewrite Z.eqb_refl. reflexivity.
- intros index. reflexivity.
Qed.

Lemma string_array_ending_in_a_short_string_is_rejected_witness :
  let els := [bytes_of_string "first"] in
  let last_ := bytes_of_string "x" in
  let mem := le_split 4 (zlen (array_payload 2 (els ++ [last_])))
               ++ array_payload 2 (els ++ [last_]) in
  ArrayReader_IsValid (ArrayReader_new little 2 mem 0) = false.
Proof.
intros els last_ mem.
pose proof (string_array_ending_in_a_short_string_is_rejected els last_ [] []) as H.
cbv zeta in H. rewrite !app_nil_r in H.
apply H.
- repeat constructor.
- reflexivity.
- reflexivity.
Defined.

(** X23. A blob or object array whose last element is cut off is accepted
    as a valid, empty array.  On a little-endian host, when the payload ends
    in a 32-bit prefix that promises [n > 0] bytes of which none is there, the
    loop of [Initialize] leaves through [Invalidate(); break;] with the
    cursor exactly at the end of the payload: the reader is valid with
    size 0, [begin()] differs from [end()], and the iterator advanced over the
    elements passes the end of the array by [n] bytes without ever being
    equal to [end()]. *)
Theorem array_with_a_cut_off_last_element_is_accepted_as_empty els n (pre post : list byte) :
  Forall (fun e => zlen e < 2 ^ 32) els ->
  0 < n < 2 ^ 32 ->
  zlen (array_payload 4 els) + 4 < 2 ^ 32 ->
  let payload := array_payload 4 els ++ le_split 4 n in
  let mem := pre ++ le_split 4 (zlen payload) ++ payload ++ post in
  let a := ArrayReader_new little 4 mem (zlen pre) in
  ArrayReader_IsValid a = true
  /\ ArrayReader_Size a = 0
  /\ ArrayReader_GetElement little 4 mem a 0 = None
  /\ iterator_eq (ArrayReader_begin little 4 mem a) (ArrayReader_end little 4 mem a) = false
  /\ m_current_ptr
       (Nat.iter (S (length els)) (Advance little 4 mem) (ArrayReader_begin little 4 mem a))
     = m_current_ptr (ArrayReader_end little 4 mem a) + n.
Proof.
intros Hall Hn Hsz payload mem a.
set (front := pre ++ le_split 4 (zlen payload)).
assert (Hmem : mem = front ++ array_payload 4 els ++ (le_split 4 n ++ post)).
{ unfold mem, front, payload. rewrite <- !app_assoc. reflexivity. }
assert (Hfront : zlen front = zlen pre + 4).
{ unfold front. rewrite zlen_app, zlen_le_split. reflexivity. }
assert (Hlen : zlen payload = zlen (array_payload 4 els) + 4).
{ unfold payload. rewrite zlen_app, zlen_le_split. reflexivity. }
assert (Hsize : GetArraySize little mem (zlen pre) = zlen payload).
{ apply GetArraySize_payload. lia. }
pose proof (zlen_nonneg (array_payload 4 els)) as Hzp.
pose proof (zlen_array_payload_lower 4 els) as Hlow. change (Z.of_nat 4) with 4 in Hlow.
assert (Hprefix : le_combine (load mem (zlen pre + 4 + zlen (array_payload 4 els)) 4) = n).
{ rewrite Hmem, app_assoc.
  rewrite (load_mid (front ++ array_payload 4 els) (le_split 4 n) post).
  - apply le_combine_le_split_small. change (Z.of_nat 4 * 8) with 32. lia.
  - rewrite zlen_app. lia.
  - symmetry. apply zlen_le_split. }
assert (Ha : a = mkArrayReader (zlen pre) 0 true).
{ unfold a, ArrayReader_new, Initialize. rewrite Hsize.
  change (Z.of_nat sizeof_FieldSize) with 4.
  replace (Z.to_nat (zlen payload))
    with (length els + S (Z.to_nat (zlen payload) - S (length els)))%nat by lia.
  rewrite Hmem at 1.
  rewrite (init_loop_walk 4 (or_intror eq_refl) els front (le_split 4 n ++ post) 0 _
             (zlen pre + 4) (zlen pre + 4 + zlen payload));
    try assumption; try (change (Z.of_nat 4) with 4; lia).
  rewrite <- Hmem.
  cbn [init_loop].
  replace (zlen pre + 4 + zlen (array_payload 4 els) <? zlen pre + 4 + zlen payload)
    with true by (symmetry; apply Z.ltb_lt; lia).
  rewrite CanAccessBuffer_true by (change (Z.of_nat sizeof_FieldSize) with 4; lia).
  cbn [negb of_native]. change (Z.of_nat 4) with 4. rewrite Hprefix.
  replace (CanAccessBuffer (zlen pre + 4 + zlen (array_payload 4 els) + 4)
             (zlen pre + 4 + zlen payload) n)
    with false.
  2:{ symmetry. unfold CanAccessBuffer, wrap64.
      replace (zlen pre + 4 + zlen payload - (zlen pre + 4 + zlen (array_payload 4 els) + 4))
        with 0 by lia.
      apply Z.leb_gt. change (0 mod 2 ^ 64) with 0. lia. }
  cbn [negb].
  replace (zlen pre + 4 + zlen (array_payload 4 els) + 4 =? zlen pre + 4 + zlen payload)
    with true by (symmetry; apply Z.eqb_eq; lia).
  reflexivity. }
rewrite Ha.
assert (Hbegin : ArrayReader_begin little 4 mem (mkArrayReader (zlen pre) 0 true)
                 = mkBaseIterator (zlen front) (zlen pre + 4 + zlen payload) 0).
{ unfold ArrayReader_begin, BaseIterator_new.
  cbn [ArrayReader_IsValid m_valid m_array]. rewrite Hsize, Hfront. reflexivity. }
assert (Hend : ArrayReader_end little 4 mem (mkArrayReader (zlen pre) 0 true)
               = mkBaseIterator (zlen pre + 4 + zlen payload) (zlen pre + 4 + zlen payload) 0).
{ unfold ArrayReader_end, BaseIterator_new. cbn [m_array m_element_count].
  rewrite Hsize. reflexivity. }
rewrite Hbegin, Hend.
split; [reflexivity | split; [reflexivity | split; [reflexivity | split]]].
- unfold iterator_eq. cbn [m_current_ptr]. apply Z.eqb_neq. lia.
- assert (Hwalk : forall k (l : list (list byte)) fr bk i,
            length l = k ->
            Forall (fun e => zlen e < 2 ^ 32) l ->
            exists j,
              Nat.iter k (Advance little 4 (fr ++ array_payload 4 l ++ bk))
                (mkBaseIterator (zlen fr) (zlen pre + 4 + zlen payload) i)
              = mkBaseIterator (zlen fr + zlen (array_payload 4 l))
                  (zlen pre + 4 + zlen payload) j).
  { induction k as [| k IH]; intros l fr bk i Hl Hf.
    - destruct l; [| discriminate Hl]. exists i. cbn [Nat.iter nat_rect].
      rewrite zlen_array_payload_nil, Z.add_0_r. reflexivity.
    - destruct l as [| e0 l]; [discriminate Hl |]. injection Hl as Hl.
      pose proof (List.Forall_inv Hf) as He0. cbv beta in He0.
      pose proof (List.Forall_inv_tail Hf) as Hf'.
      rewrite Nat.iter_succ_r.
      unfold Advance at 2. cbn [m_current_ptr m_end_ptr m_index of_native].
      rewrite array_payload_cons, <- app_assoc.
      rewrite (load_element_prefix 4) by exact He0.
      rewrite (app_assoc fr (element_bytes 4 e0)).
      replace (zlen fr + (Z.of_nat 4 + zlen e0)) with (zlen (fr ++ element_bytes 4 e0))
        by (rewrite zlen_app, zlen_element_bytes; reflexivity).
      destruct (IH l (fr ++ element_bytes 4 e0) bk (wrap32 (i + 1)) Hl Hf') as (j & Hj).
      exists j. rewrite Hj. f_equal.
      rewrite zlen_app, zlen_element_bytes, zlen_app, zlen_element_bytes. lia. }
  destruct (Hwalk (length els) els front (le_split 4 n ++ post) 0 eq_refl Hall) as (j & Hj).
  rewrite <- Hmem in Hj.
  rewrite Nat.iter_succ, Hj. unfold Advance. cbn [m_current_ptr of_native].
  rewrite Hfront. change (Z.of_nat 4) with 4. rewrite Hprefix. lia.
Qed.

Lemma array_with_a_cut_off_last_element_is_accepted_as_empty_witness :
  let els := [bytes_of_string "blob"] in
  let payload := array_payload 4 els ++ le_split 4 5 in
  let mem := le_split 4 (zlen payload) ++ payload in
  ArrayReader_IsValid (ArrayReader_new little 4 mem 0) = true
  /\ ArrayReader_Size (ArrayReader_new little 4 mem 0) = 0.
Proof.
intros els payload mem.
pose proof (array_with_a_cut_off_last_element_is_accepted_as_empty els 5 [] []) as H.
cbv zeta in H. rewrite !app_nil_r in H.
destruct H as (H1 & H2 & _).
- repeat constructor.
- split; reflexivity.
- reflexivity.
- split; [exact H1 | exact H2].
Defined.

(** ** The validation loop over a sequence of well-formed registers *)

Lemma load_prefix_of (front payload rest : list byte) k :
  Z.of_nat k <= zlen payload ->
  load (front ++ payload ++ rest) (zlen front) (Z.of_nat k) = firstn k payload.
Proof.
intros Hk.
rewrite <- (firstn_skipn k payload) at 1. rewrite <- app_assoc.
apply load_mid; [reflexivity |].
unfold zlen in *. rewrite length_firstn. lia.
Qed.

Lemma prefixed_spec k payload :
  prefixed k payload = true ->
  Z.of_nat k <= zlen payload /\ le_combine (firstn k payload) = zlen payload - Z.of_nat k.
Proof.
unfold prefixed. intros H. apply andb_true_iff in H. destruct H as [H1 H2].
apply Z.leb_le in H1. apply Z.eqb_eq in H2. split; assumption.
Qed.

Lemma inline_type_is_primitive ty n :
  inline_size ty = Some n -> IsArrayType ty = false /\ IsVectorType ty = false.
Proof.
intros Hi. split.
- destruct (IsArrayType ty) eqn:E; [| reflexivity].
  apply array_type_is_not_inline in E. congruence.
- destruct (IsVectorType ty) eqn:E; [| reflexivity].
  apply vector_type_is_not_inline in E. destruct E as [_ E]. congruence.
Qed.

(** [read_entry] on a payload that fits its type: the entry, and the
    cursor at the end of the payload. *)
Lemma read_entry_fits (front rest : list byte) ty payload e :
  payload_fits ty payload = true ->
  zlen front + zlen payload <= e ->
  e - zlen front < 2 ^ 64 ->
  read_entry little (front ++ payload ++ rest) ty (zlen front) e
  = (front ++ payload ++ rest,
     Some (entry_at (mkRegister (mkDataTag 0 []) ty payload) (zlen front),
           zlen front + zlen payload)).
Proof.
intros Hfit He H64.
pose proof (zlen_nonneg payload) as Hnn.
unfold entry_at. cbn [r_type r_payload].
unfold payload_fits in Hfit. unfold read_entry.
rewrite !ReadData_little.
destruct (IsArrayType ty) eqn:Ea.
{ apply prefixed_spec in Hfit. destruct Hfit as [H1 H2].
  rewrite (array_type_is_not_inline ty Ea).
  rewrite CanAccessBuffer_true by lia.
  rewrite load_prefix_of by exact H1. rewrite H2.
  replace (zlen front + Z.of_nat 4 + (zlen payload - Z.of_nat 4))
    with (zlen front + zlen payload) by lia.
  destruct (1 <? _); [destruct (wrap32 _ =? _) |]; rewrite ?adjust_switch_little; reflexivity. }
destruct (IsVectorType ty) eqn:Ev.
{ apply Z.eqb_eq in Hfit.
  destruct (vector_type_is_not_inline ty Ev) as [_ Hi]. rewrite Hi.
  rewrite <- Hfit.
  rewrite CanAccessBuffer_true by lia. cbn [negb].
  destruct (1 <? _); rewrite ?adjust_switch_little; reflexivity. }
destruct (IsPrimitiveType ty); [| discriminate Hfit]. cbn [negb] in Hfit.
assert (Hinl : forall n, inline_size ty = Some n ->
          zlen payload = Z.of_nat n ->
          match
            (if CanAccessBuffer (zlen front) e (Z.of_nat n)
             then Some (le_combine (load (front ++ payload ++ rest) (zlen front) (Z.of_nat n)),
                        zlen front + Z.of_nat n)
             else None)
          with
          | Some (v, read_ptr') =>
              (front ++ payload ++ rest, Some (mkCacheEntry ty (v_int n v), read_ptr'))
          | None => (front ++ payload ++ rest, None)
          end
          = (front ++ payload ++ rest,
             Some (mkCacheEntry ty (v_int n (le_combine payload)), zlen front + zlen payload))).
{ intros n Hi Hl. rewrite CanAccessBuffer_true by lia.
  rewrite (load_mid front payload rest) by (try reflexivity; symmetry; exact Hl).
  rewrite Hl. reflexivity. }
unfold inline_size in *.
destruct ((ty =? Boolean) || (ty =? UInt8) || (ty =? Int8)).
{ apply Z.eqb_eq in Hfit. apply Hinl; [reflexivity | exact Hfit]. }
destruct ((ty =? Float16) || (ty =? UInt16) || (ty =? Int16)).
{ apply Z.eqb_eq in Hfit. apply Hinl; [reflexivity | exact Hfit]. }
destruct ((ty =? Float32) || (ty =? UInt32) || (ty =? Int32)).
{ apply Z.eqb_eq in Hfit. apply Hinl; [reflexivity | exact Hfit]. }
destruct ((ty =? Float64) || (ty =? UInt64) || (ty =? Int64)).
{ apply Z.eqb_eq in Hfit. apply Hinl; [reflexivity | exact Hfit]. }
destruct (ty =? UUID).
{ apply Z.eqb_eq in Hfit. rewrite CanAccessBuffer_true by lia. cbn [negb].
  rewrite Hfit. reflexivity. }
destruct (ty =? String).
{ apply prefixed_spec in Hfit. destruct Hfit as [H1 H2].
  rewrite CanAccessBuffer_true by lia.
  rewrite load_prefix_of by exact H1. rewrite H2.
  replace (zlen front + Z.of_nat 2 + (zlen payload - Z.of_nat 2))
    with (zlen front + zlen payload) by lia.
  reflexivity. }
destruct ((ty =? Object) || (ty =? Binary)); [| discriminate Hfit].
apply prefixed_spec in Hfit. destruct Hfit as [H1 H2].
rewrite CanAccessBuffer_true by lia.
rewrite load_prefix_of by exact H1. rewrite H2.
replace (zlen front + Z.of_nat 4 + (zlen payload - Z.of_nat 4))
  with (zlen front + zlen payload) by lia.
reflexivity.
Qed.

Lemma zlen_register_bytes nb r :
  zlen (register_bytes nb r) = 1 + zlen (tag_bytes nb (r_tag r)) + zlen (r_payload r).
Proof. unfold register_bytes. rewrite !zlen_app, zlen_le_split. lia. Qed.

Lemma zlen_tag_bytes_mode nb tag :
  zlen (tag_bytes nb tag) = if nb then 1 + zlen (name tag) else 2.
Proof.
unfold tag_bytes. destruct nb.
- unfold zlen. cbn [length]. lia.
- apply zlen_le_split.
Qed.

(** One iteration of the loop on a well-formed register: the entry of
    the register, the cursor behind it, and the key as the tag has it. *)
Lemma read_register_wf nb (front rest : list byte) r e :
  well_formed nb r = true ->
  zlen front + zlen (register_bytes nb r) <= e ->
  e - zlen front < 2 ^ 64 ->
  exists tag_ptr tag_size,
    read_register little nb (front ++ register_bytes nb r ++ rest) (zlen front) e
    = (front ++ register_bytes nb r ++ rest,
       Some (tag_ptr, tag_size,
             entry_at r (zlen front + 1 + zlen (tag_bytes nb (r_tag r))),
             zlen front + zlen (register_bytes nb r)))
    /\ if nb
       then load (front ++ register_bytes nb r ++ rest) tag_ptr tag_size = name (r_tag r)
       else le_combine (load (front ++ register_bytes nb r ++ rest) tag_ptr 2) = id (r_tag r).
Proof.
intros Hwf He H64.
destruct r as [tag ty payload]. cbn [r_tag r_type r_payload] in *.
unfold well_formed in Hwf. cbn [r_tag r_type r_payload] in Hwf.
rewrite !andb_true_iff in Hwf. destruct Hwf as [[[[Hty0 Hty1] Hvalid] Hfit] Htag].
apply Z.leb_le in Hty0. apply Z.ltb_lt in Hty1.
pose proof (zlen_nonneg payload) as Hnp.
pose proof (zlen_nonneg (name tag)) as Hnn.
rewrite zlen_register_bytes in He |- *. cbn [r_tag r_type r_payload] in He |- *.
rewrite zlen_tag_bytes_mode in He |- *.
assert (Hentry : forall fr,
          fr = front ++ le_split 1 ty ++ tag_bytes nb tag ->
          read_entry little (fr ++ payload ++ rest) ty (zlen fr) e
          = (fr ++ payload ++ rest,
             Some (entry_at (mkRegister tag ty payload) (zlen fr), zlen fr + zlen payload))).
{ intros fr Hfr. apply (read_entry_fits fr rest ty payload e Hfit).
  - rewrite Hfr, !zlen_app, zlen_le_split, zlen_tag_bytes_mode. destruct nb; lia.
  - rewrite Hfr, !zlen_app, zlen_le_split, zlen_tag_bytes_mode. destruct nb; lia. }
assert (Hmem : front ++ register_bytes nb (mkRegister tag ty payload) ++ rest
               = (front ++ le_split 1 ty ++ tag_bytes nb tag) ++ payload ++ rest).
{ unfold register_bytes. cbn [r_tag r_type r_payload]. rewrite <- !app_assoc. reflexivity. }
assert (Hfr : zlen (front ++ le_split 1 ty ++ tag_bytes nb tag)
              = zlen front + 1 + (if nb then 1 + zlen (name tag) else 2)).
{ rewrite !zlen_app, zlen_le_split, zlen_tag_bytes_mode. lia. }
specialize (Hentry _ eq_refl). rewrite Hfr in Hentry. rewrite <- Hmem in Hentry.
unfold read_register. rewrite ReadData_little.
rewrite CanAccessBuffer_true by (destruct nb; lia).
assert (Hload1 : load (front ++ register_bytes nb (mkRegister tag ty payload) ++ rest)
                   (zlen front) (Z.of_nat 1) = le_split 1 ty).
{ unfold register_bytes. cbn [r_tag r_type r_payload]. rewrite <- !app_assoc.
  apply load_mid; reflexivity. }
rewrite Hload1.
rewrite (le_combine_le_split_small 1 ty) by (change (2 ^ (Z.of_nat 1 * 8)) with 256; lia).
rewrite Hvalid. cbn [negb].
destruct nb.
- apply Z.leb_le in Htag.
  rewrite ReadData_little.
  rewrite CanAccessBuffer_true by lia.
  assert (Hload2 : load (front ++ register_bytes true (mkRegister tag ty payload) ++ rest)
                     (zlen front + Z.of_nat 1) (Z.of_nat 1)
                   = [byte.of_Z (zlen (name tag))]).
  { unfold register_bytes, tag_bytes. cbn [r_tag r_type r_payload].
    replace (wrap8 (zlen (name tag))) with (zlen (name tag))
      by (unfold wrap8; symmetry; apply Z.mod_small; lia).
    change (byte.of_Z (zlen (name tag)) :: name tag)
      with ([byte.of_Z (zlen (name tag))] ++ name tag).
    rewrite <- !app_assoc, (app_assoc front (le_split 1 ty)).
    apply load_mid; [| reflexivity].
    rewrite zlen_app, zlen_le_split. reflexivity. }
  rewrite Hload2.
  change (le_combine [byte.of_Z (zlen (name tag))])
    with (le_combine (le_split 1 (zlen (name tag)))).
  rewrite (le_combine_le_split_small 1 (zlen (name tag)))
    by (change (2 ^ (Z.of_nat 1 * 8)) with 256; lia).
  rewrite CanAccessBuffer_true by lia. cbn [negb].
  replace (zlen front + Z.of_nat 1 + Z.of_nat 1 + zlen (name tag))
    with (zlen front + 1 + (1 + zlen (name tag))) by lia.
  rewrite Hentry.
  replace (e <? zlen front + 1 + (1 + zlen (name tag)) + zlen payload) with false
    by (symmetry; apply Z.ltb_ge; lia).
  exists (zlen front + Z.of_nat 1 + Z.of_nat 1), (zlen (name tag)).
  replace (zlen front + (1 + (1 + zlen (name tag)) + zlen payload))
    with (zlen front + 1 + (1 + zlen (name tag)) + zlen payload) by lia.
  split; [reflexivity |].
  unfold register_bytes, tag_bytes. cbn [r_tag r_type r_payload].
  change (byte.of_Z (wrap8 (zlen (name tag))) :: name tag)
    with ([byte.of_Z (wrap8 (zlen (name tag)))] ++ name tag).
  rewrite <- !app_assoc.
  rewrite (app_assoc (le_split 1 ty)), (app_assoc front).
  apply load_mid; [| reflexivity].
  rewrite !zlen_app, zlen_le_split.
  change (zlen [byte.of_Z (wrap8 (zlen (name tag)))]) with 1. lia.
- apply andb_true_iff in Htag. destruct Htag as [Hid0 Hid1].
  apply Z.leb_le in Hid0. apply Z.ltb_lt in Hid1.
  rewrite CanAccessBuffer_true by lia. cbn [negb].
  replace (zlen front + Z.of_nat 1 + 2) with (zlen front + 1 + 2) by lia.
  rewrite Hentry.
  replace (e <? zlen front + 1 + 2 + zlen payload) with false
    by (symmetry; apply Z.ltb_ge; lia).
  exists (zlen front + Z.of_nat 1), 2.
  replace (zlen front + (1 + 2 + zlen payload))
    with (zlen front + 1 + 2 + zlen payload) by lia.
  split; [reflexivity |].
  unfold register_bytes, tag_bytes. cbn [r_tag r_type r_payload].
  rewrite <- !app_assoc, (app_assoc front).
  rewrite (load_mid (front ++ le_split 1 ty) (le_split 2 (id tag)) (payload ++ rest))
    by (try reflexivity; rewrite zlen_app, zlen_le_split; reflexivity).
  apply le_combine_le_split_small. change (2 ^ (Z.of_nat 2 * 8)) with (2 ^ 16). lia.
Qed.

Lemma emplace_lookup_eq `{Countable K} {V} (k k' : K) (v : V) (m : gmap K V) :
  emplace k v m !! k'
  = match m !! k' with
    | Some x => Some x
    | None => if decide (k = k') then Some v else None
    end.
Proof.
unfold emplace. destruct (m !! k) eqn:E.
- destruct (m !! k') eqn:E'; [reflexivity |].
  destruct (decide (k = k')) as [-> | _]; [congruence | reflexivity].
- destruct (decide (k = k')) as [<- | Hne].
  + rewrite lookup_insert_eq, E. reflexivity.
  + rewrite lookup_insert_ne by exact Hne. destruct (m !! k'); reflexivity.
Qed.

Lemma registers_bytes_cons nb r rs :
  registers_bytes nb (r :: rs) = register_bytes nb r ++ registers_bytes nb rs.
Proof. reflexivity. Qed.

Lemma zlen_register_bytes_pos nb r : 1 <= zlen (register_bytes nb r).
Proof.
rewrite zlen_register_bytes, zlen_tag_bytes_mode.
pose proof (zlen_nonneg (r_payload r)). pose proof (zlen_nonneg (name (r_tag r))).
destruct nb; lia.
Qed.

(** The loop of [CreateCache] over a sequence of well-formed registers:
    it ends without an error at the end of the sequence, the memory is as
    it was, and every key is filed with its first register, behind what the
    index held before. *)
Lemma scan_registers nb :
  forall rs (front back : list byte) s fuel buff_end,
    s_mem s = front ++ registers_bytes nb rs ++ back ->
    s_read_ptr s = zlen front ->
    s_errors s = false ->
    buff_end = zlen front + zlen (registers_bytes nb rs) ->
    Forall (fun r => well_formed nb r = true) rs ->
    (length rs <= fuel)%nat ->
    zlen (registers_bytes nb rs) < 2 ^ 64 ->
    s_errors (scan little fuel nb buff_end s) = false
    /\ s_read_ptr (scan little fuel nb buff_end s) = buff_end
    /\ s_mem (scan little fuel nb buff_end s) = s_mem s
    /\ forall tag,
         scan_lookup nb (scan little fuel nb buff_end s) tag
         = match scan_lookup nb s tag with
           | Some x => Some x
           | None => lookup_registers nb tag rs (zlen front)
           end.
Proof.
induction rs as [| r rs IH]; intros front back s fuel buff_end Hmem Hptr Herr Hend Hall Hfuel H64.
- change (registers_bytes nb []) with (@nil byte) in Hend.
  change (zlen []) with 0 in Hend. rewrite Z.add_0_r in Hend. subst buff_end.
  rewrite scan_done by (rewrite Hptr; apply Z.ltb_irrefl).
  repeat split; try assumption.
  intros tag. cbn [lookup_registers]. destruct (scan_lookup nb s tag); reflexivity.
- destruct fuel as [| fuel]; [cbn in Hfuel; lia |].
  pose proof (List.Forall_inv Hall) as Hr. cbv beta in Hr.
  pose proof (List.Forall_inv_tail Hall) as Hall'.
  rewrite registers_bytes_cons in Hmem, Hend, H64.
  rewrite zlen_app in Hend, H64.
  pose proof (zlen_register_bytes_pos nb r) as Hpos.
  pose proof (zlen_nonneg (registers_bytes nb rs)) as Hnn.
  rewrite <- app_assoc in Hmem.
  destruct (read_register_wf nb front (registers_bytes nb rs ++ back) r buff_end Hr)
    as (tag_ptr & tag_size & R & Hkey); [lia | lia |].
  rewrite <- Hmem in R, Hkey. rewrite <- Hptr in R at 1.
  assert (Hlt : (s_read_ptr s <? buff_end) = true) by (apply Z.ltb_lt; lia).
  cbn [scan]. rewrite Hlt, R.
  set (s1 := add_tag little nb (s_mem s) tag_ptr tag_size
               (entry_at r (zlen front + 1 + zlen (tag_bytes nb (r_tag r)))) s
               (zlen front + zlen (register_bytes nb r))).
  destruct (IH (front ++ register_bytes nb r) back s1 fuel buff_end)
    as (E1 & E2 & E3 & E4).
  + unfold s1, add_tag. destruct nb; cbn [s_mem]; rewrite Hmem, <- app_assoc; reflexivity.
  + unfold s1. rewrite add_tag_read_ptr, zlen_app. reflexivity.
  + unfold s1, add_tag. destruct nb; reflexivity.
  + rewrite zlen_app. lia.
  + exact Hall'.
  + cbn [length] in Hfuel. lia.
  + lia.
  + split; [exact E1 | split; [exact E2 | split]].
    * rewrite E3. unfold s1, add_tag. destruct nb; reflexivity.
    * intros tag. rewrite E4. cbn [lookup_registers].
      rewrite zlen_app.
      assert (Hs1 : scan_lookup nb s1 tag
                    = match scan_lookup nb s tag with
                      | Some x => Some x
                      | None =>
                          if same_key nb (r_tag r) tag
                          then Some (entry_at r (zlen front + 1 + zlen (tag_bytes nb (r_tag r))))
                          else None
                      end).
      { unfold s1, add_tag, scan_lookup, same_key, GetName, GetId.
        destruct nb; cbn [s_name_cache s_id_cache of_native];
          rewrite emplace_lookup_eq, Hkey.
        - destruct (s_name_cache s !! name tag); [reflexivity |].
          destruct (decide (name (r_tag r) = name tag)) as [E | E].
          + rewrite bool_decide_eq_true_2 by exact E. reflexivity.
          + rewrite bool_decide_eq_false_2 by exact E. reflexivity.
        - destruct (s_id_cache s !! id tag); [reflexivity |].
          destruct (decide (id (r_tag r) = id tag)) as [E | E].
          + rewrite (proj2 (Z.eqb_eq _ _) E). reflexivity.
          + rewrite (proj2 (Z.eqb_neq _ _) E). reflexivity. }
      rewrite Hs1.
      destruct (scan_lookup nb s tag); [reflexivity |].
      destruct (same_key nb (r_tag r) tag); reflexivity.
Qed.

Lemma ObjectReader_new_at (pre body post : list byte) nb :
  zlen body < 2 ^ 32 ->
  ObjectReader_new little (pre ++ document body ++ post) (Some (zlen pre)) nb
  = mkObjectReader (Some (zlen pre + 4)) (zlen body) nb false false ∅ ∅.
Proof.
intros Hsz. unfold ObjectReader_new, document. cbn [of_native].
change (Z.of_nat sizeof_FieldSize) with 4.
pose proof (zlen_nonneg body) as Hnn.
replace (wrap32 (zlen body)) with (zlen body)
  by (unfold wrap32; symmetry; apply Z.mod_small; lia).
rewrite <- app_assoc.
rewrite (load_mid pre (le_split 4 (zlen body)) (body ++ post))
  by (try reflexivity; symmetry; apply zlen_le_split).
rewrite le_combine_le_split_small by (change (2 ^ (Z.of_nat 4 * 8)) with (2 ^ 32); lia).
reflexivity.
Qed.

(** The index of a reader over an object made of well-formed registers. *)
Lemma CreateCache_registers nb rs (pre post : list byte) :
  Forall (fun r => well_formed nb r = true) rs ->
  rs <> [] ->
  zlen (registers_bytes nb rs) < 2 ^ 32 ->
  let mem := pre ++ document (registers_bytes nb rs) ++ post in
  exists r',
    CreateCache little (mem, ObjectReader_new little mem (Some (zlen pre)) nb) = (mem, r')
    /\ m_is_valid r' = true
    /\ Rd.m_name_based r' = nb
    /\ forall tag, lookup_cache r' tag = lookup_registers nb tag rs (zlen pre + 4).
Proof.
intros Hall Hne Hsz mem.
unfold mem at 2. rewrite ObjectReader_new_at by exact Hsz.
assert (Hpos : 0 < zlen (registers_bytes nb rs)).
{ destruct rs as [| r rs]; [congruence |].
  rewrite registers_bytes_cons, zlen_app.
  pose proof (zlen_register_bytes_pos nb r). pose proof (zlen_nonneg (registers_bytes nb rs)).
  lia. }
assert (Hlen : (length rs <= Z.to_nat (zlen (registers_bytes nb rs)))%nat).
{ clear - nb. induction rs as [| r rs IH]; [cbn; lia |].
  rewrite registers_bytes_cons, zlen_app.
  pose proof (zlen_register_bytes_pos nb r). pose proof (zlen_nonneg (registers_bytes nb rs)).
  cbn [length]. lia. }
unfold CreateCache.
cbn [Rd.m_cache_built Rd.m_buffer Rd.m_size Rd.m_name_based Rd.m_id_cache Rd.m_name_cache].
replace (zlen (registers_bytes nb rs) =? 0) with false by (symmetry; apply Z.eqb_neq; lia).
set (s0 := mkScan mem (zlen pre + 4) false (if nb then ∅ else ∅) (if nb then ∅ else ∅)).
destruct (scan_registers nb rs (pre ++ le_split 4 (wrap32 (zlen (registers_bytes nb rs))))
            post s0 (Z.to_nat (zlen (registers_bytes nb rs)))
            (zlen pre + 4 + zlen (registers_bytes nb rs)))
  as (E1 & E2 & E3 & E4).
- unfold s0, mem, document. cbn [s_mem]. rewrite <- !app_assoc. reflexivity.
- unfold s0. cbn [s_read_ptr]. rewrite zlen_app, zlen_le_split. reflexivity.
- reflexivity.
- rewrite zlen_app, zlen_le_split. reflexivity.
- exact Hall.
- exact Hlen.
- lia.
- eexists. split; [rewrite E3; reflexivity |].
  cbn [Rd.m_is_valid Rd.m_name_based]. rewrite E1, E2, Z.eqb_refl.
  split; [reflexivity | split; [reflexivity |]].
  intros tag. unfold lookup_cache. cbn [Rd.m_name_based Rd.m_name_cache Rd.m_id_cache].
  specialize (E4 tag). unfold scan_lookup in E4.
  rewrite zlen_app, zlen_le_split in E4. change (Z.of_nat 4) with 4 in E4.
  destruct nb; rewrite E4; unfold s0; cbn [s_name_cache s_id_cache];
    rewrite lookup_empty; reflexivity.
Qed.

(** ** The encoder's output in closed form (little-endian host) *)

Lemma set_buffer_set_buffer w b1 b2 : set_buffer (set_buffer w b1) b2 = set_buffer w b2.
Proof. reflexivity. Qed.

Lemma Writes_compose f g bf bg :
  Writes f bf -> Writes g bg -> Writes (fun w => g (f w)) (fun nb => bf nb ++ bg nb).
Proof.
intros Hf Hg w. rewrite Hg, Hf. unfold set_buffer.
cbn [Wr.m_buffer Wr.m_name_based m_root_object]. rewrite <- app_assoc. reflexivity.
Qed.

Lemma Writes_ext f g bf bg :
  Writes f bf -> (forall w, g w = f w) -> (forall nb, bg nb = bf nb) -> Writes g bg.
Proof. intros Hf Hg Hb w. rewrite Hg, Hb. apply Hf. Qed.

Lemma Writes_fold {A} (f : A -> Wr.Writer -> Wr.Writer) (g : A -> bool -> list byte) l :
  Forall (fun a => Writes (f a) (g a)) l ->
  Writes (fun w => fold_left (fun w a => f a w) l w)
         (fun nb => concat (map (fun a => g a nb) l)).
Proof.
induction 1 as [| a l Ha _ IH]; intros w; cbn [fold_left map concat].
- rewrite app_nil_r. destruct w. reflexivity.
- assert (Hn : Wr.m_name_based (f a w) = Wr.m_name_based w) by (rewrite Ha; reflexivity).
  rewrite IH, Hn, Ha. unfold set_buffer.
  cbn [Wr.m_buffer Wr.m_name_based m_root_object]. rewrite <- app_assoc. reflexivity.
Qed.

Lemma WriteData_writes n sw v :
  (n = 1 \/ n = 2 \/ n = 4 \/ n = 8)%nat ->
  Writes (WriteData little n sw v) (fun _ => le_split n v).
Proof. intros Hn w. apply WriteData_little. exact Hn. Qed.

Lemma WriteFieldHeader_writes tag ty :
  Writes (WriteFieldHeader little tag ty) (fun nb => le_split 1 ty ++ tag_bytes nb tag).
Proof. intros w. apply WriteFieldHeader_little. Qed.

Lemma firstn_whole (k : Z) (l : list byte) : zlen l <= k -> firstn (Z.to_nat k) l = l.
Proof. intros H. apply firstn_all2. unfold zlen in H. lia. Qed.

Lemma WriteString_writes (s : list byte) :
  zlen s < 2 ^ 16 -> Writes (WriteString little s) (fun _ => element_bytes 2 s).
Proof.
intros Hs w. pose proof (zlen_nonneg s) as Hn.
unfold WriteString, WriteData_raw. cbn [snd].
rewrite WriteData_little by auto. unfold set_buffer, element_bytes.
cbn [Wr.m_buffer Wr.m_name_based m_root_object].
replace (wrap16 (zlen s)) with (zlen s) by (unfold wrap16; symmetry; apply Z.mod_small; lia).
rewrite firstn_whole by lia. rewrite <- app_assoc. reflexivity.
Qed.

Lemma WriteBinary_writes (d : list byte) :
  zlen d < 2 ^ 32 -> Writes (WriteBinary little d (wrap32 (zlen d))) (fun _ => element_bytes 4 d).
Proof.
intros Hs w. pose proof (zlen_nonneg d) as Hn.
unfold WriteBinary, WriteData_raw. cbn [snd].
rewrite WriteData_little by auto. unfold set_buffer, element_bytes.
cbn [Wr.m_buffer Wr.m_name_based m_root_object].
replace (wrap32 (zlen d)) with (zlen d) by (unfold wrap32; symmetry; apply Z.mod_small; lia).
rewrite firstn_whole by lia. rewrite <- app_assoc. reflexivity.
Qed.

Lemma le_split_wrap32 z : le_split 4 (wrap32 z) = le_split 4 z.
Proof. unfold wrap32. symmetry. apply (le_split_mod z 4). Qed.

(** A scope around a body that writes [P]: the size slot, back-patched,
    and [P]. *)
Lemma WriteDataSizeField_slot w (P : list byte) :
  WriteDataSizeField little (zlen (Wr.m_buffer w))
    (set_buffer w (Wr.m_buffer w ++ repeat Byte.x00 sizeof_FieldSize ++ P))
  = set_buffer w (Wr.m_buffer w ++ sized P).
Proof.
unfold WriteDataSizeField, set_buffer, sized.
cbn [Wr.m_buffer Wr.m_name_based m_root_object].
rewrite AdjustEndianess_little. cbn [to_native].
rewrite memcpy_at_slot by reflexivity.
replace (zlen (Wr.m_buffer w ++ repeat Byte.x00 sizeof_FieldSize ++ P)
         - zlen (Wr.m_buffer w) - Z.of_nat sizeof_FieldSize)
  with (zlen P).
- rewrite le_split_wrap32. reflexivity.
- rewrite !zlen_app. change (zlen (repeat Byte.x00 sizeof_FieldSize)) with 4.
  change (Z.of_nat sizeof_FieldSize) with 4. lia.
Qed.

Lemma in_object_writes body P :
  Writes body P -> Writes (in_object little body) (fun nb => sized (P nb)).
Proof.
intros Hb w. unfold in_object, ObjectWriter_new, ReserveDataSizeField, ObjectWriter_Finish,
  IsFinished.
cbn [m_is_finished m_obj_size_pos negb snd]. rewrite Hb.
unfold set_buffer at 2 3. cbn [Wr.m_buffer Wr.m_name_based m_root_object].
rewrite <- app_assoc.
rewrite <- (WriteDataSizeField_slot w (P (Wr.m_name_based w))). reflexivity.
Qed.

Lemma in_array_writes body P :
  Writes body P -> Writes (in_array little body) (fun nb => sized (P nb)).
Proof.
intros Hb w. unfold in_array, ArrayWriter_new, ReserveDataSizeField, ArrayWriter_Finish.
cbn [m_array_is_finished m_array_size_pos negb snd]. rewrite Hb.
unfold set_buffer at 2 3. cbn [Wr.m_buffer Wr.m_name_based m_root_object].
rewrite <- app_assoc.
rewrite <- (WriteDataSizeField_slot w (P (Wr.m_name_based w))). reflexivity.
Qed.

Lemma FieldArray_writes n tag ty (data : list Z) :
  Z.of_nat (length data) * Z.of_nat n < 2 ^ 32 ->
  (0 < n)%nat ->
  Writes (FieldArray little n tag ty data (wrap32 (Z.of_nat (length data))))
    (fun nb => le_split 1 ty ++ tag_bytes nb tag ++ sized (concat (map (le_split n) data))).
Proof.
intros Hsz Hn w.
destruct (FieldArray_buffer little n tag ty data (wrap32 (Z.of_nat (length data))) w)
  as (E & N & R).
rewrite WriteFieldHeader_little in E, N, R.
assert (Hlen : wrap32 (Z.of_nat (length data)) = Z.of_nat (length data)).
{ unfold wrap32. apply Z.mod_small. nia. }
assert (Hbytes : array_bytes little n data = concat (map (le_split n) data)) by reflexivity.
assert (Hz : zlen (concat (map (le_split n) data)) = Z.of_nat (length data) * Z.of_nat n).
{ unfold zlen. rewrite (length_concat_fixed n) by (intros v; apply length_le_split). lia. }
apply writer_eq.
- rewrite E. cbn [set_buffer Wr.m_buffer].
  rewrite AdjustArrayEndianess_little, Hlen, Hbytes.
  rewrite firstn_whole
    by (rewrite Hz; unfold wrap32; rewrite Z.mod_small by lia; lia).
  unfold sized. rewrite le_split_wrap32, Hz, <- !app_assoc. reflexivity.
- rewrite N. reflexivity.
- rewrite R. reflexivity.
Qed.

(** The bytes that a field operation appends, field sizes fitting their
    prefixes: the register of the field as the format lays it out. *)
Lemma write_field_writes f :
  sizes_fit f = true ->
  Writes (write_field little f) (fun nb => register_bytes nb (field_register nb f)).
Proof.
induction f as [f Hf] using Field_nested_ind.
assert (Hprim : forall tag ty n sw v,
          (n = 1 \/ n = 2 \/ n = 4 \/ n = 8)%nat ->
          Writes (fun w => WriteData little n sw v (WriteFieldHeader little tag ty w))
            (fun nb => le_split 1 ty ++ tag_bytes nb tag ++ le_split n v)).
{ intros tag ty n sw v Hn.
  eapply Writes_ext.
  - apply (Writes_compose _ _ _ _ (WriteFieldHeader_writes tag ty) (WriteData_writes n sw v Hn)).
  - reflexivity.
  - intros nb. cbv beta. rewrite <- app_assoc. reflexivity. }
assert (Hscope : forall tag ty (g : Wr.Writer -> Wr.Writer) P,
          Writes g P ->
          Writes (fun w => g (WriteFieldHeader little tag ty w))
            (fun nb => le_split 1 ty ++ tag_bytes nb tag ++ P nb)).
{ intros tag ty g P Hg.
  eapply Writes_ext.
  - apply (Writes_compose _ _ _ _ (WriteFieldHeader_writes tag ty) Hg).
  - reflexivity.
  - intros nb. cbv beta. rewrite <- app_assoc. reflexivity. }
destruct f as [tag v | tag v | tag v | tag v | tag v | tag v | tag v | tag v | tag v
               | tag v | tag v | tag v | tag s | tag data | n tag array_type data
               | tag body | tag els | tag els | tag els];
  intros Hfit; cbn [sizes_fit] in Hfit;
  unfold register_bytes, field_register;
  cbn [r_tag r_type r_payload field_tag field_type field_payload write_field];
  unfold FieldInt8, FieldInt16, FieldInt32, FieldInt64, FieldUInt8, FieldUInt16,
    FieldUInt32, FieldUInt64, FieldBoolean, FieldFloat16, FieldFloat32, FieldFloat64,
    FieldString, FieldBinary;
  try (apply Hprim; solve [auto]).
- (* string *)
  apply Z.ltb_lt in Hfit. apply (Hscope tag String (WriteString little s) (fun _ => element_bytes 2 s)).
  apply WriteString_writes. exact Hfit.
- (* blob *)
  apply Z.ltb_lt in Hfit.
  apply (Hscope tag Binary (WriteBinary little data (wrap32 (zlen data)))
           (fun _ => sized data)).
  apply WriteBinary_writes. exact Hfit.
- (* fixed-size array *)
  apply Z.ltb_lt in Hfit.
  destruct n as [| n].
  + (* elements of no bytes *)
    intros w.
    destruct (FieldArray_buffer little 0 tag array_type data
                (wrap32 (Z.of_nat (length data))) w) as (E & N & R).
    rewrite WriteFieldHeader_little in E, N, R.
    assert (Hnil : concat (map (le_split 0) data) = []).
    { clear. induction data as [| v data IH]; [reflexivity | exact IH]. }
    apply writer_eq.
    * rewrite E. cbn [set_buffer Wr.m_buffer].
      rewrite AdjustArrayEndianess_little.
      replace (array_bytes little 0 data) with (concat (map (le_split 0) data)) by reflexivity.
      rewrite Hnil. rewrite Z.mul_0_r.
      change (wrap32 0) with 0. cbn [Z.to_nat firstn].
      unfold sized. change (zlen []) with 0. rewrite <- !app_assoc. reflexivity.
    * rewrite N. reflexivity.
    * rewrite R. reflexivity.
  + apply FieldArray_writes; [exact Hfit | lia].
- (* object *)
  apply (Hscope tag Object
           (in_object little (fun w => fold_left (fun w f => write_field little f w) body w))
           (fun nb => sized (concat (map (fun g => le_split 1 (field_type g)
                                                     ++ tag_bytes nb (field_tag g)
                                                     ++ field_payload nb g) body)))).
  apply in_object_writes.
  apply (Writes_fold (write_field little)
           (fun g nb => le_split 1 (field_type g) ++ tag_bytes nb (field_tag g)
                          ++ field_payload nb g)).
  rewrite forallb_forall in Hfit. rewrite List.Forall_forall in Hf |- *.
  intros g Hg. apply (Hf g Hg). apply Hfit. exact Hg.
- (* string array *)
  apply (Hscope tag StringArray
           (in_array little
              (fun w => fold_left (fun w s => StringArrayWriter_AddElement little s w) els w))
           (fun _ => sized (array_payload 2 els))).
  apply (in_array_writes _ (fun _ => array_payload 2 els)).
  apply (Writes_fold (fun s => StringArrayWriter_AddElement little s)
           (fun s _ => element_bytes 2 s)).
  rewrite forallb_forall in Hfit. apply List.Forall_forall.
  intros s Hs. apply WriteString_writes. apply Z.ltb_lt. apply Hfit. exact Hs.
- (* binary array *)
  apply (Hscope tag BinaryArray
           (in_array little
              (fun w => fold_left
                          (fun w e => BinaryArrayWriter_AddElement little e (wrap32 (zlen e)) w)
                          els w))
           (fun _ => sized (array_payload 4 els))).
  apply (in_array_writes _ (fun _ => array_payload 4 els)).
  apply (Writes_fold (fun e => BinaryArrayWriter_AddElement little e (wrap32 (zlen e)))
           (fun e _ => element_bytes 4 e)).
  rewrite forallb_forall in Hfit. apply List.Forall_forall.
  intros s Hs. apply WriteBinary_writes. apply Z.ltb_lt. apply Hfit. exact Hs.
- (* object array *)
  apply (Hscope tag ObjectArray
           (in_array little
              (fun w => fold_left
                          (fun w e =>
                             in_object little
                               (fun w => fold_left (fun w f => write_field little f w) e w) w)
                          els w))
           (fun nb => sized (concat (map (fun e =>
                        sized (concat (map (fun g => le_split 1 (field_type g)
                                                       ++ tag_bytes nb (field_tag g)
                                                       ++ field_payload nb g) e)))
                                       els)))).
  apply in_array_writes.
  apply (Writes_fold
           (fun e => in_object little (fun w => fold_left (fun w f => write_field little f w) e w))
           (fun e nb => sized (concat (map (fun g => le_split 1 (field_type g)
                                                       ++ tag_bytes nb (field_tag g)
                                                       ++ field_payload nb g) e)))).
  rewrite forallb_forall in Hfit. rewrite List.Forall_forall in Hf |- *.
  intros e He. apply in_object_writes.
  apply (Writes_fold (write_field little)
           (fun g nb => le_split 1 (field_type g) ++ tag_bytes nb (field_tag g)
                          ++ field_payload nb g)).
  specialize (Hf e He). specialize (Hfit e He). rewrite forallb_forall in Hfit.
  rewrite List.Forall_forall in Hf |- *.
  intros g Hg. apply (Hf g Hg). apply Hfit. exact Hg.
Qed.

Lemma write_fields_writes fs :
  forallb sizes_fit fs = true ->
  Writes (write_fields little fs) (fun nb => fields_bytes nb fs).
Proof.
intros Hfit. unfold write_fields, fields_bytes, registers_bytes.
eapply Writes_ext.
- apply (Writes_fold (write_field little) (fun f nb => register_bytes nb (field_register nb f))).
  rewrite forallb_forall in Hfit. apply List.Forall_forall.
  intros f Hf. apply write_field_writes. apply Hfit. exact Hf.
- reflexivity.
- intros nb. rewrite map_map. reflexivity.
Qed.

Lemma encode_little_layout nb fs :
  forallb sizes_fit fs = true ->
  encode little nb fs = sized (fields_bytes nb fs).
Proof.
intros Hfit. unfold encode, Data. rewrite Writer_Finish_buffer.
pose proof (write_fields_writes fs Hfit (Writer_new nb)) as Hw.
cbv beta in Hw. rewrite !Hw.
exact (f_equal Wr.m_buffer
         (WriteDataSizeField_slot (mkWriter [] nb (mkObjectWriter 0 false))
            (fields_bytes nb fs))).
Qed.

(** X24. The encoder's output follows the layout of the format.  On a
    little-endian host, for field operations whose sizes fit their prefixes
    (strings 16 bits, blobs and fixed-size arrays 32 bits), every field
    operation appends exactly the register that the format document lays out
    (type byte, tag, field data, nested objects and arrays included) and
    changes nothing else, and the finished document is the size prefix
    followed by the registers of its fields.  Without scalar floats the same
    holds on a big-endian host. *)
Theorem encoder_output_follows_the_format_layout nb fs f w :
  forallb sizes_fit fs = true ->
  sizes_fit f = true ->
  encode little nb fs = sized (fields_bytes nb fs)
  /\ write_field little f w
     = set_buffer w
         (Wr.m_buffer w
            ++ register_bytes (Wr.m_name_based w) (field_register (Wr.m_name_based w) f))
  /\ (forallb host_free fs = true -> encode big nb fs = sized (fields_bytes nb fs)).
Proof.
intros Hfs Hf. split; [| split].
- apply encode_little_layout. exact Hfs.
- apply (write_field_writes f Hf w).
- intros Hh. rewrite (encode_host big nb fs Hh). apply encode_little_layout. exact Hfs.
Qed.

Lemma encoder_output_follows_the_format_layout_witness :
  let fs := [FInt32 (tag_of "id") 1; FString (tag_of "name") (bytes_of_string "John");
             FBoolean (tag_of "active") true] in
  encode little true fs = sized (fields_bytes true fs)
  /\ zlen (fields_bytes true fs) = 29.
Proof.
intros fs. split; [| vm_compute; reflexivity].
apply (encoder_output_follows_the_format_layout true fs (FInt8 (tag_of "x") 0)
         (Writer_new true)); reflexivity.
Defined.

(** ** The decoder over the registers of an object *)

Lemma lookup_registers_existsb nb tag rs :
  forall p,
    match lookup_registers nb tag rs p with Some _ => true | None => false end
    = existsb (fun r => same_key nb (r_tag r) tag) rs.
Proof.
induction rs as [| r rs IH]; intros p; cbn [lookup_registers existsb].
- reflexivity.
- destruct (same_key nb (r_tag r) tag); [reflexivity | apply IH].
Qed.

(** X25. The decoder files each key with its first register.  On a
    little-endian host, a reader over an object that consists of well-formed
    registers (valid type byte, tag fitting the header, payload of the size
    its type asks for) is valid; a lookup finds, for a key that occurs, the
    entry of the first register with that key (its type, and its value for
    an inline type or the address of its payload otherwise) and nothing for
    a key that does not occur. *)
Theorem reader_files_each_key_with_its_first_register nb rs (pre post : list byte) tag :
  Forall (fun r => well_formed nb r = true) rs ->
  rs <> [] ->
  zlen (registers_bytes nb rs) < 2 ^ 32 ->
  let mem := pre ++ document (registers_bytes nb rs) ++ post in
  let st := (mem, ObjectReader_new little mem (Some (zlen pre)) nb) in
  fst (IsValid little st) = true
  /\ fst (FindTag little tag st) = lookup_registers nb tag rs (zlen pre + 4)
  /\ fst (GetTagType little tag st)
     = option_map type (lookup_registers nb tag rs (zlen pre + 4))
  /\ fst (ContainsTag little tag st) = existsb (fun r => same_key nb (r_tag r) tag) rs.
Proof.
intros Hall Hne Hsz mem st.
destruct (CreateCache_registers nb rs pre post Hall Hne Hsz) as (r' & Hcc & Hv & Hnb & Hl).
fold mem in Hcc. fold st in Hcc.
assert (HF : fst (FindTag little tag st) = lookup_registers nb tag rs (zlen pre + 4)).
{ rewrite FindTag_eq, Hcc. cbn [fst snd]. rewrite Hv. apply Hl. }
split; [rewrite IsValid_eq, Hcc; exact Hv |].
split; [exact HF |].
split.
- unfold GetTagType. destruct (FindTag little tag st) as [e st']. cbn [fst] in *.
  rewrite HF. reflexivity.
- unfold ContainsTag. destruct (FindTag little tag st) as [e st']. cbn [fst] in *.
  rewrite HF. apply lookup_registers_existsb.
Qed.

Lemma reader_files_each_key_with_its_first_register_witness :
  let a := mkDataTag 7 (bytes_of_string "a") in
  let rs := [mkRegister a Int8 [Byte.x01]; mkRegister a Int16 [Byte.x02; Byte.x00]] in
  let mem := document (registers_bytes false rs) in
  fst (FindTag little a (mem, ObjectReader_new little mem (Some 0) false))
  = Some (mkCacheEntry Int8 (v_int 1 1)).
Proof.
intros a rs mem.
pose proof (reader_files_each_key_with_its_first_register false rs [] [] a) as H.
cbv zeta in H. rewrite app_nil_r in H.
destruct H as (_ & H & _).
- repeat constructor.
- discriminate.
- reflexivity.
- exact H.
Defined.

(** ** Reading back the fields of a document (little-endian host) *)

Lemma prefixed_element_bytes k (P : list byte) :
  zlen P < 2 ^ (Z.of_nat k * 8) -> prefixed k (element_bytes k P) = true.
Proof.
intros HP. pose proof (zlen_nonneg P) as Hn.
unfold prefixed. rewrite zlen_element_bytes. unfold element_bytes.
rewrite (firstn_exact_app k) by apply length_le_split.
rewrite le_combine_le_split_small by lia.
apply andb_true_iff. split; [apply Z.leb_le; lia | apply Z.eqb_eq; lia].
Qed.

Lemma document_sized (b : list byte) : document b = sized b.
Proof. unfold document, sized. rewrite le_split_wrap32. reflexivity. Qed.

Lemma field_payload_object nb tag body :
  field_payload nb (FObject tag body) = sized (fields_bytes nb body).
Proof.
cbn [field_payload]. unfold fields_bytes, registers_bytes. rewrite map_map. reflexivity.
Qed.

Lemma field_payload_object_array nb tag els :
  field_payload nb (FObjectArray tag els) = sized (array_payload 4 (map (fields_bytes nb) els)).
Proof.
cbn [field_payload]. unfold array_payload. rewrite map_map. f_equal. f_equal.
apply map_ext. intros e. unfold fields_bytes, registers_bytes. rewrite map_map. reflexivity.
Qed.

Lemma zlen_sized (P : list byte) : zlen (sized P) = 4 + zlen P.
Proof. unfold sized. rewrite zlen_app, zlen_le_split. reflexivity. Qed.

(** A field that fits gives a register that the validation loop accepts. *)
Lemma field_fits_well_formed nb f :
  field_fits nb f = true -> well_formed nb (field_register nb f) = true.
Proof.
unfold field_fits, well_formed, field_register. cbn [r_tag r_type r_payload].
rewrite !andb_true_iff. intros [[[Hsz Htag] Hpay] Harr].
apply Z.ltb_lt in Hpay.
assert (Hsized : forall P : list byte, zlen (sized P) < 2 ^ 32 + 4 ->
                 prefixed 4 (sized P) = true).
{ intros P HP. rewrite zlen_sized in HP. apply (prefixed_element_bytes 4 P).
  change (2 ^ (Z.of_nat 4 * 8)) with (2 ^ 32). lia. }
destruct f as [tag v | tag v | tag v | tag v | tag v | tag v | tag v | tag v | tag v
               | tag v | tag v | tag v | tag s | tag data | n tag array_type data
               | tag body | tag els | tag els | tag els];
  cbn [field_tag field_type field_payload sizes_fit] in *;
  first [ split; [split; [split; [split; [reflexivity | reflexivity] | reflexivity] |]
                 | exact Htag]
        | idtac ];
  try (unfold payload_fits; cbn; rewrite zlen_le_split; reflexivity).
- (* string *)
  apply Z.ltb_lt in Hsz.
  change (payload_fits String (element_bytes 2 s)) with (prefixed 2 (element_bytes 2 s)).
  apply prefixed_element_bytes. exact Hsz.
- (* blob *)
  change (payload_fits Binary (sized data)) with (prefixed 4 (sized data)).
  apply Hsized. exact Hpay.
- (* fixed-size array *)
  rewrite !andb_true_iff in Harr. destruct Harr as [[H0 H1] Ha].
  split; [split; [split; [split; [exact H0 | exact H1] |] |] | exact Htag].
  + unfold IsValidDataType. unfold IsArrayType in Ha. rewrite Ha.
    destruct (TypeClassification array_type =? Raw); reflexivity.
  + unfold payload_fits. rewrite Ha. apply Hsized. exact Hpay.
- (* object *)
  match goal with
  | |- payload_fits Object ?p = true => change (payload_fits Object p) with (prefixed 4 p)
  end.
  apply Hsized. exact Hpay.
- match goal with
  | |- payload_fits StringArray ?p = true =>
      change (payload_fits StringArray p) with (prefixed 4 p)
  end.
  apply Hsized. exact Hpay.
- match goal with
  | |- payload_fits BinaryArray ?p = true =>
      change (payload_fits BinaryArray p) with (prefixed 4 p)
  end.
  apply Hsized. exact Hpay.
- match goal with
  | |- payload_fits ObjectArray ?p = true =>
      change (payload_fits ObjectArray p) with (prefixed 4 p)
  end.
  apply Hsized. exact Hpay.
Qed.

(** The first field with a key, its entry, and where its field data lies. *)
Lemma lookup_registers_fields nb tag :
  forall fs (pre0 post0 : list byte),
    match first_field nb tag fs with
    | None => lookup_registers nb tag (map (field_register nb) fs) (zlen pre0) = None
    | Some f =>
        exists front rest,
          pre0 ++ fields_bytes nb fs ++ post0 = front ++ field_payload nb f ++ rest
          /\ lookup_registers nb tag (map (field_register nb) fs) (zlen pre0)
             = Some (entry_at (field_register nb f) (zlen front))
    end.
Proof.
unfold first_field.
induction fs as [| f fs IH]; intros pre0 post0; cbn [find map lookup_registers].
- reflexivity.
- change (r_tag (field_register nb f)) with (field_tag f).
  destruct (same_key nb (field_tag f) tag).
  + exists (pre0 ++ le_split 1 (field_type f) ++ tag_bytes nb (field_tag f)),
           (fields_bytes nb fs ++ post0).
    split.
    * unfold fields_bytes. cbn [map]. rewrite registers_bytes_cons.
      unfold register_bytes, field_register. cbn [r_tag r_type r_payload].
      rewrite <- !app_assoc. reflexivity.
    * rewrite !zlen_app, zlen_le_split. do 2 f_equal.
      change (Z.of_nat 1) with 1. lia.
  + specialize (IH (pre0 ++ register_bytes nb (field_register nb f)) post0).
    rewrite zlen_app in IH.
    destruct (find (fun f0 => same_key nb (field_tag f0) tag) fs) as [g |].
    * destruct IH as (front & rest & E1 & E2). exists front, rest. split; [| exact E2].
      rewrite <- E1. unfold fields_bytes. cbn [map]. rewrite registers_bytes_cons.
      rewrite <- !app_assoc. reflexivity.
    * exact IH.
Qed.

(** The lookup on a reader over the object that the encoder writes for a
    sequence of fields. *)
Lemma FindTag_fields nb fs (pre post : list byte) tag :
  fs <> [] ->
  forallb (field_fits nb) fs = true ->
  zlen (fields_bytes nb fs) < 2 ^ 32 ->
  let mem := pre ++ encode little nb fs ++ post in
  let st := (mem, ObjectReader_new little mem (Some (zlen pre)) nb) in
  exists r',
    snd (FindTag little tag st) = (mem, r')
    /\ m_is_valid r' = true
    /\ Rd.m_name_based r' = nb
    /\ match first_field nb tag fs with
       | None => fst (FindTag little tag st) = None
       | Some f =>
           exists front rest,
             mem = front ++ field_payload nb f ++ rest
             /\ fst (FindTag little tag st)
                = Some (entry_at (field_register nb f) (zlen front))
       end.
Proof.
intros Hne Hfit Hsz mem st.
assert (Hsizes : forallb sizes_fit fs = true).
{ rewrite forallb_forall in Hfit |- *. intros f Hf. specialize (Hfit f Hf).
  unfold field_fits in Hfit. rewrite !andb_true_iff in Hfit. tauto. }
assert (Hwf : Forall (fun r => well_formed nb r = true) (map (field_register nb) fs)).
{ apply List.Forall_forall. intros r Hr. apply in_map_iff in Hr.
  destruct Hr as (f & <- & Hf). apply field_fits_well_formed.
  rewrite forallb_forall in Hfit. apply Hfit. exact Hf. }
assert (Hne' : map (field_register nb) fs <> []).
{ destruct fs; [congruence | discriminate]. }
assert (Hmem : mem = pre ++ document (registers_bytes nb (map (field_register nb) fs)) ++ post).
{ unfold mem. rewrite (encode_little_layout nb fs Hsizes), document_sized. reflexivity. }
destruct (CreateCache_registers nb (map (field_register nb) fs) pre post Hwf Hne' Hsz)
  as (r' & Hcc & Hv & Hnb & Hl).
rewrite <- Hmem in Hcc. fold st in Hcc.
exists r'. rewrite FindTag_eq, Hcc. cbn [fst snd]. rewrite Hv.
split; [reflexivity | split; [reflexivity | split; [exact Hnb |]]].
rewrite Hl.
pose proof (lookup_registers_fields nb tag fs
              (pre ++ le_split 4 (zlen (fields_bytes nb fs))) post) as Hlk.
rewrite zlen_app, zlen_le_split in Hlk. change (Z.of_nat 4) with 4 in Hlk.
destruct (first_field nb tag fs) as [f |]; [| exact Hlk].
destruct Hlk as (front & rest & E1 & E2). exists front, rest. split; [| exact E2].
rewrite <- E1. unfold mem. rewrite (encode_little_layout nb fs Hsizes). unfold sized.
rewrite <- !app_assoc. reflexivity.
Qed.

Lemma ReadPrimitive_entry n ty bits tag st st' :
  FindTag little tag st = (Some (mkCacheEntry ty (v_int n bits)), st') ->
  fst (ReadPrimitive little n ty tag st) = Some (bits mod 2 ^ (Z.of_nat n * 8)).
Proof.
intros HF. unfold ReadPrimitive. rewrite HF. cbn [type value].
rewrite Z.eqb_refl. cbn [negb fst]. rewrite of_native_union_bytes. reflexivity.
Qed.

Lemma le_split_value n v :
  le_combine (le_split n v) mod 2 ^ (Z.of_nat n * 8) = v mod 2 ^ (Z.of_nat n * 8).
Proof. rewrite le_combine_split. apply Z.mod_mod. apply Z.pow_nonzero; lia. Qed.

Lemma ReadStringInternal_at (front s rest : list byte) :
  zlen s < 2 ^ 16 ->
  ReadStringInternal little (mkCacheEntry String (v_ptr (zlen front)))
    (front ++ element_bytes 2 s ++ rest)
  = Some s.
Proof.
intros Hs. unfold ReadStringInternal. cbn [type value get_ptr of_native negb].
change (String =? String) with true. cbn [negb].
change 2 with (Z.of_nat 2) at 1 2.
rewrite (load_element_prefix 2 front s rest) by exact Hs.
rewrite load_element_bytes. reflexivity.
Qed.

(** A pointer entry over a payload with a 32-bit prefix: the pointer
    behind the prefix, the size, and the bytes that the two denote. *)
Lemma sized_payload_at (front P rest : list byte) :
  zlen P < 2 ^ 32 ->
  le_combine (load (front ++ sized P ++ rest) (zlen front) 4) = zlen P
  /\ load (front ++ sized P ++ rest) (zlen front + 4) (zlen P) = P.
Proof.
intros HP. split.
- apply (load_element_prefix 4 front P rest). exact HP.
- apply (load_element_bytes 4 front P rest).
Qed.

(** X26. Scalar fields, strings and blobs read back from a document of
    many fields.  On a little-endian host, for a reader over the object
    that the encoder writes for a non-empty sequence of fitting fields, at
    any place of the memory: the reader is valid; a key that no field has is
    not contained and no read of it returns a value; for a key that occurs,
    the first field with the key decides: [GetTagType] gives its type, and
    the read of its type returns the value written, the integers and floats
    as their bits in the width of the type, a boolean, a string or the bytes
    of a blob as they were given. *)
Theorem scalar_fields_read_back_from_the_document nb fs (pre post : list byte) tag :
  fs <> [] ->
  forallb (field_fits nb) fs = true ->
  zlen (fields_bytes nb fs) < 2 ^ 32 ->
  let mem := pre ++ encode little nb fs ++ post in
  let st := (mem, ObjectReader_new little mem (Some (zlen pre)) nb) in
  fst (IsValid little st) = true
  /\ match first_field nb tag fs with
     | None =>
         fst (ContainsTag little tag st) = false
         /\ forall q, fst (run_read little q tag st) = false
     | Some f =>
         fst (GetTagType little tag st) = Some (field_type f)
         /\ match f with
            | FInt8 _ v | FUInt8 _ v =>
                fst (ReadPrimitive little 1 (field_type f) tag st) = Some (v mod 2 ^ 8)
            | FInt16 _ v | FUInt16 _ v | FFloat16 _ v =>
                fst (ReadPrimitive little 2 (field_type f) tag st) = Some (v mod 2 ^ 16)
            | FInt32 _ v | FUInt32 _ v | FFloat32 _ v =>
                fst (ReadPrimitive little 4 (field_type f) tag st) = Some (v mod 2 ^ 32)
            | FInt64 _ v | FUInt64 _ v | FFloat64 _ v =>
                fst (ReadPrimitive little 8 (field_type f) tag st) = Some (v mod 2 ^ 64)
            | FBoolean _ b => fst (ReadBoolean little tag st) = Some b
            | FString _ s => fst (ReadString little tag st) = Some s
            | FBinary _ data => fst (ReadBinary_span little tag st) = Some data
            | _ => True
            end
     end.
Proof.
intros Hne Hfit Hsz mem st.
destruct (FindTag_fields nb fs pre post tag Hne Hfit Hsz) as (r' & Hsnd & Hv & _ & Hcase).
fold mem in Hsnd, Hcase. fold st in Hsnd, Hcase.
assert (Hcc : CreateCache little st = (mem, r')).
{ rewrite FindTag_eq in Hsnd. exact Hsnd. }
split; [rewrite IsValid_eq, Hcc; exact Hv |].
destruct (first_field nb tag fs) as [f |] eqn:Efirst.
2:{ split.
    - unfold ContainsTag. destruct (FindTag little tag st) as [e st']. cbn [fst] in *.
      rewrite Hcase. reflexivity.
    - intros q. apply run_read_not_found. exact Hcase. }
destruct Hcase as (front & rest & Hmem & Hfst).
assert (HF : FindTag little tag st
             = (Some (entry_at (field_register nb f) (zlen front)), (mem, r'))).
{ destruct (FindTag little tag st) as [e st']. cbn [fst snd] in *. subst. reflexivity. }
assert (Hff : field_fits nb f = true).
{ rewrite forallb_forall in Hfit. apply Hfit.
  unfold first_field in Efirst. apply find_some in Efirst. tauto. }
split.
{ unfold GetTagType. rewrite HF. reflexivity. }
assert (Hprim : forall n ty v,
          entry_at (field_register nb f) (zlen front)
          = mkCacheEntry ty (v_int n (le_combine (le_split n v))) ->
          fst (ReadPrimitive little n ty tag st) = Some (v mod 2 ^ (Z.of_nat n * 8))).
{ intros n ty v He. rewrite He in HF.
  rewrite (ReadPrimitive_entry n ty _ tag st _ HF). rewrite le_split_value. reflexivity. }
destruct f as [t v | t v | t v | t v | t v | t v | t v | t v | t b
               | t v | t v | t v | t s | t data | n t array_type data
               | t body | t els | t els | t els];
  try exact I;
  try (cbn [field_type]; first [ apply (Hprim 1%nat) | apply (Hprim 2%nat)
                               | apply (Hprim 4%nat) | apply (Hprim 8%nat) ];
       reflexivity).
- (* boolean *)
  unfold ReadBoolean, map_result. cbn [fst].
  rewrite (Hprim 1%nat Boolean (if b then 1 else 0)) by reflexivity.
  destruct b; reflexivity.
- (* string *)
  unfold field_fits in Hff. rewrite !andb_true_iff in Hff.
  destruct Hff as [[[Hs _] _] _]. cbn [sizes_fit] in Hs. apply Z.ltb_lt in Hs.
  unfold ReadString. rewrite HF. cbn [fst]. rewrite Hmem.
  cbn [field_payload].
  change (entry_at (field_register nb (FString t s)) (zlen front))
    with (mkCacheEntry String (v_ptr (zlen front))).
  apply ReadStringInternal_at. exact Hs.
- (* blob *)
  unfold field_fits in Hff. rewrite !andb_true_iff in Hff.
  destruct Hff as [[[Hs _] _] _]. cbn [sizes_fit] in Hs. apply Z.ltb_lt in Hs.
  unfold ReadBinary_span, ReadBinary, ReadPointerData. rewrite HF.
  change (entry_at (field_register nb (FBinary t data)) (zlen front))
    with (mkCacheEntry Binary (v_ptr (zlen front))).
  cbn [type value get_ptr of_native fst snd negb].
  change (Binary =? Binary) with true. cbn [negb option_map fst snd].
  rewrite Hmem. cbn [field_payload].
  destruct (sized_payload_at front data rest Hs) as [E1 E2].
  rewrite E1, E2. reflexivity.
Qed.

Lemma scalar_fields_read_back_from_the_document_witness :
  let id_ := mkDataTag 1 (bytes_of_string "id") in
  let name_ := mkDataTag 2 (bytes_of_string "name") in
  let fs := [FInt32 id_ 1; FString name_ (bytes_of_string "John");
             FString name_ (bytes_of_string "Jane")] in
  let mem := encode little false fs in
  fst (ReadString little name_ (mem, ObjectReader_new little mem (Some 0) false))
  = Some (bytes_of_string "John").
Proof.
intros id_ name_ fs mem.
pose proof (scalar_fields_read_back_from_the_document false fs [] [] name_) as H.
cbv zeta in H. rewrite app_nil_r in H.
destruct H as (_ & _ & H).
- discriminate.
- reflexivity.
- vm_compute. reflexivity.
- exact H.
Defined.

Lemma zlen_element_le_payload es (e : list byte) els :
  In e els -> zlen e <= zlen (array_payload es els).
Proof.
induction els as [| x els IH]; intros Hin; [contradiction |].
rewrite zlen_array_payload_cons.
pose proof (zlen_nonneg x). pose proof (zlen_nonneg (array_payload es els)).
destruct Hin as [-> | Hin]; [lia | specialize (IH Hin); lia].
Qed.

Lemma sized_app_assoc (front P rest : list byte) :
  front ++ sized P ++ rest = front ++ le_split 4 (zlen P) ++ P ++ rest.
Proof. unfold sized. rewrite <- app_assoc. reflexivity. Qed.

(** X27. Arrays read back from a document of many fields.  On a
    little-endian host, for a reader over the object that the encoder writes
    for a non-empty sequence of fitting fields: when the first field with
    the key is a fixed-size array whose type byte has the element size of
    the data, the array read returns a pointer to the elements as they were
    given, in little-endian order, and their number; when it is a string
    array or a blob array, the read returns a valid reader with the number
    of elements as size that iterates over the elements as they were given
    (a string array provided it is empty or ends in a string of two bytes
    or more). *)
Theorem array_fields_read_back_from_the_document nb fs (pre post : list byte) tag :
  fs <> [] ->
  forallb (field_fits nb) fs = true ->
  zlen (fields_bytes nb fs) < 2 ^ 32 ->
  let mem := pre ++ encode little nb fs ++ post in
  let st := (mem, ObjectReader_new little mem (Some (zlen pre)) nb) in
  match first_field nb tag fs with
  | Some (FArray n _ array_type data) =>
      DataTypeSize (BaseDataType array_type) = Z.of_nat n ->
      (0 < n)%nat ->
      exists ptr,
        fst (ReadArray little array_type tag st) = Some (ptr, Z.of_nat (length data))
        /\ load mem ptr (Z.of_nat (length data) * Z.of_nat n) = concat (map (le_split n) data)
  | Some (FStringArray _ els) =>
      exists a,
        fst (ReadStringArray little tag st) = Some a
        /\ (els = [] \/ 2 <= zlen (List.last els []) ->
            ArrayReader_IsValid a = true
            /\ ArrayReader_Size a = Z.of_nat (length els)
            /\ elements little 2 mem a = els)
  | Some (FBinaryArray _ els) =>
      exists a,
        fst (ReadBinaryArray little tag st) = Some a
        /\ ArrayReader_IsValid a = true
        /\ ArrayReader_Size a = Z.of_nat (length els)
        /\ elements little 4 mem a = els
  | _ => True
  end.
Proof.
intros Hne Hfit Hsz mem st.
destruct (FindTag_fields nb fs pre post tag Hne Hfit Hsz) as (r' & Hsnd & Hv & _ & Hcase).
fold mem in Hsnd, Hcase. fold st in Hsnd, Hcase.
destruct (first_field nb tag fs) as [f |] eqn:Efirst; [| exact I].
destruct Hcase as (front & rest & Hmem & Hfst).
assert (HF : FindTag little tag st
             = (Some (entry_at (field_register nb f) (zlen front)), (mem, r'))).
{ destruct (FindTag little tag st) as [e st']. cbn [fst snd] in *. subst. reflexivity. }
assert (Hff : field_fits nb f = true).
{ rewrite forallb_forall in Hfit. apply Hfit.
  unfold first_field in Efirst. apply find_some in Efirst. tauto. }
unfold field_fits in Hff. rewrite !andb_true_iff in Hff.
destruct Hff as [[[Hs _] Hpay] Harr]. apply Z.ltb_lt in Hpay.
destruct f as [t v | t v | t v | t v | t v | t v | t v | t v | t b
               | t v | t v | t v | t s | t data | n t array_type data
               | t body | t els | t els | t els];
  try exact I.
- (* fixed-size array *)
  intros Hes Hn.
  rewrite !andb_true_iff in Harr. destruct Harr as [_ Ha].
  cbn [sizes_fit] in Hs. apply Z.ltb_lt in Hs.
  cbn [field_payload] in Hmem, Hpay.
  set (bytes := concat (map (le_split n) data)) in *.
  assert (Hz : zlen bytes = Z.of_nat (length data) * Z.of_nat n).
  { unfold bytes, zlen. rewrite (length_concat_fixed n) by (intros v; apply length_le_split).
    lia. }
  assert (Hentry : entry_at (field_register nb (FArray n t array_type data)) (zlen front)
                   = mkCacheEntry array_type (v_ptr (zlen front))).
  { unfold entry_at, field_register. cbn [r_type r_payload field_type].
    rewrite (array_type_is_not_inline array_type Ha). reflexivity. }
  rewrite Hentry in HF.
  destruct (sized_payload_at front bytes rest) as [E1 E2]; [lia |].
  rewrite <- Hmem in E1, E2.
  exists (zlen front + 4).
  unfold ReadArray, ReadPointerData. rewrite HF.
  cbn [type value get_ptr of_native fst snd]. rewrite Z.eqb_refl. cbn [negb].
  rewrite E1, Hes, Hz.
  rewrite Z.div_mul by lia.
  replace (wrap32 (Z.of_nat (length data) * Z.of_nat n) =? Z.of_nat (length data) * Z.of_nat n)
    with true.
  2:{ symmetry. apply Z.eqb_eq. unfold wrap32. apply Z.mod_small. lia. }
  cbn [negb fst]. split; [reflexivity |].
  rewrite <- Hz. exact E2.
- (* string array *)
  cbn [sizes_fit] in Hs. cbn [field_payload] in Hmem, Hpay.
  rewrite zlen_sized in Hpay.
  exists (ArrayReader_new little 2 mem (zlen front)).
  split.
  + unfold ReadStringArray, StringArrayReader_new. rewrite HF.
    change (entry_at (field_register nb (FStringArray t els)) (zlen front))
      with (mkCacheEntry StringArray (v_ptr (zlen front))).
    cbn [type value get_ptr fst snd]. change (StringArray =? StringArray) with true.
    reflexivity.
  + intros Hlast.
    rewrite sized_app_assoc in Hmem.
    destruct (array_reader_payload 2 els front rest) as (A1 & A2 & A3 & _).
    * left. reflexivity.
    * apply List.Forall_forall. intros e He. rewrite forallb_forall in Hs.
      apply Z.ltb_lt. apply (Hs e He).
    * lia.
    * right. exact Hlast.
    * rewrite <- Hmem in A1, A2, A3. split; [exact A1 | split; [exact A2 | exact A3]].
- (* blob array *)
  cbn [sizes_fit] in Hs. cbn [field_payload] in Hmem, Hpay.
  rewrite zlen_sized in Hpay.
  exists (ArrayReader_new little 4 mem (zlen front)).
  split.
  + unfold ReadBinaryArray, BinaryArrayReader_new. rewrite HF.
    change (entry_at (field_register nb (FBinaryArray t els)) (zlen front))
      with (mkCacheEntry BinaryArray (v_ptr (zlen front))).
    cbn [type value get_ptr fst snd]. change (BinaryArray =? BinaryArray) with true.
    reflexivity.
  + rewrite sized_app_assoc in Hmem.
    destruct (array_reader_payload 4 els front rest) as (A1 & A2 & A3 & _).
    * right. reflexivity.
    * apply List.Forall_forall. intros e He. rewrite forallb_forall in Hs.
      apply Z.ltb_lt. apply (Hs e He).
    * lia.
    * left. reflexivity.
    * rewrite <- Hmem in A1, A2, A3. split; [exact A1 | split; [exact A2 | exact A3]].
Qed.

Lemma array_fields_read_back_from_the_document_witness :
  let count := mkDataTag 1 (bytes_of_string "n") in
  let values := mkDataTag 2 (bytes_of_string "values") in
  let fs := [FInt8 count 3; FArray 2 values (Z.lor Array Int16) [42; 1000; 7]] in
  let mem := encode little false fs in
  exists ptr,
    fst (ReadArray little (Z.lor Array Int16) values
           (mem, ObjectReader_new little mem (Some 0) false))
    = Some (ptr, 3)
    /\ load mem ptr 6 = concat (map (le_split 2) [42; 1000; 7]).
Proof.
intros count values fs mem.
pose proof (array_fields_read_back_from_the_document false fs [] [] values) as H.
cbv zeta in H. rewrite app_nil_r in H.
apply H.
- discriminate.
- reflexivity.
- vm_compute. reflexivity.
- reflexivity.
- lia.
Defined.

(** X28. Nested objects read back from a document of many fields.  On a
    little-endian host, for a reader over the object that the encoder writes
    for a non-empty sequence of fitting fields: when the first field with
    the key is an object, [ReadObject] returns the reader over a place of
    the memory where the document of the object's fields lies; when it is an
    object array, [ReadObjectArray] returns a valid reader whose size is the
    number of objects and whose [GetElement] finds, at each index, the place
    where the document of that object's fields lies.  The readers of nested
    objects are therefore readers over encoder output again, and everything
    proved for such a reader holds at every depth. *)
Theorem nested_objects_read_back_from_the_document nb fs (pre post : list byte) tag :
  fs <> [] ->
  forallb (field_fits nb) fs = true ->
  zlen (fields_bytes nb fs) < 2 ^ 32 ->
  let mem := pre ++ encode little nb fs ++ post in
  let st := (mem, ObjectReader_new little mem (Some (zlen pre)) nb) in
  match first_field nb tag fs with
  | Some (FObject _ body) =>
      exists front rest,
        fst (ReadObject little tag st)
        = Some (ObjectReader_new little mem (Some (zlen front)) nb)
        /\ mem = front ++ encode little nb body ++ rest
  | Some (FObjectArray _ els) =>
      exists a,
        fst (ReadObjectArray little tag st) = Some a
        /\ ArrayReader_IsValid a = true
        /\ ArrayReader_Size a = Z.of_nat (length els)
        /\ forall k body,
             nth_error els k = Some body ->
             exists front rest size,
               ArrayReader_GetElement little 4 mem a (Z.of_nat k) = Some (zlen front, size)
               /\ mem = front ++ encode little nb body ++ rest
  | _ => True
  end.
Proof.
intros Hne Hfit Hsz mem st.
destruct (FindTag_fields nb fs pre post tag Hne Hfit Hsz) as (r' & Hsnd & Hv & Hnb & Hcase).
fold mem in Hsnd, Hcase. fold st in Hsnd, Hcase.
destruct (first_field nb tag fs) as [f |] eqn:Efirst; [| exact I].
destruct Hcase as (front & rest & Hmem & Hfst).
assert (HF : FindTag little tag st
             = (Some (entry_at (field_register nb f) (zlen front)), (mem, r'))).
{ destruct (FindTag little tag st) as [e st']. cbn [fst snd] in *. subst. reflexivity. }
assert (Hff : field_fits nb f = true).
{ rewrite forallb_forall in Hfit. apply Hfit.
  unfold first_field in Efirst. apply find_some in Efirst. tauto. }
unfold field_fits in Hff. rewrite !andb_true_iff in Hff.
destruct Hff as [[[Hs _] Hpay] _]. apply Z.ltb_lt in Hpay.
destruct f as [t v | t v | t v | t v | t v | t v | t v | t v | t b
               | t v | t v | t v | t s | t data | n t array_type data
               | t body | t els | t els | t els];
  try exact I.
- (* object *)
  cbn [sizes_fit] in Hs.
  rewrite field_payload_object in Hmem.
  exists front, rest. split.
  + unfold ReadObject, ReadObjectInternal. rewrite HF.
    change (entry_at (field_register nb (FObject t body)) (zlen front))
      with (mkCacheEntry Object (v_ptr (zlen front))).
    cbn [type value get_ptr fst snd]. change (Object =? Object) with true.
    cbn [negb]. rewrite Hnb. reflexivity.
  + rewrite (encode_little_layout nb body Hs). exact Hmem.
- (* object array *)
  cbn [sizes_fit] in Hs.
  rewrite field_payload_object_array in Hmem, Hpay.
  rewrite zlen_sized in Hpay.
  exists (ArrayReader_new little 4 mem (zlen front)).
  split.
  + unfold ReadObjectArray, ObjectArrayReader_new. rewrite HF.
    change (entry_at (field_register nb (FObjectArray t els)) (zlen front))
      with (mkCacheEntry ObjectArray (v_ptr (zlen front))).
    cbn [type value get_ptr fst snd]. change (ObjectArray =? ObjectArray) with true.
    reflexivity.
  + rewrite sized_app_assoc in Hmem.
    destruct (array_reader_payload 4 (map (fields_bytes nb) els) front rest)
      as (A1 & A2 & _ & A4).
    * right. reflexivity.
    * apply List.Forall_forall. intros e He.
      pose proof (zlen_element_le_payload 4 e _ He).
      change (2 ^ (Z.of_nat 4 * 8)) with (2 ^ 32). lia.
    * lia.
    * left. reflexivity.
    * rewrite <- Hmem in A1, A2, A4. rewrite length_map in A2.
      split; [exact A1 | split; [exact A2 |]].
      intros k body Hk.
      destruct (A4 k (fields_bytes nb body)) as (at_ & rest' & G1 & G2 & _).
      { rewrite nth_error_map, Hk. reflexivity. }
      exists at_, rest', (zlen (fields_bytes nb body)).
      split; [exact G1 |].
      rewrite forallb_forall in Hs.
      rewrite (encode_little_layout nb body (Hs body (nth_error_In _ _ Hk))).
      exact G2.
Qed.

Lemma nested_objects_read_back_from_the_document_witness :
  let user := mkDataTag 1 (bytes_of_string "user") in
  let id_ := mkDataTag 2 (bytes_of_string "id") in
  let fs := [FObject user [FInt32 id_ 12345]] in
  let mem := encode little false fs in
  exists front rest,
    fst (ReadObject little user (mem, ObjectReader_new little mem (Some 0) false))
    = Some (ObjectReader_new little mem (Some (zlen front)) false)
    /\ mem = front ++ encode little false [FInt32 id_ 12345] ++ rest.
Proof.
intros user id_ fs mem.
pose proof (nested_objects_read_back_from_the_document false fs [] [] user) as H.
cbv zeta in H. rewrite app_nil_r in H.
apply H.
- discriminate.
- reflexivity.
- vm_compute. reflexivity.
Defined.

(** ** UUIDs and vectors on the wire *)

Lemma lookup_registers_found nb tag :
  forall rs (pre0 post0 : list byte),
    match find (fun r => same_key nb (r_tag r) tag) rs with
    | None => lookup_registers nb tag rs (zlen pre0) = None
    | Some r =>
        exists front rest,
          pre0 ++ registers_bytes nb rs ++ post0 = front ++ r_payload r ++ rest
          /\ lookup_registers nb tag rs (zlen pre0) = Some (entry_at r (zlen front))
    end.
Proof.
induction rs as [| r rs IH]; intros pre0 post0; cbn [find lookup_registers].
- reflexivity.
- destruct (same_key nb (r_tag r) tag).
  + exists (pre0 ++ le_split 1 (r_type r) ++ tag_bytes nb (r_tag r)),
           (registers_bytes nb rs ++ post0).
    split.
    * rewrite registers_bytes_cons. unfold register_bytes. rewrite <- !app_assoc. reflexivity.
    * rewrite !zlen_app, zlen_le_split. do 2 f_equal. change (Z.of_nat 1) with 1. lia.
  + specialize (IH (pre0 ++ register_bytes nb r) post0).
    rewrite zlen_app in IH.
    destruct (find (fun r0 => same_key nb (r_tag r0) tag) rs) as [g |].
    * destruct IH as (front & rest & E1 & E2). exists front, rest. split; [| exact E2].
      rewrite <- E1, registers_bytes_cons, <- !app_assoc. reflexivity.
    * exact IH.
Qed.

Lemma vector_size_fits t :
  wrap32 (VectorTypeDimension t * DataTypeSize (BaseDataType t))
  = VectorTypeDimension t * DataTypeSize (BaseDataType t).
Proof.
assert (Hd : 0 <= VectorTypeDimension t <= 4).
{ unfold VectorTypeDimension.
  repeat match goal with |- context [if ?c then _ else _] => destruct c end; lia. }
assert (Hs : 0 <= DataTypeSize (BaseDataType t) <= 16).
{ unfold DataTypeSize.
  repeat match goal with |- context [if ?c then _ else _] => destruct c end; lia. }
unfold wrap32. apply Z.mod_small. nia.
Qed.

(** X29. UUIDs and vectors are read in place.  On a little-endian host,
    for a reader over an object of well-formed registers: when the first
    register with the key is a UUID, [ReadUUID] returns the address of its
    16 bytes; when it is a vector, [ReadVector] with its type returns the
    address of its elements, dimension times element size bytes; a read with
    another type, or of a key that no register has, returns nothing. *)
Theorem uuids_and_vectors_are_read_in_place nb rs (pre post : list byte) tag :
  Forall (fun r => well_formed nb r = true) rs ->
  rs <> [] ->
  zlen (registers_bytes nb rs) < 2 ^ 32 ->
  let mem := pre ++ document (registers_bytes nb rs) ++ post in
  let st := (mem, ObjectReader_new little mem (Some (zlen pre)) nb) in
  match find (fun r => same_key nb (r_tag r) tag) rs with
  | None =>
      fst (ReadUUID little tag st) = None
      /\ forall t, fst (ReadVector little tag t st) = None
  | Some r =>
      (r_type r = UUID ->
       exists front rest,
         fst (ReadUUID little tag st) = Some (zlen front)
         /\ mem = front ++ r_payload r ++ rest
         /\ zlen (r_payload r) = 16)
      /\ (IsVectorType (r_type r) = true ->
          exists front rest,
            fst (ReadVector little tag (r_type r) st) = Some (zlen front)
            /\ mem = front ++ r_payload r ++ rest
            /\ zlen (r_payload r)
               = VectorTypeDimension (r_type r) * DataTypeSize (BaseDataType (r_type r)))
      /\ (r_type r <> UUID -> fst (ReadUUID little tag st) = None)
      /\ (forall t, t <> r_type r -> fst (ReadVector little tag t st) = None)
  end.
Proof.
intros Hall Hne Hsz mem st.
destruct (CreateCache_registers nb rs pre post Hall Hne Hsz) as (r' & Hcc & Hv & Hnb & Hl).
fold mem in Hcc. fold st in Hcc.
assert (HF : FindTag little tag st = (lookup_registers nb tag rs (zlen pre + 4), (mem, r'))).
{ rewrite FindTag_eq, Hcc. cbn [fst snd]. rewrite Hv, Hl. reflexivity. }
pose proof (lookup_registers_found nb tag rs
              (pre ++ le_split 4 (wrap32 (zlen (registers_bytes nb rs)))) post) as Hlk.
rewrite zlen_app, zlen_le_split in Hlk. change (Z.of_nat 4) with 4 in Hlk.
destruct (find (fun r => same_key nb (r_tag r) tag) rs) as [r |] eqn:Efind.
2:{ rewrite Hlk in HF. unfold ReadUUID, ReadVector. rewrite HF.
    split; [reflexivity | intros t; reflexivity]. }
destruct Hlk as (front & rest & E1 & E2). rewrite E2 in HF.
assert (Hmem : mem = front ++ r_payload r ++ rest).
{ rewrite <- E1. unfold mem, document. rewrite <- !app_assoc. reflexivity. }
assert (Hwf : well_formed nb r = true).
{ rewrite List.Forall_forall in Hall. apply Hall. apply find_some in Efind. tauto. }
unfold well_formed in Hwf. rewrite !andb_true_iff in Hwf.
destruct Hwf as [[[_ _] Hfit] _].
split; [| split; [| split]].
- intros Hty. exists front, rest.
  unfold payload_fits in Hfit. rewrite Hty in Hfit.
  change (IsArrayType UUID) with false in Hfit. change (IsVectorType UUID) with false in Hfit.
  change (IsPrimitiveType UUID) with true in Hfit. change (inline_size UUID) with (@None nat) in Hfit.
  change (UUID =? UUID) with true in Hfit. cbn [negb] in Hfit. apply Z.eqb_eq in Hfit.
  split; [| split; [exact Hmem | exact Hfit]].
  unfold ReadUUID. rewrite HF. unfold entry_at. rewrite Hty.
  change (inline_size UUID) with (@None nat).
  cbn [type value get_ptr]. change (UUID =? UUID) with true. reflexivity.
- intros Hvec. exists front, rest.
  destruct (vector_type_is_not_inline (r_type r) Hvec) as [Ha Hi].
  unfold payload_fits in Hfit. rewrite Ha, Hvec in Hfit. apply Z.eqb_eq in Hfit.
  rewrite vector_size_fits in Hfit.
  split; [| split; [exact Hmem | exact Hfit]].
  unfold ReadVector. rewrite HF. unfold entry_at. rewrite Hi.
  cbn [type value get_ptr]. rewrite Z.eqb_refl. reflexivity.
- intros Hty. unfold ReadUUID. rewrite HF. unfold entry_at. cbn [type].
  replace (r_type r =? UUID) with false by (symmetry; apply Z.eqb_neq; exact Hty).
  reflexivity.
- intros t Ht. unfold ReadVector. rewrite HF. unfold entry_at. cbn [type].
  replace (r_type r =? t) with false by (symmetry; apply Z.eqb_neq; congruence).
  reflexivity.
Qed.

Lemma uuids_and_vectors_are_read_in_place_witness :
  let position := mkDataTag 5 (bytes_of_string "position") in
  let rs := [mkRegister position 0x3A (repeat Byte.x00 12)] in
  let mem := document (registers_bytes false rs) in
  exists front rest,
    fst (ReadVector little position 0x3A (mem, ObjectReader_new little mem (Some 0) false))
    = Some (zlen front)
    /\ mem = front ++ repeat Byte.x00 12 ++ rest
    /\ zlen (repeat Byte.x00 12) = 3 * 4.
Proof.
intros position rs mem.
pose proof (uuids_and_vectors_are_read_in_place false rs [] [] position) as H.
cbv zeta in H. rewrite app_nil_r in H.
destruct H as (_ & H & _).
- repeat constructor.
- discriminate.
- reflexivity.
- apply H. reflexivity.
Defined.

(** ** Array readers that are not valid *)

Lemma init_loop_count e es mem :
  forall fuel p endp count p' count' flag,
    0 <= count < 2 ^ 32 ->
    init_loop e fuel es mem p endp count = Some (p', count', flag) ->
    0 <= count' < 2 ^ 32.
Proof.
induction fuel as [| fuel IH]; intros p endp count p' count' flag Hc H; cbn [init_loop] in H.
- destruct (p <? endp); [discriminate H |]. injection H as _ <- _. exact Hc.
- destruct (p <? endp); [| injection H as _ <- _; exact Hc].
  destruct (negb (CanAccessBuffer p endp (Z.of_nat sizeof_FieldSize))); [discriminate H |].
  destruct (negb (CanAccessBuffer _ _ _)).
  + injection H as _ <- _. lia.
  + eapply IH; [| exact H]. unfold wrap32. apply Z.mod_pos_bound. lia.
Qed.

(** X30. An array reader that is not valid is empty on every interface.
    On either host and for any memory, the reader that [Initialize] builds
    keeps the array address, has a size between 0 and 2^32 - 1, and when it
    is not valid its size is 0, [begin()] equals [end()] so that the
    range-based [for] yields nothing, and [GetElement] fails for every
    index; a valid reader fails [GetElement] for every index from its size
    on.  The three typed constructors give a reader that is not valid when
    the entry has another type. *)
Theorem invalid_array_reader_is_empty e es mem array index entry :
  let a := ArrayReader_new e es mem array in
  m_array a = array
  /\ 0 <= ArrayReader_Size a < 2 ^ 32
  /\ (ArrayReader_IsValid a = false ->
      ArrayReader_Size a = 0
      /\ iterator_eq (ArrayReader_begin e es mem a) (ArrayReader_end e es mem a) = true
      /\ elements e es mem a = []
      /\ ArrayReader_GetElement e es mem a index = None)
  /\ (ArrayReader_Size a <= index -> ArrayReader_GetElement e es mem a index = None)
  /\ (type entry <> StringArray ->
      ArrayReader_IsValid (StringArrayReader_new e mem entry) = false
      /\ ArrayReader_Size (StringArrayReader_new e mem entry) = 0)
  /\ (type entry <> BinaryArray ->
      ArrayReader_IsValid (BinaryArrayReader_new e mem entry) = false
      /\ ArrayReader_Size (BinaryArrayReader_new e mem entry) = 0)
  /\ (type entry <> ObjectArray ->
      ArrayReader_IsValid (ObjectArrayReader_new e mem entry) = false
      /\ ArrayReader_Size (ObjectArrayReader_new e mem entry) = 0).
Proof.
intros a.
assert (Hshape : exists c v, a = mkArrayReader array c v /\ 0 <= c < 2 ^ 32
                             /\ (v = false -> c = 0)).
{ unfold a, ArrayReader_new, Initialize.
  destruct (init_loop e _ es mem _ _ 0) as [[[rp c] fl] |] eqn:E.
  - destruct (negb (rp =? _)) eqn:Ev.
    + exists 0, false. split; [reflexivity | split; [lia | reflexivity]].
    + exists c, (rp =? array + Z.of_nat sizeof_FieldSize + GetArraySize e mem array).
      split; [reflexivity |]. split.
      * eapply init_loop_count; [| exact E]. lia.
      * intros Hf. rewrite Hf in Ev. discriminate Ev.
  - exists 0, false. split; [reflexivity | split; [lia | reflexivity]]. }
destruct Hshape as (c & v & Ha & Hc & Hv). rewrite Ha.
cbn [m_array ArrayReader_Size ArrayReader_IsValid m_element_count m_valid].
split; [reflexivity | split; [exact Hc |]].
split; [| split].
- intros ->. specialize (Hv eq_refl). subst c.
  split; [reflexivity |].
  unfold elements, ArrayReader_begin, ArrayReader_GetElement.
  cbn [ArrayReader_IsValid m_valid negb orb].
  split; [unfold iterator_eq; apply Z.eqb_refl |].
  split; [| reflexivity].
  cbn [iterate]. unfold iterator_eq. rewrite Z.eqb_refl. reflexivity.
- intros Hi. unfold ArrayReader_GetElement.
  cbn [ArrayReader_IsValid m_valid m_element_count].
  replace (c <=? index) with true by (symmetry; apply Z.leb_le; exact Hi).
  rewrite orb_true_r. reflexivity.
- unfold StringArrayReader_new, BinaryArrayReader_new, ObjectArrayReader_new.
  split; [| split]; intros Ht;
    match goal with
    | |- context [type entry =? ?t] =>
        replace (type entry =? t) with false by (symmetry; apply Z.eqb_neq; exact Ht)
    end; split; reflexivity.
Qed.

(* ===================================================================== *)
(** * A primitive field on a big-endian host *)
(* ===================================================================== *)

Lemma byteswap_bound n v : 0 <= byteswap n v < 2 ^ (Z.of_nat n * 8).
Proof.
unfold byteswap. pose proof (le_combine_bound (rev (le_split n v))) as H.
rewrite length_rev, length_le_split in H.
replace (Z.of_nat n * 8) with (8 * Z.of_nat n) by lia. exact H.
Qed.

Lemma le_split_4_small x :
  0 <= x < 2 ^ 16 -> exists a b, le_split 4 x = [a; b; byte.of_Z 0; byte.of_Z 0].
Proof.
intros Hx. exists (byte.of_Z x), (byte.of_Z (Z.shiftr x 8)).
change (le_split 4 x)
  with [byte.of_Z x; byte.of_Z (Z.shiftr x 8); byte.of_Z (Z.shiftr (Z.shiftr x 8) 8);
        byte.of_Z (Z.shiftr (Z.shiftr (Z.shiftr x 8) 8) 8)].
rewrite !Z.shiftr_shiftr by lia.
rewrite (Z.shiftr_div_pow2 x (8 + 8)), (Z.shiftr_div_pow2 x (8 + 8 + 8)) by lia.
rewrite (Z.div_small x (2 ^ (8 + 8))) by (simpl; lia).
rewrite (Z.div_small x (2 ^ (8 + 8 + 8))) by (simpl; lia).
reflexivity.
Qed.

(** A size below 2^16 that is read with its four bytes in the other order
    is at least 2^16. *)
Lemma byteswap_4_large s : 0 < s < 2 ^ 16 -> 2 ^ 16 <= byteswap 4 s < 2 ^ 32.
Proof.
intros Hs. pose proof (byteswap_bound 4 s) as Hb.
split; [| exact (proj2 Hb)].
destruct (Z_lt_le_dec (byteswap 4 s) (2 ^ 16)) as [Hlt | Hge]; [exfalso | exact Hge].
destruct (le_split_4_small (byteswap 4 s)) as (a & b & E1); [lia |].
destruct (le_split_4_small s) as (a' & b' & E2); [lia |].
rewrite le_split_byteswap, E2 in E1. cbn [rev app] in E1.
injection E1 as <- <- Hb' Ha'.
assert (E : le_combine (le_split 4 s) = 0) by (rewrite E2, Hb', Ha'; reflexivity).
rewrite le_combine_le_split_small in E by (simpl; lia). lia.
Qed.

(** [ReadData] with swap on [n] bytes that lie at [p], before any end of
    the region that leaves them inside. *)
Lemma ReadData_within e n (pre bs post : list byte) p end_ :
  p = zlen pre ->
  length bs = n ->
  Z.of_nat n <= end_ - p ->
  end_ - p < 2 ^ 64 ->
  ReadData e n true (pre ++ bs ++ post) p end_
  = Some (AdjustEndianess e n (of_native e bs), p + Z.of_nat n).
Proof.
intros Hp Hl Hn He. unfold ReadData.
rewrite CanAccessBuffer_true by lia.
rewrite (load_mid pre bs post p (Z.of_nat n) Hp) by (unfold zlen; lia).
reflexivity.
Qed.

Lemma ReadData_le_within e n v (pre post : list byte) p end_ :
  (n = 1 \/ n = 2 \/ n = 4 \/ n = 8)%nat ->
  0 <= v < 2 ^ (Z.of_nat n * 8) ->
  p = zlen pre ->
  Z.of_nat n <= end_ - p ->
  end_ - p < 2 ^ 64 ->
  ReadData e n true (pre ++ le_split n v ++ post) p end_ = Some (v, p + Z.of_nat n).
Proof.
intros Hn Hv Hp Hle He.
rewrite ReadData_within by (try assumption; apply length_le_split).
rewrite AdjustEndianess_of_le by assumption. reflexivity.
Qed.

Section FirstRegister.

Variables (e : endian) (tag : DataTag) (ty : DataType) (n : nat) (bits : Z).
Variables (post : list byte) (buff_end : Z).
Hypothesis Htag : wire_tag tag.
Hypothesis Hn : (n = 1 \/ n = 2 \/ n = 4 \/ n = 8)%nat.
Hypothesis Hty : 0 <= ty < 2 ^ 8.
Hypothesis Hbits : 0 <= bits < 2 ^ (Z.of_nat n * 8).
Hypothesis Hvalid : IsValidDataType ty = true.
Hypothesis Harray : IsArrayType ty = false.
Hypothesis Hvector : IsVectorType ty = false.
Hypothesis Hprim : IsPrimitiveType ty = true.
Hypothesis Hinline : inline_size ty = Some n.

Local Abbreviation body nb := (field_bytes nb tag ty n bits).
Local Abbreviation mem nb := (document (field_bytes nb tag ty n bits) ++ post).
Local Abbreviation entry := (mkCacheEntry ty (v_int n bits)).

(** The first iteration of the validation loop over a memory that starts
    with the one-field document, on either host and for any end of the
    region behind the register: the register is read as it was written and
    the cursor comes to stand behind the document.  In id mode the key is
    the id as [memcpy] reads it on the host. *)
Lemma read_register_first nb :
  4 + zlen (body nb) <= buff_end ->
  buff_end < 2 ^ 63 ->
  exists tag_ptr tag_size,
    read_register e nb (mem nb) 4 buff_end
    = (mem nb, Some (tag_ptr, tag_size, entry, 4 + zlen (body nb)))
    /\ (if nb then load (mem nb) tag_ptr tag_size = name tag
        else of_native e (load (mem nb) tag_ptr 2) = of_native e (le_split 2 (id tag))).
Proof.
intros Hend Hmax.
pose proof (body_bounds tag ty n bits Htag Hn nb) as Hb.
pose proof (zlen_body tag ty n bits Hn nb) as Hz.
pose proof (zlen_nonneg (name tag)) as Hnn.
destruct Htag as [Hlen Hid].
set (S4 := le_split 4 (wrap32 (zlen (body nb)))).
assert (HS4 : zlen S4 = 4) by apply zlen_le_split.
assert (Hn8 : (1 <= n <= 8)%nat) by (destruct Hn as [-> | [-> | [-> | ->]]]; lia).
unfold read_register.
destruct nb.
- (* name mode *)
  remember (zlen (name tag)) as len eqn:Hlendef.
  assert (Hwl : wrap8 len = len) by (unfold wrap8; apply Z.mod_small; lia).
  assert (E1 : mem true = S4 ++ le_split 1 ty ++ (tag_bytes true tag ++ le_split n bits ++ post)).
  { unfold document, field_bytes. fold S4. rewrite <- !app_assoc. reflexivity. }
  assert (E2 : mem true
               = (S4 ++ le_split 1 ty) ++ le_split 1 len ++ (name tag ++ le_split n bits ++ post)).
  { rewrite E1. unfold tag_bytes. rewrite <- Hlendef, Hwl.
    rewrite <- !app_assoc. reflexivity. }
  assert (E3 : mem true
               = (S4 ++ le_split 1 ty ++ le_split 1 len) ++ name tag ++ le_split n bits ++ post).
  { rewrite E2, <- !app_assoc. reflexivity. }
  assert (E4 : mem true
               = (S4 ++ le_split 1 ty ++ le_split 1 len ++ name tag) ++ le_split n bits ++ post).
  { rewrite E2, <- !app_assoc. reflexivity. }
  exists 6, len.
  rewrite E1 at 1. rewrite (ReadData_le_within e 1 ty) by (auto; simpl; lia).
  rewrite Hvalid. cbn [negb].
  change (4 + Z.of_nat 1) with 5.
  rewrite E2 at 1.
  rewrite (ReadData_le_within e 1 len)
    by (auto; rewrite ?zlen_app, ?zlen_le_split, ?HS4; simpl; lia).
  change (5 + Z.of_nat 1) with 6.
  rewrite CanAccessBuffer_true by lia. cbn [negb].
  rewrite (read_entry_inline e _ ty n) by assumption.
  rewrite E4 at 1.
  rewrite (ReadData_le_within e n bits)
    by (auto; rewrite ?zlen_app, ?zlen_le_split, ?HS4, <- ?Hlendef; simpl; lia).
  replace (6 + len + Z.of_nat n) with (4 + zlen (body true)) by lia.
  replace (buff_end <? 4 + zlen (body true)) with false by (symmetry; apply Z.ltb_ge; lia).
  split; [reflexivity |].
  rewrite E3. apply load_mid.
  + rewrite !zlen_app, !zlen_le_split, HS4. simpl. lia.
  + exact Hlendef.
- (* id mode *)
  assert (E1 : mem false
               = S4 ++ le_split 1 ty ++ (tag_bytes false tag ++ le_split n bits ++ post)).
  { unfold document, field_bytes. fold S4. rewrite <- !app_assoc. reflexivity. }
  assert (E3 : mem false
               = (S4 ++ le_split 1 ty) ++ le_split 2 (id tag) ++ le_split n bits ++ post).
  { rewrite E1. unfold tag_bytes. rewrite <- !app_assoc. reflexivity. }
  assert (E4 : mem false
               = (S4 ++ le_split 1 ty ++ le_split 2 (id tag)) ++ le_split n bits ++ post).
  { rewrite E3, <- !app_assoc. reflexivity. }
  exists 5, 2.
  rewrite E1 at 1. rewrite (ReadData_le_within e 1 ty) by (auto; simpl; lia).
  rewrite Hvalid. cbn [negb].
  change (4 + Z.of_nat 1) with 5.
  rewrite CanAccessBuffer_true by lia. cbn [negb].
  rewrite (read_entry_inline e _ ty n) by assumption.
  rewrite E4 at 1.
  rewrite (ReadData_le_within e n bits)
    by (auto; rewrite ?zlen_app, ?zlen_le_split, ?HS4; simpl; lia).
  replace (5 + 2 + Z.of_nat n) with (4 + zlen (body false)) by lia.
  replace (buff_end <? 4 + zlen (body false)) with false by (symmetry; apply Z.ltb_ge; lia).
  split; [reflexivity |].
  rewrite E3.
  rewrite (load_mid (S4 ++ le_split 1 ty) (le_split 2 (id tag)) (le_split n bits ++ post) 5 2)
    by (rewrite ?zlen_app, ?zlen_le_split, ?HS4; simpl; lia).
  reflexivity.
Qed.

End FirstRegister.

Lemma of_native_union_bytes_host e n v :
  of_native e (firstn n (union_bytes e (v_int n v))) = v mod 2 ^ (Z.of_nat n * 8).
Proof.
unfold union_bytes.
rewrite (firstn_exact_app n (to_native e n v)) by apply length_to_native.
apply of_native_to_native.
Qed.

(** The reader that the constructors build over a memory that starts with
    a document: on a big-endian host the size is the prefix with its bytes
    in the other order. *)
Lemma Reader_new_document e (body post : list byte) nb :
  zlen body < 2 ^ 32 ->
  Reader_new e (document body ++ post) nb
  = (document body ++ post,
     mkObjectReader (Some 4) (of_native e (le_split 4 (zlen body))) nb false false ∅ ∅).
Proof.
intros Hb. pose proof (zlen_nonneg body) as Hnn.
unfold Reader_new. rewrite ObjectReader_new_sized_eq.
unfold ObjectReader_new. f_equal. f_equal.
unfold document. rewrite <- app_assoc.
assert (Hw : wrap32 (zlen body) = zlen body) by (unfold wrap32; apply Z.mod_small; lia).
rewrite Hw.
pose proof (load_mid [] (le_split 4 (zlen body)) (body ++ post) 0
              (Z.of_nat sizeof_FieldSize) eq_refl
              (eq_sym (zlen_le_split 4 (zlen body)))) as Hl.
cbn [app] in Hl. rewrite Hl. reflexivity.
Qed.

(** In name mode, whatever lies behind the one-field document and whatever
    size the reader takes for the object: a lookup of the tag finds
    nothing, or the entry of the field. *)
Lemma FindTag_first_name e tag ty n bits (post : list byte) M :
  wire_tag tag ->
  (n = 1 \/ n = 2 \/ n = 4 \/ n = 8)%nat ->
  0 <= ty < 2 ^ 8 ->
  0 <= bits < 2 ^ (Z.of_nat n * 8) ->
  IsValidDataType ty = true ->
  IsArrayType ty = false ->
  IsVectorType ty = false ->
  IsPrimitiveType ty = true ->
  inline_size ty = Some n ->
  zlen (field_bytes true tag ty n bits) <= M < 2 ^ 32 ->
  let mem := document (field_bytes true tag ty n bits) ++ post in
  let r := mkObjectReader (Some 4) M true false false ∅ ∅ in
  fst (FindTag e tag (mem, r)) = None
  \/ fst (FindTag e tag (mem, r)) = Some (mkCacheEntry ty (v_int n bits)).
Proof.
intros Htag Hn Hty Hbits Hvalid Harray Hvector Hprim Hinline HM mem r.
pose proof (body_bounds tag ty n bits Htag Hn true) as Hb.
destruct (read_register_first e tag ty n bits post (4 + M) Htag Hn Hty Hbits Hvalid Harray
            Hvector Hprim Hinline true) as (tp & ts & R & K); [lia | lia |].
fold mem in R, K.
rewrite FindTag_eq. unfold CreateCache, r.
cbn [Rd.m_cache_built Rd.m_buffer Rd.m_size Rd.m_name_based m_id_cache m_name_cache].
replace (M =? 0) with false by (symmetry; apply Z.eqb_neq; lia).
set (s0 := mkScan mem 4 false ∅ ∅).
rewrite (scan_step e true (4 + M) (Z.to_nat M) s0 mem tp ts
           (mkCacheEntry ty (v_int n bits)) (4 + zlen (field_bytes true tag ty n bits)))
  by (cbn [s_read_ptr s_mem s0]; first [lia | exact R]).
cbn [fst snd Rd.m_is_valid].
match goal with |- context [if ?c then _ else _] => destruct c end; [right | left; reflexivity].
unfold lookup_cache. cbn [Rd.m_name_based m_name_cache].
apply scan_keeps_name. unfold add_tag. cbn [s_name_cache s0].
unfold GetName. rewrite K. apply emplace_fresh, lookup_empty.
Qed.

(** The same for the read of the field's type: nothing, or the bits of the
    entry. *)
Lemma ReadPrimitive_first_name e tag ty n bits (post : list byte) M :
  wire_tag tag ->
  (n = 1 \/ n = 2 \/ n = 4 \/ n = 8)%nat ->
  0 <= ty < 2 ^ 8 ->
  0 <= bits < 2 ^ (Z.of_nat n * 8) ->
  IsValidDataType ty = true ->
  IsArrayType ty = false ->
  IsVectorType ty = false ->
  IsPrimitiveType ty = true ->
  inline_size ty = Some n ->
  zlen (field_bytes true tag ty n bits) <= M < 2 ^ 32 ->
  let mem := document (field_bytes true tag ty n bits) ++ post in
  let r := mkObjectReader (Some 4) M true false false ∅ ∅ in
  fst (ReadPrimitive e n ty tag (mem, r)) = None
  \/ fst (ReadPrimitive e n ty tag (mem, r)) = Some bits.
Proof.
intros Htag Hn Hty Hbits Hvalid Harray Hvector Hprim Hinline HM mem r.
pose proof (FindTag_first_name e tag ty n bits post M Htag Hn Hty Hbits Hvalid Harray Hvector
              Hprim Hinline HM) as HF.
cbv zeta in HF. fold mem r in HF.
unfold ReadPrimitive.
destruct (FindTag e tag (mem, r)) as [en st]. cbn [fst] in HF.
destruct HF as [-> | ->]; [left; reflexivity | right].
cbn [type value]. rewrite Z.eqb_refl. cbn [negb fst].
rewrite of_native_union_bytes_host. f_equal. apply Z.mod_small. exact Hbits.
Qed.

(** On a big-endian host a floating-point value is written as the host
    holds it, which is what a little-endian host writes for the value with
    its bytes reversed; everything else is written as on a little-endian
    host. *)
Lemma WriteData_unswapped_big n v w :
  (n = 2 \/ n = 4 \/ n = 8)%nat ->
  WriteData big n false v w = WriteData little n false (byteswap n v) w.
Proof.
intros Hn. rewrite WriteData_little by tauto.
destruct Hn as [-> | [-> | ->]]; unfold WriteData; cbn [Nat.ltb Nat.leb to_native];
  rewrite le_split_byteswap; reflexivity.
Qed.

Lemma Writer_Finish_host e w : Writer_Finish e w = Writer_Finish little w.
Proof.
unfold Writer_Finish, ObjectWriter_Finish.
destruct (negb (IsFinished (m_root_object w))); [| reflexivity].
rewrite (WriteDataSizeField_host e). reflexivity.
Qed.

Lemma single_field_document_big nb tag ty n sw bits :
  (n = 1 \/ n = 2 \/ n = 4 \/ n = 8)%nat ->
  (sw = false -> n <> 1%nat) ->
  Data (Writer_Finish big
          (WriteData big n sw bits (WriteFieldHeader big tag ty (Writer_new nb))))
  = document (field_bytes nb tag ty n
                ((if sw then bits else byteswap n bits) mod 2 ^ (Z.of_nat n * 8))).
Proof.
intros Hn Hsw.
rewrite Writer_Finish_host, WriteFieldHeader_host.
assert (E : WriteData big n sw bits (WriteFieldHeader little tag ty (Writer_new nb))
            = WriteData little n sw (if sw then bits else byteswap n bits)
                (WriteFieldHeader little tag ty (Writer_new nb))).
{ destruct sw.
  - rewrite WriteData_swapped, WriteData_little by exact Hn. reflexivity.
  - apply WriteData_unswapped_big. specialize (Hsw eq_refl). tauto. }
rewrite E, single_field_document by exact Hn.
unfold document, field_bytes.
rewrite <- (le_split_mod (if sw then bits else byteswap n bits) n). reflexivity.
Qed.

(** What one primitive field is on the wire when a big-endian host writes
    it, and what the read of its type makes of the bits of an entry. *)
Lemma primitive_on_the_wire_big nb tag pv :
  in_range pv ->
  exists ty n bits (k : Z -> PrimValue),
    (n = 1 \/ n = 2 \/ n = 4 \/ n = 8)%nat
    /\ 0 <= ty < 2 ^ 8
    /\ 0 <= bits < 2 ^ (Z.of_nat n * 8)
    /\ IsValidDataType ty = true
    /\ IsArrayType ty = false
    /\ IsVectorType ty = false
    /\ IsPrimitiveType ty = true
    /\ inline_size ty = Some n
    /\ encode big nb [field_of tag pv] = document (field_bytes nb tag ty n bits)
    /\ (forall st, read_as big pv tag st = option_map k (fst (ReadPrimitive big n ty tag st)))
    /\ k bits = float_swapped pv.
Proof.
intros Hr.
assert (Hpos : forall n : nat, 0 < 2 ^ (Z.of_nat n * 8)) by (intros; apply Z.pow_pos_nonneg; lia).
assert (Hread : forall A (f : Z -> A) (g : A -> PrimValue) (o : option Z),
          option_map g (option_map f o) = option_map (fun z => g (f z)) o)
  by (intros A f g [z |]; reflexivity).
destruct pv as [v | v | v | v | v | v | v | v | b | bits | bits | bits];
  [ exists Int8, 1%nat, (v mod 2 ^ (Z.of_nat 1 * 8)), (fun z => VInt8 (to_signed 1 z))
  | exists Int16, 2%nat, (v mod 2 ^ (Z.of_nat 2 * 8)), (fun z => VInt16 (to_signed 2 z))
  | exists Int32, 4%nat, (v mod 2 ^ (Z.of_nat 4 * 8)), (fun z => VInt32 (to_signed 4 z))
  | exists Int64, 8%nat, (v mod 2 ^ (Z.of_nat 8 * 8)), (fun z => VInt64 (to_signed 8 z))
  | exists UInt8, 1%nat, (v mod 2 ^ (Z.of_nat 1 * 8)), VUInt8
  | exists UInt16, 2%nat, (v mod 2 ^ (Z.of_nat 2 * 8)), VUInt16
  | exists UInt32, 4%nat, (v mod 2 ^ (Z.of_nat 4 * 8)), VUInt32
  | exists UInt64, 8%nat, (v mod 2 ^ (Z.of_nat 8 * 8)), VUInt64
  | exists Boolean, 1%nat, ((if b then 1 else 0) mod 2 ^ (Z.of_nat 1 * 8)),
      (fun z => VBoolean (negb (z =? 0)))
  | exists Float16, 2%nat, (byteswap 2 bits mod 2 ^ (Z.of_nat 2 * 8)), VFloat16
  | exists Float32, 4%nat, (byteswap 4 bits mod 2 ^ (Z.of_nat 4 * 8)), VFloat32
  | exists Float64, 8%nat, (byteswap 8 bits mod 2 ^ (Z.of_nat 8 * 8)), VFloat64 ];
  (split; [auto 6 |]);
  (split; [vm_compute; split; congruence |]);
  (split; [apply Z.mod_pos_bound, Hpos |]);
  (split; [reflexivity |]); (split; [reflexivity |]); (split; [reflexivity |]);
  (split; [reflexivity |]); (split; [reflexivity |]);
  (split;
   [ unfold encode, write_fields, field_of; cbn [fold_left write_field];
     unfold FieldInt8, FieldInt16, FieldInt32, FieldInt64, FieldUInt8, FieldUInt16,
       FieldUInt32, FieldUInt64, FieldBoolean, FieldFloat16, FieldFloat32, FieldFloat64;
     rewrite single_field_document_big by first [auto 6 | discriminate | congruence];
     reflexivity |]);
  (split;
   [ intros st; unfold read_as, ReadInt8, ReadInt16, ReadInt32, ReadInt64, ReadUInt8,
       ReadUInt16, ReadUInt32, ReadUInt64, ReadBoolean, ReadFloat16, ReadFloat32,
       ReadFloat64, map_result; cbn [fst]; rewrite ?Hread; reflexivity |]);
  unfold in_range in Hr; cbn [float_swapped].
- f_equal. apply to_signed_wrap; [auto | simpl; lia].
- f_equal. apply to_signed_wrap; [auto | simpl; lia].
- f_equal. apply to_signed_wrap; [auto 6 | simpl; lia].
- f_equal. apply to_signed_wrap; [auto 6 | simpl; lia].
- f_equal. apply Z.mod_small. simpl; lia.
- f_equal. apply Z.mod_small. simpl; lia.
- f_equal. apply Z.mod_small. simpl; lia.
- f_equal. apply Z.mod_small. simpl; lia.
- destruct b; reflexivity.
- f_equal. apply Z.mod_small, byteswap_bound.
- f_equal. apply Z.mod_small, byteswap_bound.
- f_equal. apply Z.mod_small, byteswap_bound.
Qed.

Lemma load_at_end (m : list byte) k : load m (zlen m) k = [].
Proof.
unfold load, zlen. rewrite Nat2Z.id, skipn_all2 by lia. apply List.firstn_nil.
Qed.

(** C1. A primitive field round-trips on a little-endian host and does not
    on a big-endian host.  For every primitive value V of a type T among
    Int8..Int64, UInt8..UInt64, Boolean, Float16, Float32, Float64, in name
    mode and in id mode: on a little-endian host, writing one field with
    [FieldT], finishing the writer and reading the tag back with [ReadT]
    yields V.  On a big-endian host, over the buffer that the same writer
    calls produce:
    - the constructor of the reader takes the size prefix, which the writer
      stored in little-endian order, with its bytes in host order, so
      [m_size] is the byte-swapped size and the region that the reader
      validates ends behind the buffer;
    - the validation loop reads the field's register, stands at the end of
      the buffer with the loop condition still true, and its bounds check
      admits the read of the next type byte, a byte the buffer does not
      have; in id mode the register has been filed under the byte-swapped
      id, so that a lookup of the tag does not find it unless the two bytes
      of the id are equal;
    - in name mode, whatever bytes [post] the memory holds behind the
      buffer (the size argument of the constructor has no effect), [ReadT]
      returns nothing or the value with the bytes of a float reversed:
      never V for a float whose bytes are not a palindrome. *)
Theorem primitive_field_round_trip_fails_on_big_endian_host nb tag pv :
  wire_tag tag ->
  in_range pv ->
  let doc := encode big nb [field_of tag pv] in
  let r := snd (Reader_new big doc nb) in
  let buff_end := 4 + m_size r in
  read_as little pv tag (Reader_new little (encode little nb [field_of tag pv]) nb) = Some pv
  /\ m_size r = byteswap 4 (zlen doc - 4)
  /\ zlen doc < buff_end
  /\ (exists s,
        Reaches big nb buff_end (scan_start doc r 4) s
        /\ s_read_ptr s = zlen doc
        /\ CanAccessBuffer (s_read_ptr s) buff_end 1 = true
        /\ load doc (s_read_ptr s) 1 = []
        /\ (nb = false -> byteswap 2 (id tag) <> id tag -> scan_lookup false s tag = None))
  /\ (nb = true ->
      forall post,
        read_as big pv tag (Reader_new big (doc ++ post) nb) = None
        \/ read_as big pv tag (Reader_new big (doc ++ post) nb) = Some (float_swapped pv)).
Proof.
intros Htag Hr doc r buff_end.
split; [apply primitive_field_round_trip; assumption |].
destruct (primitive_on_the_wire_big nb tag pv Hr)
  as (ty & n & bits & k & Hn & Hty & Hbits & Hv & Ha & Hvec & Hp & Hi & Hdoc & Hread & Hk).
subst buff_end r doc. rewrite !Hdoc. clear Hdoc.
pose proof (body_bounds tag ty n bits Htag Hn nb) as Hb.
assert (HM : 2 ^ 16 <= byteswap 4 (zlen (field_bytes nb tag ty n bits)) < 2 ^ 32)
  by (apply byteswap_4_large; lia).
assert (Hzd : zlen (document (field_bytes nb tag ty n bits))
              = 4 + zlen (field_bytes nb tag ty n bits))
  by (unfold document; rewrite zlen_app, zlen_le_split; reflexivity).
assert (HRp : forall post,
          Reader_new big (document (field_bytes nb tag ty n bits) ++ post) nb
          = (document (field_bytes nb tag ty n bits) ++ post,
             mkObjectReader (Some 4) (byteswap 4 (zlen (field_bytes nb tag ty n bits)))
               nb false false ∅ ∅))
  by (intros post; apply Reader_new_document; lia).
pose proof (HRp []) as HR. rewrite app_nil_r in HR.
rewrite HR. cbn [snd Rd.m_size].
split; [rewrite Hzd; f_equal; lia |].
split; [rewrite Hzd; lia |].
split.
- destruct (read_register_first big tag ty n bits []
              (4 + byteswap 4 (zlen (field_bytes nb tag ty n bits)))
              Htag Hn Hty Hbits Hv Ha Hvec Hp Hi nb) as (tp & ts & R & K); [lia | lia |].
  rewrite app_nil_r in R, K.
  eexists. split; [| split; [| split; [| split]]].
  + eapply reaches_step; [| exact R | apply reaches_refl].
    cbn [scan_start s_read_ptr]. lia.
  + rewrite add_tag_read_ptr. symmetry. exact Hzd.
  + rewrite add_tag_read_ptr. apply CanAccessBuffer_true; lia.
  + rewrite add_tag_read_ptr, <- Hzd. apply load_at_end.
  + intros -> Hne. unfold scan_lookup, add_tag, scan_start.
    cbn [s_id_cache Rd.m_name_based]. rewrite K.
    unfold emplace. rewrite lookup_empty.
    rewrite lookup_insert_ne by exact Hne. apply lookup_empty.
- intros -> post. rewrite Hread, HRp.
  destruct (ReadPrimitive_first_name big tag ty n bits post
              (byteswap 4 (zlen (field_bytes true tag ty n bits)))
              Htag Hn Hty Hbits Hv Ha Hvec Hp Hi) as [H | H];
    [lia | rewrite H; left; reflexivity | rewrite H; right].
  cbn [option_map]. rewrite Hk. reflexivity.
Qed.

Lemma primitive_field_round_trip_fails_on_big_endian_host_witness :
  let one := VFloat32 0x3F800000 in
  let doc := encode big true [field_of (tag_of "f") one] in
  zlen doc = 11
  /\ m_size (snd (Reader_new big doc true)) = 0x07000000
  /\ read_as little one (tag_of "f")
       (Reader_new little (encode little true [field_of (tag_of "f") one]) true)
     = Some one
  /\ forall post,
       read_as big one (tag_of "f") (Reader_new big (doc ++ post) true) = None
       \/ read_as big one (tag_of "f") (Reader_new big (doc ++ post) true)
          = Some (VFloat32 0x0000803F).
Proof.
intros one doc.
assert (Htag : wire_tag (tag_of "f"))
  by (unfold wire_tag; vm_compute; repeat split; first [reflexivity | discriminate]).
assert (Hr : in_range one) by (vm_compute; repeat split; first [reflexivity | discriminate]).
pose proof (primitive_field_round_trip_fails_on_big_endian_host true (tag_of "f") one Htag Hr)
  as H.
cbv zeta in H. destruct H as (Hl & _ & _ & _ & Hpost).
split; [vm_compute; reflexivity |].
split; [vm_compute; reflexivity |].
split; [exact Hl |].
intros post. exact (Hpost eq_refl post).
Defined.
